(** * A shallow embedding of the rope package

    The repository holds several snapshots of the rope package.  The
    definitions below follow, file by file:

    - [src/rope/rebalance.go]: [fibCache], [binSearch], [reverseFib],
      [getFibCache], [extendFibs], [Rope.isBalanced], [Rope.Rebalance];
    - [src/unnamed/part_003]: the node declarations with the four-argument
      [conc] and the nil-aware [concMany];
    - [src/unnamed/part_006]: the pointer-receiver [concat] node with
      [split], [rLen], [treedepth],
      [length], [rLength], [WriteTo], [slice], [dropPrefix], [dropPostfix],
      [walkLeaves];
    - [src/rope/leaf.go]: the [leaf] methods;
    - [src/rope/reader.go]: [Reader], [NewReader], [pushSubtree],
      [nextNode], [Read], and the [Rope] handle with [New], [String],
      [Bytes], [WriteTo], [Len], [concMany], [Concat], [DropPrefix],
      [DropPostfix], [Slice];
    - [src/rope/concat.go]: the earlier two-argument [conc] on value
      [concat] nodes with an [int] depth (module [Early]).

    The nil-aware [concMany] of the node declarations is in module
    [NodeGo]; the one of reader.go, which [Rope.Concat] calls, is at top
    level.

    Go integers are modelled as [Z] with the wrap-around of their width
    written out; a run-time panic is a value of the [result] type. *)

From Stdlib Require Import ZArith List String Ascii Bool Lia.
Import ListNotations.

Local Open Scope string_scope.
Local Open Scope Z_scope.

(** ** Panics and results *)

(** The run-time failures the modelled code can raise. *)
Inductive panic : Type :=
| IndexOutOfRange            (* a[i] with i outside [0, len(a)) *)
| SliceBoundsOutOfRange      (* a[:j] with j outside [0, cap(a)] *)
| NilDereference             (* method call on a nil interface value *)
| TypeAssertion              (* failed assertion to the concat pointer type *)
| BucketGrew (from to : Z).  (* the explicit panic of Rebalance *)

(** The outcome of running a piece of Go code: a value, a panic, or (for the
    loops run on fuel) no answer within the fuel given. *)
Inductive result (A : Type) : Type :=
| Ok (a : A)
| Panic (p : panic)
| OutOfFuel.

Arguments Ok {A} a.
Arguments Panic {A} p.
Arguments OutOfFuel {A}.

Definition bind {A B : Type} (m : result A) (k : A -> result B) : result B :=
  match m with
  | Ok a => k a
  | Panic p => Panic p
  | OutOfFuel => OutOfFuel
  end.

Notation "x <- m ;; k" := (bind m (fun x => k))
  (at level 61, m at next level, right associativity).
Notation "' p <- m ;; k" := (bind m (fun x => match x with p => k end))
  (at level 61, p pattern, m at next level, right associativity).

(** ** Machine integers *)

Definition max_int64 : Z := 2 ^ 63 - 1.
Definition min_int64 : Z := - 2 ^ 63.
Definition max_uint32 : Z := 2 ^ 32 - 1.

(** Two's complement wrap-around of a 64-bit signed integer. *)
Definition wrap64 (z : Z) : Z := (z + 2 ^ 63) mod 2 ^ 64 - 2 ^ 63.

Definition add64 (a b : Z) : Z := wrap64 (a + b).
Definition sub64 (a b : Z) : Z := wrap64 (a - b).

(** Conversion to [rLenT], a [uint32]. *)
Definition to_rLenT (z : Z) : Z := z mod 2 ^ 32.

(** Arithmetic of [depthT], a [byte]. *)
Definition add8 (a b : Z) : Z := (a + b) mod 2 ^ 8.

Definition in_int64 (z : Z) : Prop := min_int64 <= z <= max_int64.

Lemma wrap64_id z : in_int64 z -> wrap64 z = z.
Proof.
  unfold in_int64, min_int64, max_int64, wrap64. intros H.
  rewrite Z.mod_small; lia.
Qed.

Lemma wrap64_range z : in_int64 (wrap64 z).
Proof.
  unfold in_int64, min_int64, max_int64, wrap64.
  pose proof (Z.mod_pos_bound (z + 2 ^ 63) (2 ^ 64) ltac:(lia)). lia.
Qed.

Lemma add64_id a b : in_int64 (a + b) -> add64 a b = a + b.
Proof. apply wrap64_id. Qed.

Lemma sub64_id a b : in_int64 (a - b) -> sub64 a b = a - b.
Proof. apply wrap64_id. Qed.

Lemma to_rLenT_id z : 0 <= z <= max_uint32 -> to_rLenT z = z.
Proof. unfold to_rLenT, max_uint32. intros H. apply Z.mod_small. lia. Qed.

Lemma add8_le a b : 0 <= a + b -> 0 <= add8 a b <= a + b.
Proof.
  unfold add8. intros H.
  pose proof (Z.mod_pos_bound (a + b) (2 ^ 8) ltac:(lia)).
  pose proof (Z.mod_le (a + b) (2 ^ 8) H ltac:(lia)). lia.
Qed.

(** ** The Fibonacci cache and the binary search (rebalance.go) *)

(** [fibCache]: the initial value of the package-level slice. *)
Definition fibCache : list Z :=
  [ 1; 2; 3; 5; 8; 13; 21; 34; 55; 89; 144; 233; 377; 610; 987;
    1597; 2584; 4181; 6765; 10946; 17711; 28657; 46368; 75025; 121393;
    196418; 317811; 514229; 832040 ].

(** [arr[i]] on a slice: a panic outside [0, len(arr)). *)
Definition at_index {A : Type} (arr : list A) (i : Z) : result A :=
  if i <? 0 then Panic IndexOutOfRange
  else match nth_error arr (Z.to_nat i) with
       | Some x => Ok x
       | None => Panic IndexOutOfRange
       end.

Definition len {A : Type} (arr : list A) : Z := Z.of_nat (List.length arr).

(** The loop of [binSearch]: one unit of fuel per iteration. *)
Fixpoint binSearch_loop (fuel : nat) (N : Z) (arr : list Z) (start end_ : Z)
  : result Z :=
  if 1 <? sub64 end_ start then
    match fuel with
    | O => OutOfFuel
    | S fuel' =>
        let mid := Z.quot (add64 start end_) 2 in
        elt <- at_index arr mid ;;
        if elt <? N then binSearch_loop fuel' N arr mid end_
        else if N <? elt then binSearch_loop fuel' N arr start mid
        else Ok mid
    end
  else Ok end_.

(** [binSearch]: the interval [end - start] shrinks at every iteration, so
    [len(arr) + 1] iterations are always enough (lemma [binSearch_total]). *)
Definition binSearch (N : Z) (arr : list Z) : result Z :=
  binSearch_loop (S (List.length arr)) N arr (-1) (len arr).

(** The loop of [extendFibs], appending to the cache. *)
Fixpoint extendFibs_loop (fuel : nat) (N a b : Z) (cache : list Z)
  : result (list Z) :=
  if b <? N then
    match fuel with
    | O => OutOfFuel
    | S fuel' =>
        let b' := add64 a b in
        extendFibs_loop fuel' N b b' (cache ++ [b'])
    end
  else Ok cache.

(** [extendFibs]: the locks are not modelled; the package-level slice is
    passed in and the extended slice returned. *)
Definition extendFibs (fuel : nat) (N : Z) (cache : list Z) : result (list Z) :=
  a <- at_index cache (len cache - 2) ;;
  b <- at_index cache (len cache - 1) ;;
  extendFibs_loop fuel N a b cache.

(** [getFibCache]: the guard reads [fibCache[len(fibCache)]]. *)
Definition getFibCache (fuel : nat) (cache : list Z) (N : Z)
  : result (list Z) :=
  last <- at_index cache (len cache) ;;
  if last <? N then extendFibs fuel N cache else Ok cache.

(** [reverseFib]. *)
Definition reverseFib (fuel : nat) (cache : list Z) (N : Z) : result Z :=
  fibs <- getFibCache fuel cache N ;;
  binSearch N fibs.

(** ** Nodes *)

(** The dynamic types a non-nil [node] interface value takes: a [leaf], a
    pointer to a [concat], or a [Rope] handle itself, which embeds [node] and
    so implements it by promotion ([Rope.Concat] passes its receiver to
    [concMany]).  The children of a [concat] are never nil, by the comment on
    its fields; a handle stored as a node holds a non-nil root. *)
Inductive node : Type :=
| leaf (l : string)
| concat (Left Right : node) (Split : Z) (RLen : Z) (TreeDepth : Z)
| wrapped (inner : node).

(** [emptyNode]: the canonical empty node. *)
Definition emptyNode : node := leaf "".

(** [n == emptyNode] on interface values: equal dynamic types and equal
    strings. *)
Definition is_emptyNode (n : node) : bool :=
  match n with
  | leaf l => String.eqb l ""
  | _ => false
  end.

(** [len(l)] of a string, as an [int]. *)
Definition slen (l : string) : Z := Z.of_nat (String.length l).

(** [l[start:]] for [0 <= start <= len(l)]. *)
Definition str_from (start : Z) (l : string) : string :=
  substring (Z.to_nat start) (String.length l - Z.to_nat start) l.

(** [l[:end]] for [0 <= end <= len(l)]. *)
Definition str_to (end_ : Z) (l : string) : string :=
  substring 0 (Z.to_nat end_) l.

(** [depth]: [leaf.depth], [concat.depth] and the promoted method. *)
Fixpoint depth (n : node) : Z :=
  match n with
  | leaf _ => 0
  | concat _ _ _ _ d => d
  | wrapped inner => depth inner
  end.

(** [length], with [concat.rLength] inlined in the [concat] case. *)
Fixpoint length (n : node) : Z :=
  match n with
  | leaf l => slen l
  | concat _ r split rLen _ =>
      add64 split (if 0 <? rLen then rLen else length r)
  | wrapped inner => length inner
  end.

(** [concat.rLength], on the fields of the node. *)
Definition rLength (r : node) (rLen : Z) : Z :=
  if 0 <? rLen then rLen else length r.

(** [conc]: the four-argument helper. *)
Definition conc (lhs rhs : node) (lhsLength rhsLength : Z) : node :=
  if is_emptyNode lhs then rhs
  else if is_emptyNode rhs then lhs
  else
    let depth0 := depth lhs in
    let depth1 := let d := depth rhs in if depth0 <? d then d else depth0 in
    let lhsLength1 := if lhsLength <=? 0 then length lhs else lhsLength in
    let rhsLength1 := if rhsLength <=? 0 then length rhs else rhsLength in
    let rhsLength2 := if max_uint32 <? rhsLength1 then 0 else rhsLength1 in
    concat lhs rhs lhsLength1 (to_rLenT rhsLength2) (add8 depth1 1).

(** [WriteTo] into a [bytes.Buffer], whose [Write] appends and never fails:
    the number of bytes written and the buffer afterwards. *)
Fixpoint WriteTo (n : node) (w : string) : Z * string :=
  match n with
  | leaf l => (slen l, w ++ l)
  | concat l r _ _ _ =>
      let '(n1, w1) := WriteTo l w in
      let '(m, w2) := WriteTo r w1 in
      (add64 n1 m, w2)
  | wrapped inner => WriteTo inner w
  end.

(** [leaf.dropPrefix] (leaf.go). *)
Definition leaf_dropPrefix (l : string) (start : Z) : node :=
  if slen l <=? start then emptyNode
  else if start <=? 0 then leaf l
  else leaf (str_from start l).

(** [leaf.dropPostfix] (leaf.go). *)
Definition leaf_dropPostfix (l : string) (end_ : Z) : node :=
  if slen l <=? end_ then leaf l
  else if end_ <=? 0 then emptyNode
  else leaf (str_to end_ l).

(** [dropPrefix]: [leaf.dropPrefix], [concat.dropPrefix] and the promoted
    method. *)
Fixpoint dropPrefix (n : node) (start : Z) : node :=
  match n with
  | leaf l => leaf_dropPrefix l start
  | concat l r split rLen _ =>
      if start <=? 0 then n
      else if start <? split then
        conc (dropPrefix l start) r (sub64 split start) rLen
      else dropPrefix r (sub64 start split)
  | wrapped inner => dropPrefix inner start
  end.

(** [dropPostfix]: [leaf.dropPostfix], [concat.dropPostfix] and the
    promoted method. *)
Fixpoint dropPostfix (n : node) (end_ : Z) : node :=
  match n with
  | leaf l => leaf_dropPostfix l end_
  | concat l r split rLen _ =>
      if end_ <=? 0 then emptyNode
      else if end_ <=? split then dropPostfix l end_
      else if add64 split (rLength r rLen) <=? end_ then n
      else
        let end1 := sub64 end_ split in
        conc l (dropPostfix r end1) split end1
  | wrapped inner => dropPostfix inner end_
  end.

(** [walkLeaves]: calls [f] on each leaf in order.  The callback of
    [Rebalance] updates a scratch array and may panic, so [f] is a state
    transformer with a [result]. *)
Section walk.
Context {S : Type}.

(** Modelled from the spec: [leaf.walkLeaves] is not among the sources; the
    interface comment and the rebalancer's step 3 say that the callback is
    called on each leaf, in order. *)
Definition leaf_walkLeaves (l : string) (f : string -> S -> result S) (s : S)
  : result S := f l s.

Fixpoint walkLeaves (n : node) (f : string -> S -> result S) (s : S)
  : result S :=
  match n with
  | leaf l => leaf_walkLeaves l f s
  | concat l r _ _ _ =>
      s1 <- walkLeaves l f s ;;
      walkLeaves r f s1
  | wrapped inner => walkLeaves inner f s
  end.
End walk.

(** Modelled from the spec: [leaf.slice] is not among the sources; by the
    spec, slice(start, end) is dropPostfix(end) composed with
    dropPrefix(start). *)
Definition leaf_slice (l : string) (start end_ : Z) : node :=
  dropPrefix (leaf_dropPostfix l end_) start.

(** [slice]: [concat.slice], with [leaf.slice] and the promoted method. *)
Fixpoint slice (n : node) (start end_ : Z) : node :=
  match n with
  | leaf l => leaf_slice l start end_
  | concat l r split rLen _ =>
      if end_ <=? split then slice l start end_
      else if split <=? start then
        slice r (sub64 start split) (sub64 end_ split)
      else
        let clength := add64 split (length r) in
        if (start <=? 0) && (clength <=? end_) then n
        else
          let '(left1, leftLen) :=
            if (0 <? start) || (end_ <? split)
            then (slice l start end_, -1)
            else (l, split) in
          let '(right1, rightLen) :=
            if (split <? start) || (end_ <? clength)
            then (slice r (sub64 start split) (sub64 end_ split), -1)
            else (r, rLen) in
          conc left1 right1 leftLen rightLen
  | wrapped inner => slice inner start end_
  end.

(** ** The nil-aware [concMany] of the node declarations *)

Module NodeGo.

(** The recursion of [concMany] is on slices of [others]; [fuel] bounds
    its depth and [length others] is enough. *)
Fixpoint concMany_rec (fuel : nat) (first : option node)
  (others : list (option node)) : node :=
  let first1 := match first with None => emptyNode | Some n => n end in
  match others, fuel with
  | [], _ => first1
  | _ :: _, O => first1
  | _ :: _, S fuel' =>
      let split := (List.length others / 2)%nat in
      let lhs := concMany_rec fuel' first (firstn split others) in
      match skipn split others with
      | [] => lhs
      | m :: rest => conc lhs (concMany_rec fuel' m rest) 0 0
      end
  end.

(** [concMany(first, others...)]: nil is read as the empty string. *)
Definition concMany (first : option node) (others : list (option node))
  : node :=
  concMany_rec (List.length others) first others.

End NodeGo.

(** ** The Rope handle (reader.go, third file) *)

(** [Rope]: the embedded [node] may be nil. *)
Record Rope : Type := mkRope { Rope_node : option node }.

(** [emptyRope]: a Rope containing the empty node. *)
Definition emptyRope : Rope := mkRope (Some emptyNode).

(** [New]. *)
Definition New (arg : string) : Rope :=
  if slen arg =? 0 then emptyRope else mkRope (Some (leaf arg)).

(** [Rope.WriteTo], into a buffer. *)
Definition Rope_WriteTo (r : Rope) (w : string) : Z * string :=
  match Rope_node r with
  | None => (0, w)
  | Some n => WriteTo n w
  end.

(** [Rope.Len]. *)
Definition Rope_Len (r : Rope) : Z :=
  match Rope_node r with
  | None => 0
  | Some n => length n
  end.

(** [Rope.Bytes]: [None] is the nil slice. *)
Definition Rope_Bytes (r : Rope) : option string :=
  match Rope_node r with
  | None => None
  | Some _ => Some (snd (Rope_WriteTo r ""))
  end.

(** [Rope.String]: the materialized content. *)
Definition Rope_String (r : Rope) : string :=
  match Rope_node r with
  | None => ""
  | Some (leaf l) => l
  | Some _ => match Rope_Bytes r with Some b => b | None => "" end
  end.

(** The recursion of [concMany] (reader.go), on fuel as above. *)
Fixpoint concMany_rec (fuel : nat) (first : node) (others : list node)
  : node :=
  match others, fuel with
  | [], _ => first
  | _ :: _, O => first
  | _ :: _, S fuel' =>
      let split := (List.length others / 2)%nat in
      let lhs := concMany_rec fuel' first (firstn split others) in
      match skipn split others with
      | [] => lhs
      | m :: rest => conc lhs (concMany_rec fuel' m rest) 0 0
      end
  end.

(** [concMany(first, others...)] (reader.go): no nil check; [Rope.Concat]
    calls it on non-nil nodes only. *)
Definition concMany (first : node) (others : list node) : node :=
  concMany_rec (List.length others) first others.

(** The first loop of [Rope.Concat]: a nil receiver is replaced by the next
    argument. *)
Fixpoint Concat_receiver (r : Rope) (rhs : list Rope) : Rope * list Rope :=
  match Rope_node r, rhs with
  | None, r1 :: rhs1 => Concat_receiver r1 rhs1
  | _, _ => (r, rhs)
  end.

(** The second loop of [Rope.Concat]: the non-nil nodes of the arguments. *)
Fixpoint Concat_list (rhs : list Rope) : list node :=
  match rhs with
  | [] => []
  | item :: rhs1 =>
      match Rope_node item with
      | Some n => n :: Concat_list rhs1
      | None => Concat_list rhs1
      end
  end.

(** [Rope.Concat(rhs...)]: the receiver itself, a [Rope], is the first
    argument of [concMany].  After the first loop a receiver with a nil node
    is left only when [rhs] is empty. *)
Definition Rope_Concat (r : Rope) (rhs : list Rope) : Rope :=
  let '(r1, rhs1) := Concat_receiver r rhs in
  match rhs1 with
  | [] => r1
  | _ :: _ =>
      match Rope_node r1 with
      | Some n => mkRope (Some (concMany (wrapped n) (Concat_list rhs1)))
      | None => r1
      end
  end.

(** [Rope.DropPrefix]. *)
Definition Rope_DropPrefix (r : Rope) (start : Z) : Rope :=
  match Rope_node r with
  | None => r
  | Some n => if start =? 0 then r else mkRope (Some (dropPrefix n start))
  end.

(** [Rope.DropPostfix]: the body calls [r.node.dropPrefix(end)]. *)
Definition Rope_DropPostfix (r : Rope) (end_ : Z) : Rope :=
  match Rope_node r with
  | None => r
  | Some n => mkRope (Some (dropPrefix n end_))
  end.

(** [Rope.Slice]. *)
Definition Rope_Slice (r : Rope) (start end_ : Z) : Rope :=
  let start1 := if start <? 0 then 0 else start in
  if end_ <=? start1 then emptyRope
  else Rope_DropPrefix (Rope_DropPostfix r end_) start1.

(** ** The streaming reader (reader.go, first file) *)

(** [Reader]: the stack holds pointers to [concat] nodes, kept here as the
    nodes they point to. *)
Record Reader : Type := mkReader {
  stack : list node;
  cur : string;
  pos : Z
}.

(** [pushSubtree]: the loop descends along [Left]; the assertion to a
    [concat] pointer panics on any other dynamic type. *)
Fixpoint pushSubtree (r : Reader) (n : node) : result Reader :=
  match n with
  | leaf l => Ok (mkReader (stack r) l 0)
  | concat l _ _ _ _ =>
      pushSubtree (mkReader (stack r ++ [n]) (cur r) (pos r)) l
  | wrapped _ => Panic TypeAssertion
  end.

(** [NewReader]. *)
Definition NewReader (rope : Rope) : result Reader :=
  let reader := mkReader [] "" 0 in
  match Rope_node rope with
  | Some n => pushSubtree reader n
  | None => Ok reader
  end.

(** [nextNode]: [r.stack[:len(r.stack)-1]] panics on an empty stack; the
    node pushed afterwards is the new top of the stack itself. *)
Definition nextNode (r : Reader) : result Reader :=
  if len (stack r) - 1 <? 0 then Panic SliceBoundsOutOfRange
  else
    let r1 := mkReader (removelast (stack r)) (cur r) (pos r) in
    if negb (len (stack r1) =? 0) then
      top <- at_index (stack r1) (len (stack r1) - 1) ;;
      pushSubtree r1 top
    else Ok r1.

(** The loop of [Read]: [Some r] when it is left with data to copy, [None]
    when it returns [0, io.EOF]. *)
Fixpoint Read_loop (fuel : nat) (r : Reader) : result (Reader * bool) :=
  if pos r =? slen (cur r) then
    match fuel with
    | O => OutOfFuel
    | S fuel' =>
        r1 <- nextNode r ;;
        if len (stack r1) =? 0 then Ok (r1, true)
        else Read_loop fuel' r1
    end
  else Ok (r, false).

(** [Read(p)] with [len(p) = k]: the bytes copied into [p], whether the
    error is [io.EOF], and the reader afterwards. *)
Definition Read (fuel : nat) (r : Reader) (k : Z)
  : result (string * bool * Reader) :=
  '(r1, eof) <- Read_loop fuel r ;;
  if eof then Ok ("", true, r1)
  else
    let avail := slen (cur r1) - pos r1 in
    let n := if k <? avail then k else avail in
    Ok (substring (Z.to_nat (pos r1)) (Z.to_nat n) (cur r1),
        false,
        mkReader (stack r1) (cur r1) (pos r1 + n)).

(** Reading to exhaustion with a [k]-byte buffer, as the loop of
    [TestShortRead] does: [Read] is called until it reports an error, and
    the bytes of every call are appended to the result. *)
Fixpoint readAll (calls fuel : nat) (r : Reader) (k : Z) (acc : string)
  : result string :=
  match calls with
  | O => OutOfFuel
  | S calls' =>
      '(data, eof, r1) <- Read fuel r k ;;
      if eof then Ok (acc ++ data)
      else readAll calls' fuel r1 k (acc ++ data)
  end.

(** ** Balance (rebalance.go) *)

(** [Rope.isBalanced]. *)
Definition Rope_isBalanced (fuel : nat) (cache : list Z) (r : Rope)
  : result bool :=
  match Rope_node r with
  | None => Ok true
  | Some n =>
      if is_emptyNode n then Ok true
      else
        let len := Rope_Len r in
        rf <- reverseFib fuel cache len ;;
        let maxDepth := sub64 rf 2 in
        Ok (depth n <=? maxDepth)
  end.

(** The local type [B] of [Rebalance]: a node, or nil, and its length. *)
Record B : Type := mkB { B_n : option node; B_len : Z }.

(** [scratch[i] = b] and [scratch[i].n = nil]: a panic outside the slice. *)
Definition set_index {A : Type} (arr : list A) (i : Z) (f : A -> A)
  : result (list A) :=
  x <- at_index arr i ;;
  Ok (firstn (Z.to_nat i) arr ++ f x :: skipn (S (Z.to_nat i)) arr)%list.

(** The inner loop of the callback, [for i := bucket; i >= 0; i--]: every
    iteration reads [scratch[bucket]]; [iters] counts the iterations left. *)
Fixpoint merge_loop (iters : nat) (bucket : Z) (n : node) (nLen : Z)
  (scratch : list B) : result (node * Z * list B) :=
  match iters with
  | O => Ok (n, nLen, scratch)
  | S iters' =>
      b <- at_index scratch bucket ;;
      match B_n b with
      | Some bn =>
          let n1 := conc n bn nLen (B_len b) in
          let nLen1 := add64 nLen (B_len b) in
          scratch1 <- set_index scratch bucket (fun b0 => mkB None (B_len b0)) ;;
          merge_loop iters' bucket n1 nLen1 scratch1
      | None => merge_loop iters' bucket n nLen scratch
      end
  end.

(** The callback [Rebalance] passes to [walkLeaves]. *)
Definition rebalance_leaf (Debug : bool) (fibs : list Z) (l : string)
  (scratch : list B) : result (list B) :=
  let nLen := length (leaf l) in
  bucket <- binSearch nLen fibs ;;
  '(n, nLen1, scratch1) <-
    merge_loop (Z.to_nat (bucket + 1)) bucket (leaf l) nLen scratch ;;
  _ <- (if Debug then
          b <- binSearch nLen1 fibs ;;
          if negb (b =? bucket) then Panic (BucketGrew bucket b) else Ok tt
        else Ok tt) ;;
  set_index scratch1 bucket (fun _ => mkB (Some n) nLen1).

(** The final loop of [Rebalance], over the scratch array. *)
Definition fold_scratch (scratch : list B) : B :=
  fold_left
    (fun nw b =>
       match B_n b with
       | Some bn =>
           match B_n nw with
           | None => b
           | Some nwn =>
               mkB (Some (conc bn nwn (B_len b) (B_len nw)))
                   (add64 (B_len nw) (B_len b))
           end
       | None => nw
       end)
    scratch (mkB None 0).

(** Equality of two interface values.  Pointer identity is not part of the
    model: structural equality stands for it, and the two branches of the
    test in [Rebalance] then return handles with equal roots. *)
Fixpoint node_eqb (a b : node) : bool :=
  match a, b with
  | leaf l1, leaf l2 => String.eqb l1 l2
  | concat l1 r1 s1 rl1 d1, concat l2 r2 s2 rl2 d2 =>
      node_eqb l1 l2 && node_eqb r1 r2 && (s1 =? s2) && (rl1 =? rl2)
      && (d1 =? d2)
  | wrapped a1, wrapped b1 => node_eqb a1 b1
  | _, _ => false
  end.

(** The part of [Rebalance] after the Fibonacci numbers are obtained. *)
Definition rebalance_with (Debug : bool) (fibs : list Z) (r : Rope)
  : result Rope :=
  let len := Rope_Len r in
  bs <- binSearch len fibs ;;
  let scratch := repeat (mkB None 0) (Z.to_nat (1 + bs)) in
  match Rope_node r with
  | None => Panic NilDereference
  | Some root =>
      scratch1 <- walkLeaves root (rebalance_leaf Debug fibs) scratch ;;
      let nw := fold_scratch scratch1 in
      match B_n nw with
      | Some n => if node_eqb n root then Ok r else Ok (mkRope (Some n))
      | None => Ok (mkRope None)
      end
  end.

(** [Rope.Rebalance]; [Debug] is the package-level variable, initially
    true. *)
Definition Rope_Rebalance (Debug : bool) (fuel : nat) (cache : list Z)
  (r : Rope) : result Rope :=
  let len := Rope_Len r in
  fibs <- getFibCache fuel cache len ;;
  rebalance_with Debug fibs r.

(** ** The earlier snapshot (concat.go, leaf.go) *)

Module Early.

(** [node]: a [leaf] or a [concat] value, with an [int] depth and the
    length of the left subtree. *)
Inductive node : Type :=
| leaf (l : string)
| concat (left_ right_ : node) (treedepth : Z) (leftLen : Z).

Definition emptyNode : node := leaf "".

Definition is_emptyNode (n : node) : bool :=
  match n with
  | leaf l => String.eqb l ""
  | _ => false
  end.

(** [leaf.depth] and [concat.depth]. *)
Definition depth (n : node) : Z :=
  match n with
  | leaf _ => 0
  | concat _ _ d _ => d
  end.

(** [leaf.length] and [concat.length]. *)
Fixpoint length (n : node) : Z :=
  match n with
  | leaf l => slen l
  | concat _ r _ leftLen => add64 leftLen (length r)
  end.

(** [conc]: the two-argument helper of concat.go. *)
Definition conc (lhs rhs : node) : node :=
  if is_emptyNode lhs then rhs
  else if is_emptyNode rhs then lhs
  else
    let depth0 := depth lhs in
    let depth1 := let d := depth rhs in if depth0 <? d then d else depth0 in
    concat lhs rhs (add64 depth1 1) (length lhs).

(** [WriteTo] into a buffer. *)
Fixpoint WriteTo (n : node) (w : string) : Z * string :=
  match n with
  | leaf l => (slen l, w ++ l)
  | concat l r _ _ =>
      let '(m1, w1) := WriteTo l w in
      let '(m2, w2) := WriteTo r w1 in
      (add64 m1 m2, w2)
  end.

(** [leaf.dropPrefix] and [concat.dropPrefix]. *)
Fixpoint dropPrefix (n : node) (start : Z) : node :=
  match n with
  | leaf l =>
      if slen l <=? start then emptyNode
      else if start <=? 0 then n
      else leaf (str_from start l)
  | concat l r _ leftLen =>
      if start <=? 0 then n
      else if start <? leftLen then conc (dropPrefix l start) r
      else dropPrefix r (sub64 start leftLen)
  end.

(** [leaf.dropPostfix] and [concat.dropPostfix]. *)
Fixpoint dropPostfix (n : node) (end_ : Z) : node :=
  match n with
  | leaf l =>
      if slen l <=? end_ then n
      else if end_ <=? 0 then emptyNode
      else leaf (str_to end_ l)
  | concat l r _ leftLen =>
      if end_ <=? 0 then emptyNode
      else if end_ <=? leftLen then dropPostfix l end_
      else conc l (dropPostfix r (sub64 end_ leftLen))
  end.

End Early.

(** ** The first snapshot: one struct for every node (part_004, first file;
    part_003, second file) *)

Module Struct.

(** [*Rope]: nil, or a pointer to a struct with the text of the node, the
    left and right subtrees, the length of the left subtree and the
    depth. *)
Inductive Rope : Type :=
| nil
| ptr (direct : string) (left_ right_ : Rope) (leftLen : Z) (depth : Z).

(** [New]. *)
Definition New (arg : string) : Rope := ptr arg nil nil 0 0.

(** [Rope.WriteTo], into a buffer: the left subtree, the text of the node,
    the right subtree.  The receiver is dereferenced at once. *)
Fixpoint WriteTo (r : Rope) (w : string) : result (Z * string) :=
  match r with
  | nil => Panic NilDereference
  | ptr direct l rt _ _ =>
      '(n1, w1) <- match l with
                   | nil => Ok (0, w)
                   | ptr _ _ _ _ _ => '(m, w0) <- WriteTo l w ;; Ok (add64 0 m, w0)
                   end ;;
      let n2 := add64 n1 (slen direct) in
      let w2 := w1 ++ direct in
      match rt with
      | nil => Ok (n2, w2)
      | ptr _ _ _ _ _ => '(m, w3) <- WriteTo rt w2 ;; Ok (add64 n2 m, w3)
      end
  end.

(** [Rope.Len]: the test [r != nil] comes after [r.leftLen] is read, and
    [Len] is called on the right subtree whatever it is. *)
Fixpoint Len (r : Rope) : result Z :=
  match r with
  | nil => Panic NilDereference
  | ptr direct _ rt leftLen _ =>
      let length := add64 leftLen (slen direct) in
      rl <- Len rt ;;
      Ok (add64 length rl)
  end.

(** [Rope.Bytes]: the buffer is made with capacity [r.Len()]. *)
Definition Bytes (r : Rope) : result string :=
  _ <- Len r ;;
  '(_, w) <- WriteTo r "" ;;
  Ok w.

(** [Rope.String]. *)
Definition String (r : Rope) : result string :=
  match r with
  | nil => Panic NilDereference
  | ptr direct nil nil _ _ => Ok direct
  | ptr _ _ _ _ _ => Bytes r
  end.

(** [reader]: the stack of nodes, the last one being the current node, and
    the position in the current node. *)
Record reader : Type := mkreader {
  stack : list Rope;
  pos : Z
}.

(** [pushSubtree]: the node and its left spine, down to nil. *)
Fixpoint pushSubtree (r : reader) (node : Rope) : reader :=
  match node with
  | nil => r
  | ptr _ l _ _ _ => pushSubtree (mkreader (stack r ++ [node]) (pos r)) l
  end.

(** [NewReader]: [rope.depth + 1] is the capacity of the stack; [make]
    panics on a negative capacity, a run-time panic counted here with the
    slices out of range. *)
Definition NewReader (rope : Rope) : result reader :=
  match rope with
  | nil => Panic NilDereference
  | ptr _ _ _ _ depth =>
      if add64 depth 1 <? 0 then Panic SliceBoundsOutOfRange
      else Ok (pushSubtree (mkreader [] 0) rope)
  end.

(** [cur]. *)
Definition cur (r : reader) : result Rope :=
  at_index (stack r) (len (stack r) - 1).

(** [Read(p)] with [len(p) = k]: the bytes copied, whether the error is
    [io.EOF], and the reader afterwards.  One unit of fuel per node
    dropped from the stack. *)
Fixpoint Read (fuel : nat) (r : reader) (k : Z)
  : result (string * bool * reader) :=
  if len (stack r) =? 0 then Ok ("", true, r)
  else
    c <- cur r ;;
    match c with
    | nil => Panic NilDereference
    | ptr direct _ rt _ _ =>
        if pos r =? slen direct then
          match fuel with
          | O => OutOfFuel
          | S fuel' =>
              let r1 := mkreader (removelast (stack r)) (pos r) in
              let r2 := pushSubtree r1 rt in
              Read fuel' (mkreader (stack r2) 0) k
          end
        else
          let avail := slen direct - pos r in
          let n := if k <? avail then k else avail in
          Ok (substring (Z.to_nat (pos r)) (Z.to_nat n) direct,
              false,
              mkreader (stack r) (pos r + n))
    end.

(** Reading to exhaustion with a [k]-byte buffer: [Read] is called until it
    reports an error, and the bytes of every call are appended. *)
Fixpoint readAll (calls fuel : nat) (r : reader) (k : Z) (acc : string)
  : result string :=
  match calls with
  | O => OutOfFuel
  | S calls' =>
      '(data, eof, r1) <- Read fuel r k ;;
      if eof then Ok (acc ++ data)
      else readAll calls' fuel r1 k (acc ++ data)
  end.

End Struct.

(** ** The search of the regexp helper (part_000 and part_001) *)

Module Util.

(** The loop of [findFirst]: one unit of fuel per iteration. *)
Fixpoint findFirst_loop (fuel : nat) (vs : list string)
  (predicate : string -> bool) (l h : Z) : result Z :=
  if add64 l 1 <? h then
    match fuel with
    | O => OutOfFuel
    | S fuel' =>
        let m := Z.quot (add64 l h) 2 in
        v <- at_index vs m ;;
        if predicate v then findFirst_loop fuel' vs predicate l m
        else findFirst_loop fuel' vs predicate m h
    end
  else Ok h.

(** [findFirst]: the interval shrinks at every iteration, so [len(vs) + 1]
    iterations are always enough. *)
Definition findFirst (vs : list string) (predicate : string -> bool)
  : result Z :=
  findFirst_loop (S (List.length vs)) vs predicate (-1) (len vs).

(** [strings.HasPrefix(s, prefix)]. *)
Definition HasPrefix (s prefix : string) : bool := String.prefix prefix s.

(** [prefixStart]. *)
Definition prefixStart (vs : list string) (prefix : string) : result Z :=
  if String.eqb prefix "" then Ok 0
  else findFirst vs (fun s => HasPrefix s prefix).

(** [prefixEnd]. *)
Definition prefixEnd (vs : list string) (prefix : string) : result Z :=
  if String.eqb prefix "" then Ok (len vs)
  else findFirst vs (fun s => negb (HasPrefix s prefix)).

End Util.

(** * Properties *)

(** ** Slices and indices *)

Lemma at_index_Ok {A : Type} (arr : list A) (i : Z) (x : A) :
  at_index arr i = Ok x <-> 0 <= i /\ nth_error arr (Z.to_nat i) = Some x.
Proof.
  unfold at_index. destruct (Z.ltb_spec i 0).
  - split; [discriminate | lia].
  - destruct (nth_error arr (Z.to_nat i)) eqn:E; split; intros H1.
    + inversion H1; subst. auto.
    + destruct H1 as [_ H1]. congruence.
    + discriminate.
    + destruct H1 as [_ H1]. discriminate.
Qed.

Lemma at_index_in_range {A : Type} (arr : list A) (i : Z) :
  0 <= i < len arr -> exists x, at_index arr i = Ok x.
Proof.
  unfold len. intros H.
  destruct (nth_error arr (Z.to_nat i)) eqn:E.
  - exists a. apply at_index_Ok. split; [lia | exact E].
  - apply nth_error_None in E. lia.
Qed.

Lemma at_index_out_of_range {A : Type} (arr : list A) (i : Z) :
  len arr <= i -> at_index arr i = Panic IndexOutOfRange.
Proof.
  unfold at_index, len. intros H.
  destruct (Z.ltb_spec i 0); [reflexivity |].
  destruct (nth_error arr (Z.to_nat i)) eqn:E; [| reflexivity].
  assert (nth_error arr (Z.to_nat i) <> None) as H1 by congruence.
  apply nth_error_Some in H1. lia.
Qed.

Lemma at_index_bound {A : Type} (arr : list A) (i : Z) (x : A) :
  at_index arr i = Ok x -> 0 <= i < len arr.
Proof.
  intros H. apply at_index_Ok in H. destruct H as [H0 H].
  assert (nth_error arr (Z.to_nat i) <> None) as H1 by congruence.
  apply nth_error_Some in H1. unfold len. lia.
Qed.

(** ** The binary search *)

(** Strictly increasing, as a test on neighbours. *)
Fixpoint strictly_increasing (arr : list Z) : bool :=
  match arr with
  | x :: (y :: _) as rest => (x <? y) && strictly_increasing rest
  | _ => true
  end.

Lemma strictly_increasing_head x arr :
  strictly_increasing (x :: arr) = true ->
  forall y, In y arr -> x < y.
Proof.
  revert x. induction arr as [| a arr IH]; intros x H y Hy.
  - destruct Hy.
  - cbn [strictly_increasing] in H. apply andb_prop in H.
    destruct H as [Hxa Hrest]. apply Z.ltb_lt in Hxa.
    destruct Hy as [-> | Hy]; [exact Hxa |].
    specialize (IH a Hrest y Hy). lia.
Qed.

Lemma strictly_increasing_tail x arr :
  strictly_increasing (x :: arr) = true -> strictly_increasing arr = true.
Proof.
  destruct arr as [| a arr]; [reflexivity |].
  cbn [strictly_increasing]. intros H. apply andb_prop in H. tauto.
Qed.

Lemma strictly_increasing_nth arr :
  strictly_increasing arr = true ->
  forall (i j : nat) x y,
    nth_error arr i = Some x -> nth_error arr j = Some y ->
    (i < j)%nat -> x < y.
Proof.
  induction arr as [| a arr IH]; intros H i j x y Hi Hj Hlt.
  - destruct i; discriminate.
  - destruct j as [| j]; [lia |].
    destruct i as [| i]; cbn in Hi, Hj.
    + inversion Hi; subst.
      apply (strictly_increasing_head _ _ H). eapply nth_error_In; eauto.
    + apply (IH (strictly_increasing_tail _ _ H) i j); auto. lia.
Qed.

Lemma strictly_increasing_index arr :
  strictly_increasing arr = true ->
  forall i j x y,
    at_index arr i = Ok x -> at_index arr j = Ok y ->
    (i < j -> x < y) /\ (i <= j -> x <= y).
Proof.
  intros H i j x y Hi Hj.
  apply at_index_Ok in Hi. apply at_index_Ok in Hj.
  destruct Hi as [Hi0 Hi], Hj as [Hj0 Hj].
  split; intros Hij.
  - apply (strictly_increasing_nth arr H (Z.to_nat i) (Z.to_nat j)); auto.
    lia.
  - destruct (Z.eq_dec i j) as [-> | Hne].
    + rewrite Hi in Hj. inversion Hj. lia.
    + apply Z.lt_le_incl.
      apply (strictly_increasing_nth arr H (Z.to_nat i) (Z.to_nat j)); auto.
      lia.
Qed.

(** The midpoint lies strictly inside the interval, and no addition wraps
    for a slice that fits in memory. *)
Lemma midpoint_inside (start end_ bound : Z) :
  -1 <= start -> end_ <= bound -> bound < 2 ^ 62 ->
  1 < end_ - start ->
  sub64 end_ start = end_ - start /\
  start < Z.quot (add64 start end_) 2 < end_.
Proof.
  intros Hs He Hb Hgap.
  assert (in_int64 (end_ - start)) as H1
    by (unfold in_int64, min_int64, max_int64; lia).
  assert (in_int64 (start + end_)) as H2
    by (unfold in_int64, min_int64, max_int64; lia).
  rewrite (sub64_id _ _ H1), (add64_id _ _ H2).
  split; [reflexivity |].
  rewrite Z.quot_div_nonneg by lia.
  split.
  - apply Z.lt_le_trans with (m := (2 * (start + 1)) / 2).
    + rewrite Z.mul_comm, Z.div_mul by lia. lia.
    + apply Z.div_le_mono; lia.
  - apply Z.div_lt_upper_bound; lia.
Qed.

Lemma sub64_small_gap (start end_ bound : Z) :
  -1 <= start -> start < end_ -> end_ <= bound -> bound < 2 ^ 62 ->
  sub64 end_ start = end_ - start.
Proof.
  intros. apply sub64_id. unfold in_int64, min_int64, max_int64. lia.
Qed.

(** The loop of [binSearch] on any slice: it ends within the fuel, reads
    inside the slice only, and returns an index of the interval. *)
Lemma binSearch_loop_total (N : Z) (arr : list Z) :
  len arr < 2 ^ 62 ->
  forall (fuel : nat) (start end_ : Z),
    -1 <= start -> start < end_ -> end_ <= len arr ->
    end_ - start <= Z.of_nat fuel ->
    exists i, binSearch_loop fuel N arr start end_ = Ok i
              /\ start < i <= end_.
Proof.
  intros Hlen. induction fuel as [| fuel IH]; intros start end_ Hs Hlt He Hf.
  - lia.
  - cbn [binSearch_loop].
    rewrite (sub64_small_gap start end_ (len arr)) by assumption.
    destruct (Z.ltb_spec 1 (end_ - start)) as [Hgap | Hgap].
    + destruct (midpoint_inside start end_ (len arr) Hs He Hlen Hgap)
        as [_ Hmid].
      set (mid := Z.quot (add64 start end_) 2) in *.
      destruct (at_index_in_range arr mid ltac:(lia)) as [elt Helt].
      rewrite Helt. cbn [bind].
      destruct (elt <? N).
      * destruct (IH mid end_) as [i [Hi Hb]]; try lia.
        exists i. split; [exact Hi | lia].
      * destruct (N <? elt).
        -- destruct (IH start mid) as [i [Hi Hb]]; try lia.
           exists i. split; [exact Hi | lia].
        -- exists mid. split; [reflexivity | lia].
    + exists end_. split; [reflexivity | lia].
Qed.

(** [binSearch] returns on every slice, whatever its order. *)
Lemma binSearch_total (N : Z) (arr : list Z) :
  len arr < 2 ^ 62 ->
  exists i, binSearch N arr = Ok i /\ 0 <= i <= len arr.
Proof.
  intros Hlen. unfold binSearch.
  destruct (binSearch_loop_total N arr Hlen (S (List.length arr)) (-1) (len arr))
    as [i [Hi Hb]]; unfold len in *; try lia.
  exists i. split; [exact Hi | lia].
Qed.

(** The invariant of the loop on a strictly increasing slice: everything
    up to [start] is below [N], everything from [end] on is above. *)
Lemma binSearch_loop_sorted (N : Z) (arr : list Z) :
  strictly_increasing arr = true ->
  len arr < 2 ^ 62 ->
  forall (fuel : nat) (start end_ i : Z),
    -1 <= start -> start < end_ -> end_ <= len arr ->
    (forall j x, at_index arr j = Ok x -> j <= start -> x < N) ->
    (forall j x, at_index arr j = Ok x -> end_ <= j -> N <= x) ->
    binSearch_loop fuel N arr start end_ = Ok i ->
    (forall j x, at_index arr j = Ok x -> j < i -> x < N) /\
    (forall j x, at_index arr j = Ok x -> i <= j -> N <= x).
Proof.
  intros Hsorted Hlen.
  induction fuel as [| fuel IH]; intros start end_ i Hs Hlt He Hlo Hhi Hrun;
    cbn [binSearch_loop] in Hrun;
    rewrite (sub64_small_gap start end_ (len arr)) in Hrun by assumption;
    destruct (Z.ltb_spec 1 (end_ - start)) as [Hgap | Hgap].
  - discriminate.
  - inversion Hrun; subst i.
    split; [| exact Hhi].
    intros j x Hj Hji. apply (Hlo j x Hj). lia.
  - destruct (midpoint_inside start end_ (len arr) Hs He Hlen Hgap)
      as [_ Hmid].
    set (mid := Z.quot (add64 start end_) 2) in *.
    destruct (at_index_in_range arr mid ltac:(lia)) as [elt Helt].
    rewrite Helt in Hrun. cbn [bind] in Hrun.
    destruct (Z.ltb_spec elt N) as [Hc1 | Hc1].
    + apply (IH mid end_ i); auto; try lia.
      intros j x Hj Hjm.
      destruct (strictly_increasing_index arr Hsorted j mid x elt Hj Helt)
        as [_ Hle].
      specialize (Hle Hjm). lia.
    + destruct (Z.ltb_spec N elt) as [Hc2 | Hc2].
      * apply (IH start mid i); auto; try lia.
        intros j x Hj Hjm.
        destruct (strictly_increasing_index arr Hsorted mid j elt x Helt Hj)
          as [_ Hle].
        specialize (Hle Hjm). lia.
      * inversion Hrun; subst i.
        assert (elt = N) as -> by lia.
        split; intros j x Hj Hjm.
        -- destruct (strictly_increasing_index arr Hsorted j mid x N Hj Helt)
             as [Hlt' _].
           auto.
        -- destruct (strictly_increasing_index arr Hsorted mid j N x Helt Hj)
             as [_ Hle].
           auto.
  - inversion Hrun; subst i.
    split; [| exact Hhi].
    intros j x Hj Hji. apply (Hlo j x Hj). lia.
Qed.

(** ** The Fibonacci cache *)

(** The guard of [getFibCache] reads one element past the end of the cache,
    whatever the cache holds. *)
Lemma getFibCache_panics (fuel : nat) (cache : list Z) (N : Z) :
  getFibCache fuel cache N = Panic IndexOutOfRange.
Proof.
  unfold getFibCache. rewrite at_index_out_of_range by lia. reflexivity.
Qed.

Lemma reverseFib_panics (fuel : nat) (cache : list Z) (N : Z) :
  reverseFib fuel cache N = Panic IndexOutOfRange.
Proof. unfold reverseFib. rewrite getFibCache_panics. reflexivity. Qed.

(** ** Strings *)

Lemma append_nil_r (s : string) : s ++ "" = s.
Proof. induction s as [| c s IH]; cbn; [reflexivity | now rewrite IH]. Qed.

Lemma append_assoc (a b c : string) : (a ++ b) ++ c = a ++ (b ++ c).
Proof. induction a as [| x a IH]; cbn; [reflexivity | now rewrite IH]. Qed.

Lemma length_append (a b : string) :
  String.length (a ++ b) = (String.length a + String.length b)%nat.
Proof. induction a as [| x a IH]; cbn; [reflexivity | now rewrite IH]. Qed.

Lemma slen_nonneg (l : string) : 0 <= slen l.
Proof. unfold slen. lia. Qed.

Lemma slen_zero (l : string) : slen l = 0 -> l = "".
Proof. unfold slen. destruct l; cbn; [reflexivity | lia]. Qed.

Lemma eqb_empty (l : string) : String.eqb l "" = true <-> l = "".
Proof. apply String.eqb_eq. Qed.

Lemma is_emptyNode_true (n : node) : is_emptyNode n = true <-> n = emptyNode.
Proof.
  unfold emptyNode. destruct n as [l | |]; cbn; split; intros H;
    try discriminate.
  - apply eqb_empty in H. now subst.
  - inversion H. reflexivity.
Qed.

Lemma length_substring (n m : nat) (s : string) :
  (n + m <= String.length s)%nat -> String.length (substring n m s) = m.
Proof.
  revert n m. induction s as [| c s IH]; intros n m H; cbn in H.
  - assert (n = 0%nat) by lia. assert (m = 0%nat) by lia. subst. reflexivity.
  - destruct n as [| n]; cbn.
    + destruct m as [| m]; cbn; [reflexivity |].
      rewrite IH by lia. reflexivity.
    + apply IH. lia.
Qed.

Lemma slen_str_from (start : Z) (l : string) :
  0 <= start <= slen l -> slen (str_from start l) = slen l - start.
Proof.
  unfold slen, str_from. intros H. rewrite length_substring by lia. lia.
Qed.

Lemma slen_str_to (end_ : Z) (l : string) :
  0 <= end_ <= slen l -> slen (str_to end_ l) = end_.
Proof.
  unfold slen, str_to. intros H. rewrite length_substring by lia. lia.
Qed.

(** ** Content *)

(** The element sequence of a node: its leaves from left to right.  This is
    what [WriteTo] emits (lemma [WriteTo_content]). *)
Fixpoint content (n : node) : string :=
  match n with
  | leaf l => l
  | concat l r _ _ _ => content l ++ content r
  | wrapped inner => content inner
  end.

Lemma WriteTo_content (n : node) (w : string) :
  snd (WriteTo n w) = w ++ content n.
Proof.
  revert w. induction n as [l | l IHl r IHr split rLen d | inner IH];
    intros w; cbn [WriteTo content].
  - reflexivity.
  - specialize (IHl w). destruct (WriteTo l w) as [n1 w1]. cbn in IHl.
    specialize (IHr w1). destruct (WriteTo r w1) as [m w2]. cbn in IHr.
    cbn. subst. apply append_assoc.
  - apply IH.
Qed.

(** [Rope.String] returns the content of the root, and the empty string for
    the zero handle. *)
Lemma Rope_String_content (r : Rope) :
  Rope_String r =
  match Rope_node r with None => "" | Some n => content n end.
Proof.
  unfold Rope_String, Rope_Bytes, Rope_WriteTo.
  destruct (Rope_node r) as [[l | l r0 s rl d | inner] |]; try reflexivity;
    rewrite WriteTo_content; reflexivity.
Qed.

Lemma conc_content (lhs rhs : node) (hl hr : Z) :
  content (conc lhs rhs hl hr) = content lhs ++ content rhs.
Proof.
  unfold conc.
  destruct (is_emptyNode lhs) eqn:El.
  - apply is_emptyNode_true in El. subst. reflexivity.
  - destruct (is_emptyNode rhs) eqn:Er.
    + apply is_emptyNode_true in Er. subst. cbn.
      symmetry. apply append_nil_r.
    + reflexivity.
Qed.

(** The contents of a list of nodes, in order. *)
Fixpoint contents (ns : list node) : string :=
  match ns with
  | [] => ""
  | n :: rest => content n ++ contents rest
  end.

Lemma contents_app (a b : list node) :
  contents (a ++ b) = contents a ++ contents b.
Proof.
  induction a as [| n a IH]; cbn; [reflexivity |].
  rewrite IH. symmetry. apply append_assoc.
Qed.

Lemma split_lt_length {A : Type} (others : list A) :
  others <> [] -> (List.length others / 2 < List.length others)%nat.
Proof.
  intros H. destruct others as [| x others]; [congruence |].
  apply Nat.div_lt; cbn; lia.
Qed.

Lemma concMany_rec_content (fuel : nat) :
  forall first others,
    (List.length others <= fuel)%nat ->
    content (concMany_rec fuel first others) =
    content first ++ contents others.
Proof.
  induction fuel as [| fuel IH]; intros first others Hf.
  - destruct others; [| cbn in Hf; lia]. cbn. symmetry. apply append_nil_r.
  - destruct others as [| o others'] eqn:Eo.
    + cbn. symmetry. apply append_nil_r.
    + rewrite <- Eo in *. assert (others <> []) as Hne by (subst; discriminate).
      pose proof (split_lt_length others Hne) as Hsplit.
      replace (concMany_rec (S fuel) first others) with
        (let split := (List.length others / 2)%nat in
         let lhs := concMany_rec fuel first (firstn split others) in
         match skipn split others with
         | [] => lhs
         | m :: rest => conc lhs (concMany_rec fuel m rest) 0 0
         end) by (subst others; reflexivity).
      cbv zeta.
      set (split := (List.length others / 2)%nat) in *.
      pose proof (firstn_skipn split others) as Hfs.
      assert (List.length (skipn split others) =
              (List.length others - split)%nat) as Hsk
        by apply length_skipn.
      destruct (skipn split others) as [| m rest] eqn:Es.
      * cbn [List.length] in Hsk. lia.
      * rewrite conc_content.
        rewrite IH by (rewrite length_firstn; lia).
        rewrite IH by (cbn [List.length] in Hsk; lia).
        assert (contents others =
                contents (firstn split others) ++ content m ++ contents rest)
          as Hc by (rewrite <- Hfs at 1; apply contents_app).
        rewrite Hc. apply append_assoc.
Qed.

Lemma concMany_content (first : node) (others : list node) :
  content (concMany first others) = content first ++ contents others.
Proof. apply concMany_rec_content. lia. Qed.

(** ** The shape of [concMany] *)

Lemma concMany_rec_step (fuel : nat) (first : node) (others : list node) :
  others <> [] ->
  concMany_rec (S fuel) first others =
  let split := (List.length others / 2)%nat in
  let lhs := concMany_rec fuel first (firstn split others) in
  match skipn split others with
  | [] => lhs
  | m :: rest => conc lhs (concMany_rec fuel m rest) 0 0
  end.
Proof. destruct others; [congruence | reflexivity]. Qed.

(** Fuel beyond the number of operands does not change the result. *)
Lemma concMany_rec_fuel (fuel1 : nat) :
  forall fuel2 first others,
    (List.length others <= fuel1)%nat -> (List.length others <= fuel2)%nat ->
    concMany_rec fuel1 first others = concMany_rec fuel2 first others.
Proof.
  induction fuel1 as [| fuel1 IH]; intros fuel2 first others H1 H2.
  - destruct others; [| cbn in H1; lia]. destruct fuel2; reflexivity.
  - destruct others as [| o others'] eqn:Eo.
    + destruct fuel2; reflexivity.
    + rewrite <- Eo in *.
      assert (others <> []) as Hne by (subst; discriminate).
      destruct fuel2 as [| fuel2]; [subst; cbn in H2; lia |].
      rewrite !concMany_rec_step by assumption. cbv zeta.
      pose proof (split_lt_length others Hne) as Hsplit.
      set (split := (List.length others / 2)%nat) in *.
      pose proof (length_skipn split others) as Hsk.
      rewrite (IH fuel2 first (firstn split others))
        by (rewrite length_firstn; lia).
      destruct (skipn split others) as [| m rest]; [reflexivity |].
      cbn [List.length] in Hsk.
      rewrite (IH fuel2 m rest) by lia. reflexivity.
Qed.

(** The recursion of the source: split [others] at its midpoint, combine
    [first] with the lower half and [others[split]] with the rest, and join
    the two results with [conc]. *)
Lemma concMany_unfold (first : node) (others : list node) :
  others <> [] ->
  concMany first others =
  let split := (List.length others / 2)%nat in
  conc (concMany first (firstn split others))
       (concMany (nth split others first) (skipn (S split) others))
       0 0.
Proof.
  intros Hne. unfold concMany.
  destruct (List.length others) as [| k] eqn:Ek.
  - destruct others; [congruence | discriminate].
  - rewrite concMany_rec_step by assumption. cbv zeta. rewrite Ek.
    pose proof (split_lt_length others Hne) as Hsplit. rewrite Ek in Hsplit.
    set (split := (S k / 2)%nat) in *.
    pose proof (length_skipn split others) as Hsk.
    pose proof (firstn_skipn split others) as Hfs.
    destruct (skipn split others) as [| m rest] eqn:Es.
    + cbn [List.length] in Hsk. lia.
    + cbn [List.length] in Hsk.
      assert (List.length (firstn split others) = split) as Hfl
        by (rewrite length_firstn; lia).
      assert (nth split others first = m) as Hm.
      { rewrite <- Hfs. rewrite app_nth2 by lia.
        rewrite Hfl, Nat.sub_diag. reflexivity. }
      assert (skipn (S split) others = rest) as Hr.
      { replace (S split) with (1 + split)%nat by lia.
        rewrite <- skipn_skipn, Es. reflexivity. }
      rewrite Hm, Hr.
      f_equal; apply concMany_rec_fuel; lia.
Qed.

(** ** Concatenation of handles *)

(** The contents of a list of handles, in order. *)
Fixpoint Rope_Strings (rs : list Rope) : string :=
  match rs with
  | [] => ""
  | r :: rest => Rope_String r ++ Rope_Strings rest
  end.

Lemma Concat_list_contents (rhs : list Rope) :
  contents (Concat_list rhs) = Rope_Strings rhs.
Proof.
  induction rhs as [| item rhs IH]; cbn [Concat_list Rope_Strings].
  - reflexivity.
  - rewrite Rope_String_content.
    destruct (Rope_node item) as [n |]; cbn; now rewrite IH.
Qed.

Lemma Concat_receiver_spec (r : Rope) (rhs : list Rope) :
  Rope_String (fst (Concat_receiver r rhs))
    ++ Rope_Strings (snd (Concat_receiver r rhs))
  = Rope_String r ++ Rope_Strings rhs
  /\ (Rope_node (fst (Concat_receiver r rhs)) = None ->
      snd (Concat_receiver r rhs) = []).
Proof.
  revert r. induction rhs as [| r1 rhs IH]; intros r.
  - destruct r as [[n |]]; cbn; auto.
  - destruct r as [[n |]].
    + cbn. split; [reflexivity | discriminate].
    + cbn [Concat_receiver Rope_node]. destruct (IH r1) as [H1 H2].
      split; [| exact H2]. rewrite H1. reflexivity.
Qed.

(** [Concat] of a handle with any number of handles holds the contents of
    all of them, in order. *)
Lemma Rope_Concat_String (r : Rope) (rhs : list Rope) :
  Rope_String (Rope_Concat r rhs) = Rope_String r ++ Rope_Strings rhs.
Proof.
  unfold Rope_Concat.
  destruct (Concat_receiver_spec r rhs) as [H1 H2].
  destruct (Concat_receiver r rhs) as [r1 rhs1]. cbn [fst snd] in *.
  rewrite <- H1.
  destruct rhs1 as [| item rhs1].
  - cbn. symmetry. apply append_nil_r.
  - destruct (Rope_node r1) as [n |] eqn:En.
    + rewrite (Rope_String_content (mkRope _)). cbn [Rope_node].
      rewrite concMany_content, Concat_list_contents.
      rewrite (Rope_String_content r1), En. reflexivity.
    + specialize (H2 eq_refl). discriminate.
Qed.

(** ** The two-argument [conc] of the earlier snapshot *)

Lemma Early_is_emptyNode_true (n : Early.node) :
  Early.is_emptyNode n = true <-> n = Early.emptyNode.
Proof.
  unfold Early.emptyNode. destruct n as [l |]; cbn; split; intros H;
    try discriminate.
  - apply eqb_empty in H. now subst.
  - inversion H. reflexivity.
Qed.


(** ** The node that [conc] builds *)

(** The cached right length: the hint when positive, else [length rhs], and
    0 when that does not fit the 32 bits of [rLenT]. *)
Definition conc_RLen (rhs : node) (rhsLength : Z) : Z :=
  let rhsLength1 := if 0 <? rhsLength then rhsLength else length rhs in
  to_rLenT (if rhsLength1 <=? max_uint32 then rhsLength1 else 0).

(** The four-argument [conc] on two operands other than the empty node, for
    every pair of hints: [Split] is the left hint when positive and
    [length lhs] otherwise, and the depth is one more than the larger depth,
    in a byte. *)
Lemma conc_builds (lhs rhs : node) (hl hr : Z) :
  lhs <> emptyNode -> rhs <> emptyNode ->
  conc lhs rhs hl hr =
  concat lhs rhs (if 0 <? hl then hl else length lhs) (conc_RLen rhs hr)
         ((1 + Z.max (depth lhs) (depth rhs)) mod 256).
Proof.
  intros Hl Hr. unfold conc, conc_RLen, add8.
  destruct (is_emptyNode lhs) eqn:El;
    [apply is_emptyNode_true in El; contradiction |].
  destruct (is_emptyNode rhs) eqn:Er;
    [apply is_emptyNode_true in Er; contradiction |].
  cbv zeta.
  replace (if depth lhs <? depth rhs then depth rhs else depth lhs)
    with (Z.max (depth lhs) (depth rhs))
    by (destruct (Z.ltb_spec (depth lhs) (depth rhs)); lia).
  replace (Z.max (depth lhs) (depth rhs) + 1)
    with (1 + Z.max (depth lhs) (depth rhs)) by lia.
  change (2 ^ 8) with 256.
  destruct (Z.leb_spec hl 0), (Z.ltb_spec 0 hl); try lia;
    destruct (Z.leb_spec hr 0), (Z.ltb_spec 0 hr); try lia;
    match goal with
    | |- context [max_uint32 <? ?x] =>
        destruct (Z.ltb_spec max_uint32 x), (Z.leb_spec x max_uint32);
        try lia; reflexivity
    end.
Qed.




(** The claim's shape of a joined node, read on the [conc] that [Concat]
    reaches, fails where the byte-wide depth is full and where a caller
    passes a left hint of its own: after 255 successive calls of [Concat]
    the root has depth 255 and the next call stores depth 0, not 256; and
    a positive left hint is stored as [Split] whatever [length lhs] is. *)
Lemma conc_depth_is_a_byte_and_Split_a_hint :
  (let r := fold_left (fun r x => Rope_Concat r [New x])
                      (repeat "b" 255) (New "a") in
   match Rope_node r with
   | Some n =>
       wrapped n <> emptyNode /\ leaf "c" <> emptyNode
       /\ Rope_node (Rope_Concat r [New "c"])
          = Some (conc (wrapped n) (leaf "c") 0 0)
       /\ depth (wrapped n) = 255 /\ depth (leaf "c") = 0
       /\ depth (conc (wrapped n) (leaf "c") 0 0) = 0
       /\ depth (conc (wrapped n) (leaf "c") 0 0)
          <> 1 + Z.max (depth (wrapped n)) (depth (leaf "c"))
   | None => False
   end)
  /\ (leaf "ab" <> emptyNode /\ leaf "c" <> emptyNode
      /\ length (leaf "ab") = 2
      /\ conc (leaf "ab") (leaf "c") 5 0
         = concat (leaf "ab") (leaf "c") 5 1 1)
  /\ ~ (forall lhs rhs hl hr,
           lhs <> emptyNode -> rhs <> emptyNode ->
           depth (conc lhs rhs hl hr)
           = 1 + Z.max (depth lhs) (depth rhs))
  /\ ~ (forall lhs rhs hl hr,
           lhs <> emptyNode -> rhs <> emptyNode ->
           exists rLen d,
             conc lhs rhs hl hr = concat lhs rhs (length lhs) rLen d).
Proof.
  split; [| split; [| split]].
  - vm_compute. repeat split; try reflexivity; discriminate.
  - repeat split; try reflexivity; discriminate.
  - intros H.
    specialize (H (concat (leaf "a") (leaf "b") 1 1 255) (leaf "c") 0 0).
    vm_compute in H.
    assert (0 = 256) as H0 by (apply H; discriminate). discriminate.
  - intros H.
    destruct (H (leaf "ab") (leaf "c") 5 0) as [rLen [d E]];
      [discriminate | discriminate |].
    vm_compute in E. discriminate.
Qed.



(** ** The depth of a balanced concatenation *)

Lemma conc_depth_le (lhs rhs : node) (hl hr : Z) :
  0 <= depth lhs -> 0 <= depth rhs ->
  0 <= depth (conc lhs rhs hl hr) <= 1 + Z.max (depth lhs) (depth rhs).
Proof.
  intros Hl Hr. unfold conc.
  destruct (is_emptyNode lhs); [lia |].
  destruct (is_emptyNode rhs); [lia |].
  cbn [depth].
  destruct (Z.ltb_spec (depth lhs) (depth rhs));
    match goal with
    | |- context [add8 ?a 1] => pose proof (add8_le a 1 ltac:(lia))
    end; lia.
Qed.

(** With at most [2 ^ d] operands of depth 0, the result has depth at most
    [d]. *)
Lemma concMany_rec_depth (d : nat) :
  forall fuel first others,
    (List.length others <= fuel)%nat ->
    Forall (fun n => depth n = 0) (first :: others) ->
    Z.of_nat (S (List.length others)) <= 2 ^ Z.of_nat d ->
    0 <= depth (concMany_rec fuel first others) <= Z.of_nat d.
Proof.
  induction d as [| d IH]; intros fuel first others Hf Hall Hn.
  - change (2 ^ Z.of_nat 0) with 1 in Hn.
    destruct others; [| cbn [List.length] in Hn; lia].
    inversion Hall; subst. destruct fuel; cbn; lia.
  - destruct others as [| o others'] eqn:Eo.
    + inversion Hall; subst. destruct fuel; cbn [concMany_rec]; lia.
    + rewrite <- Eo in *.
      assert (others <> []) as Hne by (subst; discriminate).
      destruct fuel as [| fuel]; [subst; cbn in Hf; lia |].
      rewrite concMany_rec_step by assumption. cbv zeta.
      rewrite (Nat2Z.inj_succ d), Z.pow_succ_r in Hn by lia.
      set (P := 2 ^ Z.of_nat d) in *.
      pose proof (split_lt_length others Hne) as Hsplit.
      pose proof (Nat.div_mod_eq (List.length others) 2) as Hdm.
      pose proof (Nat.mod_upper_bound (List.length others) 2 ltac:(lia))
        as Hmod.
      set (split := (List.length others / 2)%nat) in *.
      pose proof (length_skipn split others) as Hsk.
      pose proof (firstn_skipn split others) as Hfs.
      assert (Forall (fun n => depth n = 0) others) as Hothers
        by (inversion Hall; assumption).
      assert (depth first = 0) as Hfirst by (inversion Hall; assumption).
      assert (Forall (fun n => depth n = 0) (firstn split others)
              /\ Forall (fun n => depth n = 0) (skipn split others))
        as [Hlo Hhi] by (apply Forall_app; rewrite Hfs; exact Hothers).
      assert (0 <= depth (concMany_rec fuel first (firstn split others))
              <= Z.of_nat d) as Hdl.
      { apply IH.
        - rewrite length_firstn. lia.
        - constructor; assumption.
        - rewrite length_firstn. lia. }
      destruct (skipn split others) as [| m rest] eqn:Es.
      * lia.
      * cbn [List.length] in Hsk.
        assert (0 <= depth (concMany_rec fuel m rest) <= Z.of_nat d) as Hdr.
        { apply IH; [lia | exact Hhi | lia]. }
        pose proof (conc_depth_le _ _ 0 0 (proj1 Hdl) (proj1 Hdr)). lia.
Qed.

Lemma le_pow2_log2_up (n : Z) : 0 < n -> n <= 2 ^ Z.log2_up n.
Proof. intros H. apply (Z.log2_log2_up_spec n H). Qed.

Lemma concMany_depth (first : node) (others : list node) :
  Forall (fun n => depth n = 0) (first :: others) ->
  0 <= depth (concMany first others)
    <= Z.log2_up (Z.of_nat (S (List.length others))).
Proof.
  intros Hall. unfold concMany.
  set (N := Z.of_nat (S (List.length others))).
  pose proof (Z.log2_up_nonneg N) as Hnn.
  pose proof (concMany_rec_depth (Z.to_nat (Z.log2_up N))
                (List.length others) first others (Nat.le_refl _) Hall) as H.
  rewrite Z2Nat.id in H by assumption.
  apply H. apply le_pow2_log2_up. unfold N. lia.
Qed.

(** The nil-aware [concMany] is the other one after nil is replaced by the
    empty node. *)
Definition denil (o : option node) : node :=
  match o with
  | None => emptyNode
  | Some n => n
  end.

Lemma NodeGo_concMany_rec_denil (fuel : nat) :
  forall first others,
    NodeGo.concMany_rec fuel first others =
    concMany_rec fuel (denil first) (map denil others).
Proof.
  induction fuel as [| fuel IH]; intros first others.
  - destruct others; reflexivity.
  - destruct others as [| o others'] eqn:Eo; [reflexivity |].
    rewrite <- Eo.
    assert (others <> []) as Hne by (subst; discriminate).
    rewrite concMany_rec_step
      by (intros Hm; apply map_eq_nil in Hm; contradiction).
    replace (NodeGo.concMany_rec (S fuel) first others) with
      (let split := (List.length others / 2)%nat in
       let lhs := NodeGo.concMany_rec fuel first (firstn split others) in
       match skipn split others with
       | [] => lhs
       | m :: rest => conc lhs (NodeGo.concMany_rec fuel m rest) 0 0
       end) by (subst others; reflexivity).
    cbv zeta. rewrite length_map, firstn_map, skipn_map.
    rewrite IH.
    destruct (skipn (List.length others / 2) others) as [| m rest];
      [reflexivity |].
    cbn [map]. rewrite IH. reflexivity.
Qed.

Lemma NodeGo_concMany_denil first others :
  NodeGo.concMany first others = concMany (denil first) (map denil others).
Proof.
  unfold NodeGo.concMany, concMany. rewrite length_map.
  apply NodeGo_concMany_rec_denil.
Qed.

(** A leaf holding one element. *)
Definition single_leaf (n : node) : Prop :=
  exists c : ascii, n = leaf (String c "").

Lemma single_leaf_depth (ns : list node) :
  Forall single_leaf ns -> Forall (fun n => depth n = 0) ns.
Proof.
  intros H. eapply Forall_impl; [| exact H].
  intros n [c ->]. reflexivity.
Qed.

(** The recursion of the nil-aware [concMany], as the source writes it:
    nil stands for the empty node, a call without [others] returns [first],
    and otherwise the halves on either side of the midpoint are combined
    recursively and joined with [conc]. *)
Lemma NodeGo_concMany_nil (first : option node) :
  NodeGo.concMany first [] = denil first.
Proof. destruct first; reflexivity. Qed.

Lemma NodeGo_concMany_unfold (first : option node)
  (others : list (option node)) :
  others <> [] ->
  NodeGo.concMany first others =
  let split := (List.length others / 2)%nat in
  conc (NodeGo.concMany first (firstn split others))
       (NodeGo.concMany (nth split others None) (skipn (S split) others))
       0 0.
Proof.
  intros Hne. cbv zeta.
  pose proof (split_lt_length others Hne) as Hsplit.
  rewrite !NodeGo_concMany_denil.
  rewrite concMany_unfold
    by (intros Hm; apply map_eq_nil in Hm; contradiction).
  cbv zeta. rewrite length_map, firstn_map, skipn_map.
  rewrite (nth_indep (map denil others) (denil first) (denil None))
    by (rewrite length_map; exact Hsplit).
  rewrite map_nth. reflexivity.
Qed.

(** The number of [concat] nodes of a tree: one for every [conc] of two
    non-empty operands. *)
Fixpoint joins (n : node) : nat :=
  match n with
  | leaf _ => O
  | concat l r _ _ _ => S (joins l + joins r)
  | wrapped inner => joins inner
  end.

(** The leaves of a tree, from left to right. *)
Fixpoint leaves (n : node) : list string :=
  match n with
  | leaf l => [l]
  | concat l r _ _ _ => (leaves l ++ leaves r)%list
  | wrapped inner => leaves inner
  end.

Lemma conc_leaves (lhs rhs : node) (hl hr : Z) :
  lhs <> emptyNode -> rhs <> emptyNode ->
  leaves (conc lhs rhs hl hr) = (leaves lhs ++ leaves rhs)%list
  /\ joins (conc lhs rhs hl hr) = S (joins lhs + joins rhs).
Proof.
  intros Hl Hr. rewrite conc_builds by assumption. split; reflexivity.
Qed.

(** A leaf that is not empty. *)
Definition nonempty_leaf (n : node) : Prop :=
  exists l : string, n = leaf l /\ l <> "".

Definition leaf_string (n : node) : string :=
  match n with
  | leaf l => l
  | _ => ""
  end.

(** Joined as a tree, no operand is lost or moved: on non-empty leaves the
    result has the operands as its leaves, in order, under one [concat] per
    operand but the first. *)
Lemma concMany_rec_leaves (fuel : nat) :
  forall first others,
    (List.length others <= fuel)%nat ->
    Forall nonempty_leaf (first :: others) ->
    leaves (concMany_rec fuel first others)
    = map leaf_string (first :: others)
    /\ joins (concMany_rec fuel first others) = List.length others.
Proof.
  induction fuel as [| fuel IH]; intros first others Hf Hall.
  - destruct others; [| cbn in Hf; lia].
    inversion Hall as [| ? ? [l [-> Hl]] _]; subst. split; reflexivity.
  - destruct others as [| o others'] eqn:Eo.
    + inversion Hall as [| ? ? [l [-> Hl]] _]; subst. split; reflexivity.
    + rewrite <- Eo in *.
      assert (others <> []) as Hne by (subst; discriminate).
      rewrite concMany_rec_step by assumption. cbv zeta.
      pose proof (split_lt_length others Hne) as Hsplit.
      set (split := (List.length others / 2)%nat) in *.
      pose proof (length_skipn split others) as Hsk.
      pose proof (firstn_skipn split others) as Hfs.
      assert (Forall nonempty_leaf others) as Hothers
        by (inversion Hall; assumption).
      assert (nonempty_leaf first) as Hfirst by (inversion Hall; assumption).
      assert (Forall nonempty_leaf (firstn split others)
              /\ Forall nonempty_leaf (skipn split others))
        as [Hlo Hhi] by (apply Forall_app; rewrite Hfs; exact Hothers).
      destruct (IH first (firstn split others)) as [L1 J1];
        [rewrite length_firstn; lia | constructor; assumption |].
      destruct (skipn split others) as [| m rest] eqn:Es;
        [cbn [List.length] in Hsk; lia |].
      cbn [List.length] in Hsk.
      destruct (IH m rest) as [L2 J2]; [lia | exact Hhi |].
      assert (forall t ns,
                 leaves t = map leaf_string ns -> Forall nonempty_leaf ns ->
                 ns <> [] -> t <> emptyNode) as Hnonempty.
      { intros t ns Ht Hns Hnil ->. destruct ns as [| x ns]; [congruence |].
        cbn in Ht. inversion Hns as [| ? ? [l [-> Hl]] _]; subst.
        cbn in Ht. inversion Ht. congruence. }
      destruct (conc_leaves (concMany_rec fuel first (firstn split others))
                  (concMany_rec fuel m rest) 0 0) as [L J].
      { eapply Hnonempty; [exact L1 | constructor; assumption | discriminate]. }
      { eapply Hnonempty; [exact L2 | exact Hhi | discriminate]. }
      rewrite L, J, L1, L2, J1, J2. split.
      * rewrite <- map_app. f_equal. cbn [app]. f_equal.
        rewrite <- Hfs at 2. reflexivity.
      * rewrite length_firstn. lia.
Qed.

Lemma single_leaf_nonempty (ns : list node) :
  Forall single_leaf ns -> Forall nonempty_leaf ns.
Proof.
  intros H. eapply Forall_impl; [| exact H].
  intros n [c ->]. eexists. split; [reflexivity | discriminate].
Qed.

(** C8: concMany returns its first operand when there is no other (the
    empty node for nil, in the variant that reads nil as the empty string),
    and otherwise splits its operands at the midpoint, combines each half
    recursively and joins the halves with conc, in both variants; on N
    single-element leaves the result holds the N operands as its leaves,
    in order, under N - 1 concat nodes, and its depth is at most
    ceil(log2(N)); 1024 one-element leaves give depth 10, also when they
    are the ropes Concat is called on. *)
Theorem concMany_logarithmic_depth :
  (forall first others,
      others <> [] ->
      concMany first others =
      let split := (List.length others / 2)%nat in
      conc (concMany first (firstn split others))
           (concMany (nth split others first) (skipn (S split) others))
           0 0)
  /\ (forall first others,
         Forall single_leaf (first :: others) ->
         0 <= depth (concMany first others)
           <= Z.log2_up (Z.of_nat (S (List.length others))))
  /\ (forall first others,
         Forall single_leaf (first :: others) ->
         0 <= depth (NodeGo.concMany (Some first) (map Some others))
           <= Z.log2_up (Z.of_nat (S (List.length others))))
  /\ depth (concMany (leaf "a") (repeat (leaf "a") 1023)) = 10
  /\ Rope_node (Rope_Concat (New "a") (repeat (New "a") 1023))
     = Some (concMany (wrapped (leaf "a")) (repeat (leaf "a") 1023))
  /\ depth (concMany (wrapped (leaf "a")) (repeat (leaf "a") 1023)) = 10
  /\ (forall first, concMany first [] = first)
  /\ (forall n, NodeGo.concMany (Some n) [] = n)
  /\ NodeGo.concMany None [] = emptyNode
  /\ (forall first others,
         others <> [] ->
         NodeGo.concMany first others =
         let split := (List.length others / 2)%nat in
         conc (NodeGo.concMany first (firstn split others))
              (NodeGo.concMany (nth split others None)
                               (skipn (S split) others))
              0 0)
  /\ (forall first others,
         Forall single_leaf (first :: others) ->
         leaves (concMany first others) = map leaf_string (first :: others)
         /\ joins (concMany first others) = List.length others)
  /\ (forall first others,
         Forall single_leaf (first :: others) ->
         leaves (NodeGo.concMany (Some first) (map Some others))
         = map leaf_string (first :: others)
         /\ joins (NodeGo.concMany (Some first) (map Some others))
            = List.length others)
  /\ depth (NodeGo.concMany (Some (leaf "a")) (repeat (Some (leaf "a")) 1023))
     = 10
  /\ depth (fold_left (fun lhs rhs => conc lhs rhs 0 0)
                      (repeat (leaf "a") 1023) (leaf "a")) mod 256
     = 1023 mod 256.
Proof.
  repeat apply conj;
    try (match goal with |- forall _, _ => fail 1 | |- _ => idtac end;
         vm_compute; reflexivity).
  - apply concMany_unfold.
  - intros first others H. apply concMany_depth.
    apply single_leaf_depth. exact H.
  - intros first others H. rewrite NodeGo_concMany_denil.
    rewrite map_map. cbn [denil]. rewrite map_id.
    apply concMany_depth. apply single_leaf_depth. exact H.
  - reflexivity.
  - reflexivity.
  - apply NodeGo_concMany_unfold.
  - intros first others H. apply concMany_rec_leaves; [lia |].
    apply single_leaf_nonempty. exact H.
  - intros first others H. rewrite NodeGo_concMany_denil.
    rewrite map_map. cbn [denil]. rewrite map_id.
    apply concMany_rec_leaves; [lia |].
    apply single_leaf_nonempty. exact H.
Qed.

Lemma concMany_logarithmic_depth_witness :
  0 <= depth (concMany (leaf "a") [leaf "b"; leaf "c"; leaf "d"; leaf "e"])
    <= 3
  /\ concMany (leaf "a") [leaf "b"; leaf "c"; leaf "d"; leaf "e"]
     = conc (concMany (leaf "a") [leaf "b"; leaf "c"])
            (concMany (leaf "d") [leaf "e"]) 0 0
  /\ NodeGo.concMany None [Some (leaf "b"); None; Some (leaf "d")]
     = conc (NodeGo.concMany None [Some (leaf "b")])
            (NodeGo.concMany None [Some (leaf "d")]) 0 0
  /\ leaves (NodeGo.concMany (Some (leaf "a"))
               (map Some [leaf "b"; leaf "c"; leaf "d"; leaf "e"]))
     = ["a"; "b"; "c"; "d"; "e"].
Proof.
  destruct concMany_logarithmic_depth
    as (H1 & H2 & _ & _ & _ & _ & _ & _ & _ & H10 & _ & H12 & _).
  split; [| split; [| split]].
  - apply (H2 (leaf "a") [leaf "b"; leaf "c"; leaf "d"; leaf "e"]).
    repeat constructor; eexists; reflexivity.
  - apply (H1 (leaf "a") [leaf "b"; leaf "c"; leaf "d"; leaf "e"]).
    discriminate.
  - apply (H10 None [Some (leaf "b"); None; Some (leaf "d")]).
    discriminate.
  - apply (H12 (leaf "a") [leaf "b"; leaf "c"; leaf "d"; leaf "e"]).
    repeat constructor; eexists; reflexivity.
Defined.

(** ** Split and length consistency *)

(** The cached fields of every [concat] agree with its children: [Split] is
    the length of the left child, [RLen] is the length of the right child or
    0, and the total length is an [int64]. *)
Fixpoint consistent (n : node) : Prop :=
  match n with
  | leaf l => slen l <= max_int64
  | concat l r split rLen _ =>
      consistent l /\ consistent r
      /\ split = length l
      /\ (rLen = 0 \/ rLen = length r)
      /\ 0 <= rLen <= max_uint32
      /\ length l + length r <= max_int64
  | wrapped inner => consistent inner
  end.

Lemma length_concat (l r : node) (split rLen d : Z) :
  length (concat l r split rLen d) = add64 split (rLength r rLen).
Proof. reflexivity. Qed.

Lemma length_emptyNode : length emptyNode = 0.
Proof. reflexivity. Qed.

Lemma consistent_emptyNode : consistent emptyNode.
Proof. cbn. unfold max_int64. lia. Qed.

Lemma rLength_cached (r : node) (rLen : Z) :
  rLen = 0 \/ rLen = length r -> rLength r rLen = length r.
Proof.
  unfold rLength. intros [-> | ->]; [reflexivity |].
  destruct (0 <? length r); reflexivity.
Qed.

Lemma consistent_length (n : node) :
  consistent n -> 0 <= length n <= max_int64.
Proof.
  induction n as [l | l IHl r IHr split rLen d | inner IH]; cbn [consistent].
  - intros H. cbn [length]. pose proof (slen_nonneg l). lia.
  - intros (Hl & Hr & Hs & Hc & Hrange & Hsum).
    specialize (IHl Hl). specialize (IHr Hr).
    rewrite length_concat, (rLength_cached r rLen Hc), Hs.
    rewrite add64_id by (unfold in_int64, min_int64, max_int64 in *; lia).
    lia.
  - exact IH.
Qed.

Lemma consistent_length_concat (l r : node) (split rLen d : Z) :
  consistent (concat l r split rLen d) ->
  length (concat l r split rLen d) = length l + length r
  /\ 0 <= length l /\ 0 <= length r.
Proof.
  intros H. pose proof H as (Hl & Hr & Hs & Hc & Hrange & Hsum).
  pose proof (consistent_length l Hl). pose proof (consistent_length r Hr).
  rewrite length_concat, (rLength_cached r rLen Hc), Hs.
  rewrite add64_id by (unfold in_int64, min_int64, max_int64 in *; lia).
  lia.
Qed.

(** A length hint is usable when it is non-positive or the true length. *)
Definition hint_ok (hint : Z) (n : node) : Prop :=
  hint <= 0 \/ hint = length n.

Lemma hint_resolved (hint : Z) (n : node) :
  hint_ok hint n -> (if hint <=? 0 then length n else hint) = length n.
Proof.
  intros [H | H]; destruct (Z.leb_spec hint 0); auto; lia.
Qed.

(** The value [conc] caches for the right length. *)
Definition cached_rLen (rhsLength : Z) : Z :=
  if max_uint32 <? rhsLength then 0 else rhsLength.

Lemma is_emptyNode_false (n : node) :
  n <> emptyNode -> is_emptyNode n = false.
Proof.
  intros H. destruct (is_emptyNode n) eqn:E; [| reflexivity].
  apply is_emptyNode_true in E. contradiction.
Qed.

(** The node [conc] builds from two non-empty nodes. *)
Lemma conc_nonempty (lhs rhs : node) (hl hr : Z) :
  lhs <> emptyNode -> rhs <> emptyNode ->
  hint_ok hl lhs -> hint_ok hr rhs ->
  0 <= length rhs ->
  conc lhs rhs hl hr =
  concat lhs rhs (length lhs) (cached_rLen (length rhs))
         (add8 (Z.max (depth lhs) (depth rhs)) 1).
Proof.
  intros Hl Hr Hhl Hhr Hnn. unfold conc.
  rewrite (is_emptyNode_false lhs Hl), (is_emptyNode_false rhs Hr).
  rewrite (hint_resolved hl lhs Hhl), (hint_resolved hr rhs Hhr).
  fold (cached_rLen (length rhs)).
  f_equal.
  - apply to_rLenT_id. unfold cached_rLen.
    destruct (Z.ltb_spec max_uint32 (length rhs)); unfold max_uint32 in *; lia.
  - f_equal. destruct (Z.ltb_spec (depth lhs) (depth rhs)); lia.
Qed.

Lemma cached_rLen_spec (z : Z) :
  0 <= z ->
  (cached_rLen z = 0 \/ cached_rLen z = z) /\ 0 <= cached_rLen z <= max_uint32.
Proof.
  intros H. unfold cached_rLen.
  destruct (Z.ltb_spec max_uint32 z); unfold max_uint32 in *; lia.
Qed.

(** The length of the result of [conc] is the sum of the lengths. *)
Lemma conc_length (lhs rhs : node) (hl hr : Z) :
  hint_ok hl lhs -> hint_ok hr rhs ->
  0 <= length lhs -> 0 <= length rhs ->
  length lhs + length rhs <= max_int64 ->
  length (conc lhs rhs hl hr) = length lhs + length rhs.
Proof.
  intros Hhl Hhr Hl Hr Hsum.
  destruct (is_emptyNode lhs) eqn:El.
  { unfold conc. rewrite El. apply is_emptyNode_true in El. subst.
    rewrite length_emptyNode. lia. }
  destruct (is_emptyNode rhs) eqn:Er.
  { unfold conc. rewrite El, Er. apply is_emptyNode_true in Er. subst.
    rewrite length_emptyNode. lia. }
  rewrite conc_nonempty; auto.
  - rewrite length_concat.
    rewrite rLength_cached by (apply cached_rLen_spec; assumption).
    apply add64_id. unfold in_int64, min_int64, max_int64 in *. lia.
  - intros ->. discriminate.
  - intros ->. discriminate.
Qed.

Lemma conc_consistent (lhs rhs : node) (hl hr : Z) :
  consistent lhs -> consistent rhs ->
  hint_ok hl lhs -> hint_ok hr rhs ->
  length lhs + length rhs <= max_int64 ->
  consistent (conc lhs rhs hl hr).
Proof.
  intros Hcl Hcr Hhl Hhr Hsum.
  pose proof (consistent_length lhs Hcl) as Hl.
  pose proof (consistent_length rhs Hcr) as Hr.
  destruct (is_emptyNode lhs) eqn:El.
  { unfold conc. rewrite El. exact Hcr. }
  destruct (is_emptyNode rhs) eqn:Er.
  { unfold conc. rewrite El, Er. exact Hcl. }
  rewrite conc_nonempty; auto; try lia.
  - cbn [consistent].
    pose proof (cached_rLen_spec (length rhs) ltac:(lia)) as [Hc Hrange].
    repeat split; auto; lia.
  - intros ->. discriminate.
  - intros ->. discriminate.
Qed.

Ltac int64_range := unfold in_int64, min_int64, max_int64 in *; lia.

(** [dropPrefix] keeps the consistency and removes [start] elements,
    clamped to the node. *)
Lemma dropPrefix_consistent (n : node) :
  consistent n ->
  forall start, in_int64 start ->
    consistent (dropPrefix n start)
    /\ length (dropPrefix n start)
       = length n - Z.min (Z.max start 0) (length n).
Proof.
  induction n as [l | l IHl r IHr split rLen d | inner IH];
    intros Hc start Hstart.
  - cbn [dropPrefix length]. unfold leaf_dropPrefix.
    cbn [consistent] in Hc. pose proof (slen_nonneg l).
    destruct (Z.leb_spec (slen l) start).
    + split; [apply consistent_emptyNode | rewrite length_emptyNode; lia].
    + destruct (Z.leb_spec start 0).
      * split; [exact Hc | cbn [length]; lia].
      * cbn [consistent length]. rewrite slen_str_from by lia.
        split; lia.
  - pose proof (consistent_length_concat _ _ _ _ _ Hc) as (Hlen & Hl0 & Hr0).
    pose proof Hc as (Hcl & Hcr & Hs & Hcache & Hrange & Hsum).
    cbn [dropPrefix].
    destruct (Z.leb_spec start 0).
    + split; [exact Hc | lia].
    + destruct (Z.ltb_spec start split).
      * destruct (IHl Hcl start Hstart) as [IH1 IH2].
        assert (length (dropPrefix l start) = length l - start) as Hdl
          by lia.
        assert (sub64 split start = split - start) as Hsub
          by (apply sub64_id; int64_range).
        assert (hint_ok (sub64 split start) (dropPrefix l start)) as Hh1
          by (right; lia).
        assert (hint_ok rLen r) as Hh2
          by (destruct Hcache; [left; lia | right; assumption]).
        split.
        -- apply conc_consistent; auto. lia.
        -- rewrite conc_length; auto; lia.
      * assert (sub64 start split = start - split) as Hsub
          by (apply sub64_id; int64_range).
        rewrite Hsub.
        destruct (IHr Hcr (start - split) ltac:(int64_range)) as [IH1 IH2].
        split; [exact IH1 | lia].
  - cbn [dropPrefix length consistent] in *. apply IH; assumption.
Qed.

(** [dropPostfix] keeps the consistency and keeps [end] elements, clamped
    to the node. *)
Lemma dropPostfix_consistent (n : node) :
  consistent n ->
  forall end_, in_int64 end_ ->
    consistent (dropPostfix n end_)
    /\ length (dropPostfix n end_) = Z.min (Z.max end_ 0) (length n).
Proof.
  induction n as [l | l IHl r IHr split rLen d | inner IH];
    intros Hc end_ Hend.
  - cbn [dropPostfix length]. unfold leaf_dropPostfix.
    cbn [consistent] in Hc. pose proof (slen_nonneg l).
    destruct (Z.leb_spec (slen l) end_).
    + split; [exact Hc | cbn [length]; lia].
    + destruct (Z.leb_spec end_ 0).
      * split; [apply consistent_emptyNode | rewrite length_emptyNode; lia].
      * cbn [consistent length]. rewrite slen_str_to by lia.
        split; lia.
  - pose proof (consistent_length_concat _ _ _ _ _ Hc) as (Hlen & Hl0 & Hr0).
    pose proof Hc as (Hcl & Hcr & Hs & Hcache & Hrange & Hsum).
    cbn [dropPostfix].
    destruct (Z.leb_spec end_ 0).
    + split; [apply consistent_emptyNode | rewrite length_emptyNode; lia].
    + destruct (Z.leb_spec end_ split).
      * destruct (IHl Hcl end_ Hend) as [IH1 IH2].
        split; [exact IH1 | lia].
      * rewrite (rLength_cached r rLen Hcache).
        rewrite add64_id by int64_range.
        destruct (Z.leb_spec (split + length r) end_).
        -- split; [exact Hc | lia].
        -- assert (sub64 end_ split = end_ - split) as Hsub
             by (apply sub64_id; int64_range).
           rewrite Hsub.
           destruct (IHr Hcr (end_ - split) ltac:(int64_range))
             as [IH1 IH2].
           assert (hint_ok split l) as Hh1 by (right; assumption).
           assert (hint_ok (end_ - split) (dropPostfix r (end_ - split)))
             as Hh2 by (right; lia).
           split.
           ++ apply conc_consistent; auto. lia.
           ++ rewrite conc_length; auto; lia.
  - cbn [dropPostfix length consistent] in *. apply IH; assumption.
Qed.

(** [slice] keeps the consistency and never lengthens a node. *)
Lemma slice_consistent (n : node) :
  consistent n ->
  forall start end_, in_int64 start -> in_int64 end_ ->
    consistent (slice n start end_)
    /\ 0 <= length (slice n start end_) <= length n.
Proof.
  induction n as [l | l IHl r IHr split rLen d | inner IH];
    intros Hc start end_ Hstart Hend.
  - cbn [slice]. unfold leaf_slice.
    change (leaf_dropPostfix l end_) with (dropPostfix (leaf l) end_).
    destruct (dropPostfix_consistent (leaf l) Hc end_ Hend) as [H1 H2].
    destruct (dropPrefix_consistent _ H1 start Hstart) as [H3 H4].
    pose proof (consistent_length _ Hc).
    pose proof (consistent_length _ H1).
    split; [exact H3 | lia].
  - pose proof (consistent_length_concat _ _ _ _ _ Hc) as (Hlen & Hl0 & Hr0).
    pose proof Hc as (Hcl & Hcr & Hs & Hcache & Hrange & Hsum).
    cbn [slice].
    destruct (Z.leb_spec end_ split).
    { destruct (IHl Hcl start end_ Hstart Hend). split; [assumption | lia]. }
    destruct (Z.leb_spec split start).
    { destruct (IHr Hcr (sub64 start split) (sub64 end_ split)
                  (wrap64_range _) (wrap64_range _)).
      split; [assumption | lia]. }
    rewrite add64_id by int64_range.
    destruct ((start <=? 0) && (split + length r <=? end_)).
    { split; [exact Hc | lia]. }
    destruct (IHl Hcl start end_ Hstart Hend) as [HL1 HL2].
    destruct (IHr Hcr (sub64 start split) (sub64 end_ split)
                (wrap64_range _) (wrap64_range _)) as [HR1 HR2].
    assert (hint_ok rLen r) as Hhr
      by (destruct Hcache; [left; lia | right; assumption]).
    destruct ((0 <? start) || (end_ <? split));
      destruct ((split <? start) || (end_ <? split + length r));
      (split;
       [ apply conc_consistent; auto;
         solve [ left; lia | right; assumption | lia ]
       | rewrite conc_length; auto;
         solve [ left; lia | right; assumption | lia ] ]).
  - cbn [slice length consistent] in *. apply IH; assumption.
Qed.

(** The lengths of a list of nodes, added up. *)
Fixpoint lengths (ns : list node) : Z :=
  match ns with
  | [] => 0
  | n :: rest => length n + lengths rest
  end.

Lemma lengths_app (a b : list node) :
  lengths (a ++ b) = lengths a + lengths b.
Proof. induction a as [| n a IH]; cbn [lengths app]; lia. Qed.

Lemma lengths_nonneg (ns : list node) :
  Forall consistent ns -> 0 <= lengths ns.
Proof.
  induction 1 as [| n ns Hn _ IH]; cbn [lengths]; [lia |].
  pose proof (consistent_length n Hn). lia.
Qed.

(** [concMany] keeps the consistency, and the length of its result is the
    sum of the lengths of the operands. *)
Lemma concMany_rec_consistent (fuel : nat) :
  forall first others,
    (List.length others <= fuel)%nat ->
    Forall consistent (first :: others) ->
    length first + lengths others <= max_int64 ->
    consistent (concMany_rec fuel first others)
    /\ length (concMany_rec fuel first others)
       = length first + lengths others.
Proof.
  induction fuel as [| fuel IH]; intros first others Hf Hall Hsum.
  - destruct others; [| cbn in Hf; lia].
    inversion Hall; subst. cbn [concMany_rec lengths]. split; [auto | lia].
  - destruct others as [| o others'] eqn:Eo.
    + inversion Hall; subst. cbn [concMany_rec lengths]. split; [auto | lia].
    + rewrite <- Eo in *.
      assert (others <> []) as Hne by (subst; discriminate).
      rewrite concMany_rec_step by assumption. cbv zeta.
      pose proof (split_lt_length others Hne) as Hsplit.
      set (split := (List.length others / 2)%nat) in *.
      pose proof (length_skipn split others) as Hsk.
      pose proof (firstn_skipn split others) as Hfs.
      assert (consistent first) as Hfirst by (inversion Hall; assumption).
      assert (Forall consistent others) as Hothers
        by (inversion Hall; assumption).
      assert (Forall consistent (firstn split others)
              /\ Forall consistent (skipn split others)) as [Hlo Hhi]
        by (apply Forall_app; rewrite Hfs; exact Hothers).
      assert (lengths others = lengths (firstn split others)
                               + lengths (skipn split others)) as Hls
        by (rewrite <- lengths_app, Hfs; reflexivity).
      pose proof (lengths_nonneg _ Hlo). pose proof (lengths_nonneg _ Hhi).
      pose proof (consistent_length first Hfirst).
      destruct (IH first (firstn split others)) as [HL1 HL2].
      { rewrite length_firstn. lia. }
      { constructor; assumption. }
      { lia. }
      destruct (skipn split others) as [| m rest] eqn:Es.
      * cbn [List.length] in Hsk. lia.
      * cbn [List.length] in Hsk. cbn [lengths] in *.
        destruct (IH m rest) as [HR1 HR2]; [lia | exact Hhi | lia |].
        pose proof (consistent_length _ HL1).
        pose proof (consistent_length _ HR1).
        split.
        -- apply conc_consistent; auto; try (left; lia). lia.
        -- rewrite conc_length; auto; try (left; lia); lia.
Qed.

Lemma concMany_consistent (first : node) (others : list node) :
  Forall consistent (first :: others) ->
  length first + lengths others <= max_int64 ->
  consistent (concMany first others)
  /\ length (concMany first others) = length first + lengths others.
Proof. apply concMany_rec_consistent. lia. Qed.

(** C9: a concat node built by conc from two non-empty nodes, with each
    length hint non-positive or equal to the length of its operand, has
    Split = length(lhs), caches length(rhs) when it fits the uint32 and 0
    otherwise, and its length() is length(lhs) + length(rhs); conc,
    concMany, dropPrefix, dropPostfix and slice keep this consistency of
    every concat node of their result.  Lengths are those of ropes whose
    content fits an int64. *)
Theorem conc_split_length_consistency :
  (forall lhs rhs hl hr,
      lhs <> emptyNode -> rhs <> emptyNode ->
      hint_ok hl lhs -> hint_ok hr rhs ->
      0 <= length lhs -> 0 <= length rhs ->
      length lhs + length rhs <= max_int64 ->
      conc lhs rhs hl hr =
      concat lhs rhs (length lhs)
             (if max_uint32 <? length rhs then 0 else length rhs)
             (add8 (Z.max (depth lhs) (depth rhs)) 1)
      /\ length (conc lhs rhs hl hr) = length lhs + length rhs)
  /\ (forall lhs rhs hl hr,
         consistent lhs -> consistent rhs ->
         hint_ok hl lhs -> hint_ok hr rhs ->
         length lhs + length rhs <= max_int64 ->
         consistent (conc lhs rhs hl hr))
  /\ (forall first others,
         Forall consistent (first :: others) ->
         length first + lengths others <= max_int64 ->
         consistent (concMany first others)
         /\ length (concMany first others) = length first + lengths others)
  /\ (forall n start,
         consistent n -> in_int64 start ->
         consistent (dropPrefix n start))
  /\ (forall n end_,
         consistent n -> in_int64 end_ ->
         consistent (dropPostfix n end_))
  /\ (forall n start end_,
         consistent n -> in_int64 start -> in_int64 end_ ->
         consistent (slice n start end_)).
Proof.
  repeat match goal with |- _ /\ _ => split end.
  - intros lhs rhs hl hr Hl Hr Hhl Hhr Hl0 Hr0 Hsum. split.
    + apply conc_nonempty; assumption.
    + apply conc_length; assumption.
  - apply conc_consistent.
  - apply concMany_consistent.
  - intros n start Hc Hs. apply (dropPrefix_consistent n Hc start Hs).
  - intros n end_ Hc He. apply (dropPostfix_consistent n Hc end_ He).
  - intros n start end_ Hc Hs He.
    apply (slice_consistent n Hc start end_ Hs He).
Qed.

Lemma conc_split_length_consistency_witness :
  length (conc (leaf "abc") (leaf "de") 3 0) = 5
  /\ consistent (dropPrefix (conc (leaf "abc") (leaf "de") 0 0) 1).
Proof.
  pose proof conc_split_length_consistency
    as (Hconc & Hcons & _ & Hdrop & _ & _).
  assert (consistent (leaf "abc")) as Habc
    by (cbn; unfold max_int64; lia).
  assert (consistent (leaf "de")) as Hde
    by (cbn; unfold max_int64; lia).
  split.
  - destruct (Hconc (leaf "abc") (leaf "de") 3 0) as [_ Hlen].
    + discriminate.
    + discriminate.
    + right. reflexivity.
    + left. lia.
    + cbn. lia.
    + cbn. lia.
    + cbn. unfold max_int64. lia.
    + rewrite Hlen. reflexivity.
  - apply Hdrop.
    + apply Hcons.
      * exact Habc.
      * exact Hde.
      * left. lia.
      * left. lia.
      * cbn. unfold max_int64. lia.
    + unfold in_int64, min_int64, max_int64. lia.
Defined.

(** ** The rebalancer and the balance test *)

(** C1: Rebalance is to return a rope with the content of its receiver and
    isBalanced true.  On the code it returns for no rope: getFibCache reads
    one element past the end of the cache and panics.  With the Fibonacci
    numbers supplied, the rest of Rebalance panics on the two-leaf rope of a
    and b when Debug is set, and returns the content ba when it is not. *)
Theorem Rebalance_panics_on_every_rope :
  (forall Debug fuel cache r,
      Rope_Rebalance Debug fuel cache r = Panic IndexOutOfRange)
  /\ rebalance_with true fibCache
       (mkRope (Some (conc (leaf "a") (leaf "b") 0 0)))
     = Panic (BucketGrew 0 1)
  /\ rebalance_with false fibCache
       (mkRope (Some (conc (leaf "a") (leaf "b") 0 0)))
     = Ok (mkRope (Some (concat (leaf "b") (leaf "a") 1 1 1))).
Proof.
  split; [| split].
  - intros Debug fuel cache r. unfold Rope_Rebalance.
    rewrite getFibCache_panics. reflexivity.
  - vm_compute. reflexivity.
  - vm_compute. reflexivity.
Qed.

(** C6: isBalanced is to return true exactly when length(r) is at most
    F[depth(r) + 2].  On the code it returns true for the nil and the
    canonical empty root, and panics in getFibCache for every other rope.
    The comparison behind the panic, depth <= binSearch(len, fibs) - 2, is
    false for the one-element leaf, whose length 1 is below F[2] = 3. *)
Theorem isBalanced_panics_on_nonempty :
  (forall fuel cache r,
      Rope_isBalanced fuel cache r =
      match Rope_node r with
      | None => Ok true
      | Some n => if is_emptyNode n then Ok true else Panic IndexOutOfRange
      end)
  /\ (rf <- binSearch (Rope_Len (New "a")) fibCache ;;
      Ok (depth (leaf "a") <=? sub64 rf 2)) = Ok false
  /\ at_index fibCache (depth (leaf "a") + 2) = Ok 3.
Proof.
  split; [| split; vm_compute; reflexivity].
  intros fuel cache r.
  unfold Rope_isBalanced. destruct (Rope_node r) as [n |]; [| reflexivity].
  destruct (is_emptyNode n); [reflexivity |].
  rewrite reverseFib_panics. reflexivity.
Qed.

(** ** The reader *)

(** A reader with an empty stack at the end of its leaf panics in nextNode:
    the stack is sliced to length -1. *)
Lemma Read_empty_stack_panics (fuel : nat) (l : string) (k : Z) :
  Read (S fuel) (mkReader [] l (slen l)) k = Panic SliceBoundsOutOfRange.
Proof.
  unfold Read. cbn [Read_loop pos cur]. rewrite Z.eqb_refl. reflexivity.
Qed.

(** C4: reading a rope to exhaustion with a k-byte buffer is to yield its
    content and then EOF once.  On the code, the one-leaf rope abc read with
    a 2-byte buffer yields ab, then c, and the third Read panics, as does
    the Read of any reader that has an empty stack and a consumed leaf; the rope
    of abc and def yields abc and then EOF; the rope of abc, 123 and def
    yields abc again and again. *)
Theorem Reader_panics_or_loses_content :
  (forall fuel l k,
      Read (S fuel) (mkReader [] l (slen l)) k = Panic SliceBoundsOutOfRange)
  /\ NewReader (New "abc") = Ok (mkReader [] "abc" 0)
  /\ Read 5 (mkReader [] "abc" 0) 2 = Ok ("ab", false, mkReader [] "abc" 2)
  /\ Read 5 (mkReader [] "abc" 2) 2 = Ok ("c", false, mkReader [] "abc" 3)
  /\ Read 5 (mkReader [] "abc" 3) 2 = Panic SliceBoundsOutOfRange
  /\ (r <- NewReader (mkRope (Some (conc (leaf "abc") (leaf "def") 0 0))) ;;
      readAll 20 20 r 2 "") = Ok "abc"
  /\ (r0 <- NewReader
              (mkRope (Some (conc (conc (leaf "abc") (leaf "123") 0 0)
                                  (leaf "def") 0 0))) ;;
      '(d1, e1, r1) <- Read 5 r0 2 ;;
      '(d2, e2, r2) <- Read 5 r1 2 ;;
      '(d3, e3, r3) <- Read 5 r2 2 ;;
      '(d4, e4, r4) <- Read 5 r3 2 ;;
      Ok [(d1, e1); (d2, e2); (d3, e3); (d4, e4)])
     = Ok [("ab", false); ("c", false); ("ab", false); ("c", false)].
Proof.
  split; [exact Read_empty_stack_panics |].
  repeat match goal with |- _ /\ _ => split end; vm_compute; reflexivity.
Qed.

(** C5: no public operation is to panic on any input.  On the code,
    Rebalance panics on the zero handle (and on every other rope),
    isBalanced panics on the rope a, and the first Read of a reader of the
    zero handle panics, as does the Read that follows the last byte of a
    one-leaf rope. *)
Theorem public_operations_panic :
  (forall fuel, Rope_Rebalance true fuel fibCache (mkRope None)
                = Panic IndexOutOfRange)
  /\ (forall fuel, Rope_isBalanced fuel fibCache (New "a")
                   = Panic IndexOutOfRange)
  /\ (forall fuel k,
         (r <- NewReader (mkRope None) ;; Read (S fuel) r k)
         = Panic SliceBoundsOutOfRange)
  /\ (forall fuel k,
         (r <- NewReader (New "abc") ;;
          '(_, _, r1) <- Read (S fuel) r 3 ;;
          Read (S fuel) r1 k)
         = Panic SliceBoundsOutOfRange).
Proof.
  repeat match goal with |- _ /\ _ => split end.
  - intros fuel. unfold Rope_Rebalance.
    rewrite getFibCache_panics. reflexivity.
  - intros fuel. unfold Rope_isBalanced. cbn [New Rope_node].
    change (is_emptyNode (leaf "a")) with false. cbv iota.
    rewrite reverseFib_panics. reflexivity.
  - intros fuel k. cbn [NewReader Rope_node bind].
    apply (Read_empty_stack_panics fuel "" k).
  - intros fuel k.
    change (NewReader (New "abc")) with (Ok (mkReader [] "abc" 0)).
    cbn [bind].
    change (Read (S fuel) (mkReader [] "abc" 0) 3)
      with (Ok ("abc", false, mkReader [] "abc" 3)).
    cbn [bind]. apply (Read_empty_stack_panics fuel "abc" k).
Qed.

(** ** The content of drops *)

Lemma substring_all (s : string) : substring 0 (String.length s) s = s.
Proof. induction s as [| c s IH]; cbn; [reflexivity | now rewrite IH]. Qed.

Lemma substring_none (n : nat) (s : string) : substring n 0 s = "".
Proof.
  revert n. induction s as [| c s IH]; intros [| n]; cbn; auto.
Qed.

Lemma substring_from_app_l (n : nat) (a b : string) :
  (n <= String.length a)%nat ->
  substring n (String.length (a ++ b) - n) (a ++ b)
  = substring n (String.length a - n) a ++ b.
Proof.
  revert n. induction a as [| c a IH]; intros n H; cbn in H.
  - assert (n = 0%nat) as -> by lia. cbn [append String.length].
    rewrite Nat.sub_0_r. apply substring_all.
  - destruct n as [| n].
    + rewrite !Nat.sub_0_r, !substring_all. reflexivity.
    + cbn [append String.length substring Nat.sub]. apply IH. lia.
Qed.

Lemma substring_from_app_r (n : nat) (a b : string) :
  (String.length a <= n)%nat ->
  substring n (String.length (a ++ b) - n) (a ++ b)
  = substring (n - String.length a)
              (String.length b - (n - String.length a)) b.
Proof.
  revert n. induction a as [| c a IH]; intros n H; cbn in H.
  - cbn [append String.length]. rewrite Nat.sub_0_r. reflexivity.
  - destruct n as [| n]; [lia |].
    cbn [append String.length substring Nat.sub]. apply IH. lia.
Qed.

Lemma substring_to_app_l (n : nat) (a b : string) :
  (n <= String.length a)%nat ->
  substring 0 n (a ++ b) = substring 0 n a.
Proof.
  revert n. induction a as [| c a IH]; intros n H; cbn in H.
  - assert (n = 0%nat) as -> by lia. cbn [append].
    rewrite substring_none. reflexivity.
  - destruct n as [| n]; [reflexivity |].
    cbn [append substring]. rewrite IH by lia. reflexivity.
Qed.

Lemma substring_to_app_r (n : nat) (a b : string) :
  (String.length a <= n)%nat ->
  substring 0 n (a ++ b) = a ++ substring 0 (n - String.length a) b.
Proof.
  revert n. induction a as [| c a IH]; intros n H; cbn in H.
  - cbn [append String.length]. rewrite Nat.sub_0_r. reflexivity.
  - destruct n as [| n]; [lia |].
    cbn [append substring String.length Nat.sub].
    rewrite IH by lia. reflexivity.
Qed.

Lemma slen_append (a b : string) : slen (a ++ b) = slen a + slen b.
Proof. unfold slen. rewrite length_append. lia. Qed.

Lemma str_from_0 (l : string) : str_from 0 l = l.
Proof.
  unfold str_from. cbn [Z.to_nat]. rewrite Nat.sub_0_r. apply substring_all.
Qed.

Lemma str_from_all (l : string) : str_from (slen l) l = "".
Proof.
  unfold str_from, slen. rewrite Nat2Z.id, Nat.sub_diag.
  apply substring_none.
Qed.

Lemma str_to_0 (l : string) : str_to 0 l = "".
Proof. unfold str_to. cbn [Z.to_nat]. apply substring_none. Qed.

Lemma str_to_all (l : string) : str_to (slen l) l = l.
Proof. unfold str_to, slen. rewrite Nat2Z.id. apply substring_all. Qed.

Lemma str_from_app_l (k : Z) (a b : string) :
  0 <= k <= slen a -> str_from k (a ++ b) = str_from k a ++ b.
Proof.
  unfold str_from, slen. intros H. apply substring_from_app_l. lia.
Qed.

Lemma str_from_app_r (k : Z) (a b : string) :
  slen a <= k -> str_from k (a ++ b) = str_from (k - slen a) b.
Proof.
  unfold str_from, slen. intros H.
  rewrite substring_from_app_r by lia.
  replace (Z.to_nat (k - Z.of_nat (String.length a)))
    with (Z.to_nat k - String.length a)%nat by lia.
  reflexivity.
Qed.

Lemma str_to_app_l (k : Z) (a b : string) :
  0 <= k <= slen a -> str_to k (a ++ b) = str_to k a.
Proof.
  unfold str_to, slen. intros H. apply substring_to_app_l. lia.
Qed.

Lemma str_to_app_r (k : Z) (a b : string) :
  slen a <= k -> str_to k (a ++ b) = a ++ str_to (k - slen a) b.
Proof.
  unfold str_to, slen. intros H.
  rewrite substring_to_app_r by lia.
  replace (Z.to_nat (k - Z.of_nat (String.length a)))
    with (Z.to_nat k - String.length a)%nat by lia.
  reflexivity.
Qed.

(** Under the consistency of its cached fields, the length of a node is the
    length of its content. *)
Lemma consistent_slen_content (n : node) :
  consistent n -> slen (content n) = length n.
Proof.
  induction n as [l | l IHl r IHr split rLen d | inner IH]; intros Hc.
  - reflexivity.
  - pose proof (consistent_length_concat _ _ _ _ _ Hc) as (Hlen & _ & _).
    destruct Hc as (Hcl & Hcr & _).
    cbn [content]. rewrite slen_append, (IHl Hcl), (IHr Hcr). lia.
  - cbn [content length consistent] in *. auto.
Qed.

(** [clamp k n]: the index [k] brought into [0, n]. *)
Definition clamp (k n : Z) : Z := Z.min (Z.max k 0) n.

(** The node-level [dropPrefix] keeps [s[k:]]. *)
Lemma dropPrefix_content (n : node) :
  consistent n ->
  forall start, in_int64 start ->
    content (dropPrefix n start)
    = str_from (clamp start (length n)) (content n).
Proof.
  unfold clamp.
  induction n as [l | l IHl r IHr split rLen d | inner IH];
    intros Hc start Hstart.
  - cbn [dropPrefix length content]. unfold leaf_dropPrefix.
    pose proof (slen_nonneg l).
    destruct (Z.leb_spec (slen l) start).
    + rewrite Z.min_r by lia. rewrite str_from_all. reflexivity.
    + destruct (Z.leb_spec start 0).
      * rewrite Z.max_r, Z.min_l by lia. rewrite str_from_0. reflexivity.
      * rewrite Z.max_l, Z.min_l by lia. reflexivity.
  - pose proof (consistent_length_concat _ _ _ _ _ Hc) as (Hlen & Hl0 & Hr0).
    pose proof Hc as (Hcl & Hcr & Hs & Hcache & Hrange & Hsum).
    pose proof (consistent_slen_content l Hcl) as Hsl.
    pose proof (consistent_slen_content r Hcr) as Hsr.
    cbn [dropPrefix content]. rewrite Hlen.
    destruct (Z.leb_spec start 0).
    + rewrite Z.max_r, Z.min_l by lia. rewrite str_from_0. reflexivity.
    + destruct (Z.ltb_spec start split).
      * rewrite conc_content, (IHl Hcl start Hstart).
        rewrite Z.max_l, !Z.min_l by lia.
        rewrite str_from_app_l by lia. reflexivity.
      * rewrite sub64_id by int64_range.
        rewrite (IHr Hcr (start - split)) by int64_range.
        rewrite str_from_app_r by lia.
        f_equal. lia.
  - cbn [dropPrefix length content consistent] in *. apply IH; assumption.
Qed.

(** The node-level [dropPostfix] keeps [s[:k]]. *)
Lemma dropPostfix_content (n : node) :
  consistent n ->
  forall end_, in_int64 end_ ->
    content (dropPostfix n end_)
    = str_to (clamp end_ (length n)) (content n).
Proof.
  unfold clamp.
  induction n as [l | l IHl r IHr split rLen d | inner IH];
    intros Hc end_ Hend.
  - cbn [dropPostfix length content]. unfold leaf_dropPostfix.
    pose proof (slen_nonneg l).
    destruct (Z.leb_spec (slen l) end_).
    + rewrite Z.min_r by lia. rewrite str_to_all. reflexivity.
    + destruct (Z.leb_spec end_ 0).
      * rewrite Z.max_r, Z.min_l by lia. rewrite str_to_0. reflexivity.
      * rewrite Z.max_l, Z.min_l by lia. reflexivity.
  - pose proof (consistent_length_concat _ _ _ _ _ Hc) as (Hlen & Hl0 & Hr0).
    pose proof Hc as (Hcl & Hcr & Hs & Hcache & Hrange & Hsum).
    pose proof (consistent_slen_content l Hcl) as Hsl.
    pose proof (consistent_slen_content r Hcr) as Hsr.
    cbn [dropPostfix content]. rewrite Hlen.
    destruct (Z.leb_spec end_ 0).
    + rewrite Z.max_r, Z.min_l by lia. rewrite str_to_0. reflexivity.
    + destruct (Z.leb_spec end_ split).
      * rewrite (IHl Hcl end_ Hend).
        rewrite Z.max_l, !Z.min_l by lia.
        rewrite str_to_app_l by lia. reflexivity.
      * rewrite (rLength_cached r rLen Hcache).
        rewrite add64_id by int64_range.
        destruct (Z.leb_spec (split + length r) end_).
        -- rewrite Z.min_r by lia.
           rewrite <- Hsl, <- Hsr, <- slen_append, str_to_all. reflexivity.
        -- rewrite sub64_id by int64_range.
           rewrite conc_content.
           rewrite (IHr Hcr (end_ - split)) by int64_range.
           rewrite Z.max_l, Z.min_l by lia.
           rewrite str_to_app_r by lia.
           f_equal. f_equal. lia.
  - cbn [dropPostfix length content consistent] in *. apply IH; assumption.
Qed.

(** A handle whose root, when there is one, has consistent cached
    fields. *)
Definition Rope_consistent (r : Rope) : Prop :=
  match Rope_node r with
  | None => True
  | Some n => consistent n
  end.

(** [Rope.DropPrefix(k)] materializes to [s[k:]]. *)
Lemma Rope_DropPrefix_String (r : Rope) (start : Z) :
  Rope_consistent r -> in_int64 start ->
  Rope_String (Rope_DropPrefix r start)
  = str_from (clamp start (Rope_Len r)) (Rope_String r).
Proof.
  unfold Rope_consistent, Rope_DropPrefix, Rope_Len.
  rewrite (Rope_String_content r).
  destruct r as [[n |]]; cbn [Rope_node]; intros Hc Hs.
  - destruct (Z.eqb_spec start 0) as [-> | Hne].
    + rewrite Rope_String_content. cbn [Rope_node].
      pose proof (consistent_length n Hc).
      unfold clamp. rewrite Z.max_r, Z.min_l by lia.
      rewrite str_from_0. reflexivity.
    + rewrite Rope_String_content. cbn [Rope_node].
      apply dropPrefix_content; assumption.
  - unfold clamp. rewrite Z.min_r by lia. reflexivity.
Qed.

(** [Rope.DropPostfix(k)] materializes to [s[k:]] as well. *)
Lemma Rope_DropPostfix_String (r : Rope) (end_ : Z) :
  Rope_consistent r -> in_int64 end_ ->
  Rope_String (Rope_DropPostfix r end_)
  = str_from (clamp end_ (Rope_Len r)) (Rope_String r).
Proof.
  unfold Rope_consistent, Rope_DropPostfix, Rope_Len.
  rewrite (Rope_String_content r).
  destruct r as [[n |]]; cbn [Rope_node]; intros Hc He.
  - rewrite Rope_String_content. cbn [Rope_node].
    apply dropPrefix_content; assumption.
  - unfold clamp. rewrite Z.min_r by lia. reflexivity.
Qed.

(** ** Slices and drops of handles *)

Lemma Rope_DropPostfix_consistent (r : Rope) (end_ : Z) :
  Rope_consistent r -> in_int64 end_ ->
  Rope_consistent (Rope_DropPostfix r end_)
  /\ Rope_Len (Rope_DropPostfix r end_)
     = Rope_Len r - clamp end_ (Rope_Len r).
Proof.
  unfold Rope_consistent, Rope_DropPostfix, Rope_Len, clamp.
  destruct r as [[n |]]; cbn [Rope_node]; intros Hc He.
  - apply dropPrefix_consistent; assumption.
  - split; [exact I | lia].
Qed.

(** C7: DropPrefix(k) is to keep s[k:] and DropPostfix(k) to keep s[:k].  On
    the code DropPrefix does, and the node method dropPostfix keeps s[:k];
    but the handle method DropPostfix calls dropPrefix on the root and keeps
    s[k:] too: on abcdef, DropPostfix(3) gives def, DropPostfix(0) the whole
    string and DropPostfix(6) the empty one. *)
Theorem DropPostfix_drops_the_prefix :
  (forall r k,
      Rope_consistent r -> in_int64 k ->
      Rope_String (Rope_DropPrefix r k)
      = str_from (clamp k (Rope_Len r)) (Rope_String r))
  /\ (forall n k,
         consistent n -> in_int64 k ->
         content (dropPostfix n k) = str_to (clamp k (length n)) (content n))
  /\ (forall r k,
         Rope_consistent r -> in_int64 k ->
         Rope_String (Rope_DropPostfix r k)
         = str_from (clamp k (Rope_Len r)) (Rope_String r))
  /\ Rope_String (Rope_DropPrefix (New "abcdef") 3) = "def"
  /\ Rope_String (Rope_DropPostfix (New "abcdef") 3) = "def"
  /\ Rope_String (Rope_DropPostfix (New "abcdef") 0) = "abcdef"
  /\ Rope_String (Rope_DropPostfix (New "abcdef") 6) = "".
Proof.
  split; [exact Rope_DropPrefix_String |].
  split; [intros n k Hc Hk; apply dropPostfix_content; assumption |].
  split; [exact Rope_DropPostfix_String |].
  repeat match goal with |- _ /\ _ => split end; vm_compute; reflexivity.
Qed.

Lemma DropPostfix_drops_the_prefix_witness :
  Rope_String (Rope_DropPostfix (New "abcdef") 2) = "cdef"
  /\ content (dropPostfix (leaf "abcdef") 2) = "ab".
Proof.
  pose proof DropPostfix_drops_the_prefix as (_ & Hnode & Hpost & _).
  assert (consistent (leaf "abcdef")) as Hc by (cbn; unfold max_int64; lia).
  assert (in_int64 2) as H2 by (unfold in_int64, min_int64, max_int64; lia).
  split.
  - rewrite (Hpost (New "abcdef") 2 Hc H2). reflexivity.
  - rewrite (Hnode (leaf "abcdef") 2 Hc H2). reflexivity.
Defined.

(** C2: Slice(start, end) is to keep s[start:end].  On the code the empty
    rope is returned when start >= end or end <= 0, but otherwise the first
    end elements are dropped, not the rest, and then start more: on abcdef,
    Slice(2, 5) gives the empty string and Slice(-5, 2) gives cdef; so it
    is on the rope of a, bc and def. *)
Theorem Slice_never_drops_the_postfix :
  (forall r start end_,
      end_ <= start \/ end_ <= 0 -> Rope_Slice r start end_ = emptyRope)
  /\ (forall r start end_,
         Rope_consistent r -> in_int64 start -> in_int64 end_ ->
         Z.max start 0 < end_ ->
         Rope_String (Rope_Slice r start end_)
         = str_from
             (clamp (Z.max start 0)
                    (Rope_Len r - clamp end_ (Rope_Len r)))
             (str_from (clamp end_ (Rope_Len r)) (Rope_String r)))
  /\ Rope_String (Rope_Slice (New "abcdef") 2 5) = ""
  /\ Rope_String (Rope_Slice (New "abcdef") (-5) 2) = "cdef"
  /\ Rope_String
       (Rope_Slice (Rope_Concat (Rope_Concat (New "a") [New "bc"])
                                [New "def"]) 2 5) = "".
Proof.
  split; [| split].
  - intros r start end_ H. unfold Rope_Slice.
    destruct (Z.ltb_spec start 0);
      match goal with
      | |- context [?a <=? ?b] => destruct (Z.leb_spec a b)
      end; try reflexivity; lia.
  - intros r start end_ Hc Hs He Hlt. unfold Rope_Slice.
    replace (if start <? 0 then 0 else start) with (Z.max start 0)
      by (destruct (Z.ltb_spec start 0); lia).
    destruct (Z.leb_spec end_ (Z.max start 0)); [lia |].
    destruct (Rope_DropPostfix_consistent r end_ Hc He) as [Hc1 Hlen].
    rewrite Rope_DropPrefix_String by (assumption || int64_range).
    rewrite Rope_DropPostfix_String by assumption.
    rewrite Hlen. reflexivity.
  - repeat match goal with |- _ /\ _ => split end; vm_compute; reflexivity.
Qed.

Lemma Slice_never_drops_the_postfix_witness :
  Rope_Slice (New "abcdef") 3 3 = emptyRope
  /\ Rope_String (Rope_Slice (New "abcdef") 1 3) = "ef".
Proof.
  pose proof Slice_never_drops_the_postfix as (Hempty & Hslice & _).
  split.
  - apply (Hempty (New "abcdef") 3 3). left. lia.
  - rewrite (Hslice (New "abcdef") 1 3).
    + reflexivity.
    + cbn. unfold max_int64. lia.
    + unfold in_int64, min_int64, max_int64. lia.
    + unfold in_int64, min_int64, max_int64. lia.
    + lia.
Defined.

(** C10: on a strictly increasing slice (of fewer than 2^62 elements, so
    that start + end does not wrap) binSearch returns, reads inside the
    slice only, and its result is the least index whose element is at least
    N, or the length of the slice when every element is below N.
    reverseFib is to be that index in the Fibonacci cache; on the code it
    panics in getFibCache for every N. *)
Theorem binSearch_least_index_and_reverseFib_panics :
  (forall N arr,
      strictly_increasing arr = true -> len arr < 2 ^ 62 ->
      exists i,
        binSearch N arr = Ok i
        /\ 0 <= i <= len arr
        /\ (forall j x, at_index arr j = Ok x -> j < i -> x < N)
        /\ (forall j x, at_index arr j = Ok x -> i <= j -> N <= x))
  /\ (forall fuel cache N, reverseFib fuel cache N = Panic IndexOutOfRange).
Proof.
  split.
  - intros N arr Hsorted Hlen.
    destruct (binSearch_total N arr Hlen) as [i [Hi Hb]].
    exists i. split; [exact Hi |]. split; [exact Hb |].
    unfold binSearch in Hi.
    assert (-1 < len arr) as Hpos by (unfold len; lia).
    apply (binSearch_loop_sorted N arr Hsorted Hlen
             (S (List.length arr)) (-1) (len arr) i);
      try assumption; try lia.
    + intros j x Hj Hneg. apply at_index_bound in Hj. lia.
    + intros j x Hj Hbig. apply at_index_bound in Hj. lia.
  - apply reverseFib_panics.
Qed.

Lemma binSearch_least_index_and_reverseFib_panics_witness :
  exists i,
    binSearch 4 fibCache = Ok i
    /\ 0 <= i <= len fibCache
    /\ (forall j x, at_index fibCache j = Ok x -> j < i -> x < 4)
    /\ (forall j x, at_index fibCache j = Ok x -> i <= j -> 4 <= x).
Proof.
  apply (proj1 binSearch_least_index_and_reverseFib_panics 4 fibCache).
  - vm_compute. reflexivity.
  - vm_compute. reflexivity.
Defined.


(** * Further properties of the code *)

(** ** Writing, lengths and construction *)

Lemma WriteTo_count (n : node) (w : string) :
  consistent n -> fst (WriteTo n w) = length n.
Proof.
  revert w. induction n as [l | l IHl r IHr split rLen d | inner IH];
    intros w Hc.
  - reflexivity.
  - pose proof (consistent_length_concat _ _ _ _ _ Hc) as (Hlen & Hl0 & Hr0).
    pose proof Hc as (Hcl & Hcr & Hs & Hcache & Hrange & Hsum).
    rewrite Hlen. cbn [WriteTo].
    specialize (IHl w Hcl). destruct (WriteTo l w) as [n1 w1].
    specialize (IHr w1 Hcr). destruct (WriteTo r w1) as [m w2].
    cbn [fst] in *. subst. apply add64_id. int64_range.
  - cbn [WriteTo length consistent] in *. auto.
Qed.

(** X1: WriteTo on a handle with consistent cached lengths returns Len() as
    the number of bytes written and appends exactly the content of the rope
    to the buffer; on the zero handle it writes nothing. *)
Theorem Rope_WriteTo_writes_Len_bytes (r : Rope) (w : string) :
  Rope_consistent r ->
  Rope_WriteTo r w = (Rope_Len r, w ++ Rope_String r).
Proof.
  unfold Rope_consistent, Rope_WriteTo, Rope_Len.
  rewrite Rope_String_content.
  destruct (Rope_node r) as [n |]; intros Hc.
  - rewrite (surjective_pairing (WriteTo n w)).
    rewrite WriteTo_count, WriteTo_content by assumption. reflexivity.
  - rewrite append_nil_r. reflexivity.
Qed.

Lemma Rope_WriteTo_writes_Len_bytes_witness :
  Rope_WriteTo (Rope_Concat (New "ab") [New "cde"]) "x-" = (5, "x-abcde").
Proof.
  rewrite Rope_WriteTo_writes_Len_bytes.
  - reflexivity.
  - cbn. unfold max_int64, max_uint32. repeat split; lia.
Defined.

Lemma Rope_String_New (s : string) : Rope_String (New s) = s.
Proof.
  unfold New. destruct (Z.eqb_spec (slen s) 0) as [H0 | H0].
  - apply slen_zero in H0. subst. reflexivity.
  - destruct s; reflexivity.
Qed.

(** X2: New(s) holds s: String() returns s and Len() its length; and on
    every handle with consistent cached lengths Len() is the length of
    String(). *)
Theorem New_round_trip_and_Len :
  (forall s, Rope_String (New s) = s /\ Rope_Len (New s) = slen s)
  /\ (forall s, slen s <= max_int64 -> Rope_consistent (New s))
  /\ (forall r, Rope_consistent r -> Rope_Len r = slen (Rope_String r)).
Proof.
  split; [| split].
  - intros s. unfold New.
    destruct (Z.eqb_spec (slen s) 0) as [H0 | H0].
    + apply slen_zero in H0. subst. split; reflexivity.
    + destruct s; split; reflexivity.
  - intros s H. unfold New, Rope_consistent.
    destruct (slen s =? 0); cbn; [unfold max_int64; lia | exact H].
  - intros r Hc. unfold Rope_consistent, Rope_Len in *.
    rewrite Rope_String_content.
    destruct (Rope_node r) as [n |]; [| reflexivity].
    symmetry. apply consistent_slen_content. exact Hc.
Qed.

Lemma New_round_trip_and_Len_witness :
  Rope_consistent (New "abc")
  /\ Rope_Len (Rope_Concat (New "abc") [New "de"]) = 5.
Proof.
  pose proof New_round_trip_and_Len as (_ & Hnew & Hlen).
  split.
  - apply Hnew. cbn. unfold max_int64. lia.
  - rewrite Hlen; [reflexivity |].
    cbn. unfold max_int64, max_uint32. repeat split; lia.
Defined.

(** The lengths of a list of handles, added up. *)
Fixpoint Rope_Lens (rs : list Rope) : Z :=
  match rs with
  | [] => 0
  | r :: rest => Rope_Len r + Rope_Lens rest
  end.

Lemma Rope_consistent_Len (r : Rope) :
  Rope_consistent r -> 0 <= Rope_Len r <= max_int64.
Proof.
  unfold Rope_consistent, Rope_Len. destruct (Rope_node r) as [n |].
  - apply consistent_length.
  - intros _. unfold max_int64. lia.
Qed.

Lemma Rope_Lens_nonneg (rs : list Rope) :
  Forall Rope_consistent rs -> 0 <= Rope_Lens rs.
Proof.
  induction 1 as [| r rs Hr _ IH]; cbn [Rope_Lens]; [lia |].
  pose proof (Rope_consistent_Len r Hr). lia.
Qed.

Lemma Concat_list_consistent (rhs : list Rope) :
  Forall Rope_consistent rhs ->
  Forall consistent (Concat_list rhs)
  /\ lengths (Concat_list rhs) = Rope_Lens rhs.
Proof.
  induction 1 as [| item rhs Hitem _ [IH1 IH2]];
    cbn [Concat_list Rope_Lens lengths].
  - split; [constructor | reflexivity].
  - unfold Rope_consistent, Rope_Len in *.
    destruct (Rope_node item) as [n |].
    + split; [constructor; assumption | cbn [lengths]; lia].
    + split; [assumption | lia].
Qed.

Lemma Concat_receiver_consistent (r : Rope) (rhs : list Rope) :
  Forall Rope_consistent (r :: rhs) ->
  Forall Rope_consistent
    (fst (Concat_receiver r rhs) :: snd (Concat_receiver r rhs))
  /\ Rope_Len (fst (Concat_receiver r rhs))
     + Rope_Lens (snd (Concat_receiver r rhs))
     = Rope_Len r + Rope_Lens rhs.
Proof.
  revert r. induction rhs as [| r1 rhs IH]; intros r Hall.
  - destruct r as [[n |]]; cbn; auto.
  - destruct r as [[n |]].
    + cbn. auto.
    + cbn [Concat_receiver Rope_node].
      destruct (IH r1) as [H1 H2]; [inversion Hall; assumption |].
      split; [exact H1 |]. rewrite H2. reflexivity.
Qed.

Lemma Rope_Concat_adds_lengths_aux (r : Rope) (rhs : list Rope) :
  Forall Rope_consistent (r :: rhs) ->
  Rope_Len r + Rope_Lens rhs <= max_int64 ->
  Rope_consistent (Rope_Concat r rhs)
  /\ Rope_Len (Rope_Concat r rhs) = Rope_Len r + Rope_Lens rhs.
Proof.
  intros Hall Hsum. unfold Rope_Concat.
  destruct (Concat_receiver_consistent r rhs Hall) as [H1 H2].
  pose proof (Concat_receiver_spec r rhs) as [_ Hnil].
  destruct (Concat_receiver r rhs) as [r1 rhs1]. cbn [fst snd] in *.
  rewrite <- H2 in *. clear H2.
  assert (Rope_consistent r1) as Hr1 by (inversion H1; assumption).
  assert (Forall Rope_consistent rhs1) as Hrhs1
    by (inversion H1; assumption).
  destruct rhs1 as [| item rhs1].
  - split; [exact Hr1 | cbn [Rope_Lens]; lia].
  - destruct (Concat_list_consistent _ Hrhs1) as [Hl1 Hl2].
    unfold Rope_consistent, Rope_Len in *.
    destruct (Rope_node r1) as [n |] eqn:En.
    + cbn [Rope_node].
      destruct (concMany_consistent (wrapped n)
                  (Concat_list (item :: rhs1))) as [Hc Hlen].
      * constructor; assumption.
      * cbn [length]. rewrite Hl2. exact Hsum.
      * split; [exact Hc |]. rewrite Hlen, Hl2. reflexivity.
    + specialize (Hnil eq_refl). discriminate.
Qed.


(** X3: Concat keeps the cached lengths consistent, and the Len() of its
    result is the sum of the Len() of the receiver and of the arguments,
    when that sum is an int64. *)
Theorem Rope_Concat_adds_lengths (r : Rope) (rhs : list Rope) :
  Forall Rope_consistent (r :: rhs) ->
  Rope_Len r + Rope_Lens rhs <= max_int64 ->
  Rope_consistent (Rope_Concat r rhs)
  /\ Rope_Len (Rope_Concat r rhs) = Rope_Len r + Rope_Lens rhs.
Proof.
  intros Hall Hsum.
  destruct (Rope_Concat_adds_lengths_aux r rhs Hall Hsum) as [Hc Hlen].
  split; [exact Hc | exact Hlen].
Qed.

Lemma Rope_Concat_adds_lengths_witness :
  Rope_Len (Rope_Concat (New "abc") [mkRope None; New "de"; New "f"]) = 6.
Proof.
  refine (proj2 (Rope_Concat_adds_lengths (New "abc")
                   [mkRope None; New "de"; New "f"] _ _)).
  - repeat constructor; cbn; unfold max_int64; lia.
  - cbn. unfold max_int64. lia.
Defined.

(** ** Drops of handles: empty handles, lengths, composition *)

(** The two empty handles: the zero value and the handle of the canonical
    empty node. *)
Definition empty_handle (r : Rope) : Prop :=
  r = mkRope None \/ r = emptyRope.

(** X4: the zero handle and New of the empty string are empty handles, with
    Len() = 0 and String() empty, and DropPrefix, DropPostfix and Slice of an
    empty handle, for any integer arguments, is again an empty handle; none
    of them panics. *)
Theorem empty_handle_closed :
  New "" = emptyRope
  /\ (forall r, empty_handle r -> Rope_Len r = 0 /\ Rope_String r = "")
  /\ (forall r k, empty_handle r -> empty_handle (Rope_DropPrefix r k))
  /\ (forall r k, empty_handle r -> empty_handle (Rope_DropPostfix r k))
  /\ (forall r s e, empty_handle r -> empty_handle (Rope_Slice r s e)).
Proof.
  assert (forall k, dropPrefix emptyNode k = emptyNode) as Hdrop.
  { intros k. cbn. unfold leaf_dropPrefix. change (slen "") with 0.
    destruct (Z.leb_spec 0 k); [reflexivity |].
    destruct (Z.leb_spec k 0); [reflexivity | lia]. }
  assert (forall r k, empty_handle r -> empty_handle (Rope_DropPrefix r k))
    as Hpre.
  { intros r k [-> | ->]; [left; reflexivity | right].
    unfold Rope_DropPrefix, emptyRope. cbn [Rope_node].
    destruct (k =? 0); [reflexivity |]. rewrite Hdrop. reflexivity. }
  assert (forall r k, empty_handle r -> empty_handle (Rope_DropPostfix r k))
    as Hpost.
  { intros r k [-> | ->]; [left; reflexivity | right].
    unfold Rope_DropPostfix, emptyRope. cbn [Rope_node].
    rewrite Hdrop. reflexivity. }
  repeat match goal with |- _ /\ _ => split end.
  - reflexivity.
  - intros r [-> | ->]; split; reflexivity.
  - exact Hpre.
  - exact Hpost.
  - intros r s e Hr. unfold Rope_Slice.
    destruct (e <=? (if s <? 0 then 0 else s)).
    + right. reflexivity.
    + apply Hpre. apply Hpost. exact Hr.
Qed.

Lemma empty_handle_closed_witness :
  empty_handle (Rope_Slice (New "") (-1) 200)
  /\ Rope_String (Rope_DropPostfix (mkRope None) 3) = "".
Proof.
  pose proof empty_handle_closed as (Hnew & Hlen & _ & Hpost & Hslice).
  split.
  - apply Hslice. right. exact Hnew.
  - apply (Hlen (Rope_DropPostfix (mkRope None) 3)).
    apply Hpost. left. reflexivity.
Defined.

(** X5: DropPrefix(k) keeps the cached lengths consistent and leaves
    Len() - k elements, with k clamped to [0, Len()]; the node method
    dropPostfix(k) leaves k elements, clamped in the same way. *)
Theorem drop_lengths :
  (forall r k,
      Rope_consistent r -> in_int64 k ->
      Rope_consistent (Rope_DropPrefix r k)
      /\ Rope_Len (Rope_DropPrefix r k) = Rope_Len r - clamp k (Rope_Len r))
  /\ (forall n k,
         consistent n -> in_int64 k ->
         length (dropPostfix n k) = clamp k (length n)).
Proof.
  split.
  - intros r k Hc Hk.
    unfold Rope_consistent, Rope_DropPrefix, Rope_Len, clamp in *.
    destruct (Rope_node r) as [n |] eqn:En.
    + destruct (Z.eqb_spec k 0) as [-> | Hne].
      * rewrite En. pose proof (consistent_length n Hc).
        split; [exact Hc | lia].
      * cbn [Rope_node]. apply dropPrefix_consistent; assumption.
    + rewrite En. split; [exact I | lia].
  - intros n k Hc Hk.
    apply (dropPostfix_consistent n Hc k Hk).
Qed.

Lemma drop_lengths_witness :
  Rope_Len (Rope_DropPrefix (Rope_Concat (New "abc") [New "def"]) 4) = 2
  /\ length (dropPostfix (conc (leaf "abc") (leaf "def") 0 0) 4) = 4.
Proof.
  pose proof drop_lengths as (Hpre & Hpost).
  assert (in_int64 4) as H4 by (unfold in_int64, min_int64, max_int64; lia).
  split.
  - refine (eq_trans (proj2 (Hpre _ 4 _ H4)) _); [| reflexivity].
    cbn. unfold max_int64, max_uint32. repeat split; lia.
  - rewrite Hpost; [reflexivity | | exact H4].
    cbn. unfold max_int64, max_uint32. repeat split; lia.
Defined.

Lemma substring_of_prefix (n m p : nat) (c : string) :
  (n + m <= p)%nat ->
  substring n m (substring 0 p c) = substring n m c.
Proof.
  revert n m p. induction c as [| x c IH]; intros n m p H.
  - destruct p; reflexivity.
  - destruct p as [| p].
    + assert (n = 0%nat) as -> by lia. assert (m = 0%nat) as -> by lia.
      reflexivity.
    + cbn [substring]. destruct n as [| n].
      * destruct m as [| m]; [reflexivity |].
        cbn [substring]. rewrite IH by lia. reflexivity.
      * cbn [substring]. apply IH. lia.
Qed.

Lemma str_from_str_to (s e : Z) (c : string) :
  0 <= s <= e -> e <= slen c ->
  str_from s (str_to e c) = substring (Z.to_nat s) (Z.to_nat (e - s)) c.
Proof.
  intros Hs He. unfold str_from, str_to, slen in *.
  rewrite length_substring by lia.
  replace (Z.to_nat e - Z.to_nat s)%nat with (Z.to_nat (e - s)) by lia.
  apply substring_of_prefix. lia.
Qed.

(** X6: the node methods compose to a slice: dropPostfix(end) followed by
    dropPrefix(start) keeps exactly the elements start .. end-1 of the
    content, for 0 <= start <= end <= length. *)
Theorem dropPostfix_then_dropPrefix_is_slice (n : node) (s e : Z) :
  consistent n ->
  0 <= s <= e -> e <= length n ->
  content (dropPrefix (dropPostfix n e) s)
  = substring (Z.to_nat s) (Z.to_nat (e - s)) (content n).
Proof.
  intros Hc Hs He.
  pose proof (consistent_length n Hc) as Hlen.
  assert (in_int64 e) as Hie by int64_range.
  assert (in_int64 s) as His by int64_range.
  destruct (dropPostfix_consistent n Hc e Hie) as [Hc1 Hl1].
  rewrite dropPrefix_content by assumption.
  rewrite dropPostfix_content by assumption.
  rewrite Hl1. unfold clamp.
  rewrite (Z.max_l e 0), (Z.min_l e (length n)) by lia.
  rewrite (Z.max_l s 0), (Z.min_l s e) by lia.
  apply str_from_str_to; [assumption |].
  rewrite consistent_slen_content by assumption. assumption.
Qed.

Lemma dropPostfix_then_dropPrefix_is_slice_witness :
  content
    (dropPrefix
       (dropPostfix
          (conc (conc (leaf "a") (leaf "bc") 0 0) (leaf "def") 0 0) 5) 2)
  = "cde".
Proof.
  rewrite dropPostfix_then_dropPrefix_is_slice.
  - reflexivity.
  - cbn. unfold max_int64, max_uint32. repeat split; lia.
  - lia.
  - cbn. lia.
Defined.

(** ** No empty child *)

(** Every child of a [concat] has a positive length: the comment on the
    fields of [concat] (neither subtree may be of length zero). *)
Fixpoint positive_children (n : node) : Prop :=
  match n with
  | leaf _ => True
  | concat l r _ _ _ =>
      0 < length l /\ 0 < length r
      /\ positive_children l /\ positive_children r
  | wrapped inner => positive_children inner
  end.

(** A node as the package builds them: consistent cached lengths, no empty
    child, and itself the canonical empty node when it is empty. *)
Definition canonical (n : node) : Prop :=
  consistent n /\ positive_children n /\ (n = emptyNode \/ 0 < length n).

Lemma canonical_emptyNode : canonical emptyNode.
Proof.
  split; [apply consistent_emptyNode |]. split; [exact I | left; reflexivity].
Qed.

Lemma positive_not_emptyNode (n : node) : 0 < length n -> n <> emptyNode.
Proof. intros H ->. rewrite length_emptyNode in H. lia. Qed.

Lemma conc_canonical (lhs rhs : node) (hl hr : Z) :
  canonical lhs -> canonical rhs ->
  hint_ok hl lhs -> hint_ok hr rhs ->
  length lhs + length rhs <= max_int64 ->
  canonical (conc lhs rhs hl hr).
Proof.
  intros (Hcl & Hpl & Hel) (Hcr & Hpr & Her) Hhl Hhr Hsum.
  destruct Hel as [-> | Hl0]; [unfold conc; cbn; repeat split; auto |].
  destruct Her as [-> | Hr0].
  { unfold conc. rewrite (is_emptyNode_false lhs) by
      (apply positive_not_emptyNode; assumption).
    cbn [is_emptyNode String.eqb]. repeat split; auto. }
  split; [apply conc_consistent; assumption |].
  split.
  - rewrite conc_nonempty; auto using positive_not_emptyNode; try lia.
    cbn [positive_children]. auto.
  - right. rewrite conc_length; auto; lia.
Qed.

Lemma dropPrefix_canonical (n : node) :
  canonical n -> forall k, in_int64 k -> canonical (dropPrefix n k).
Proof.
  induction n as [l | l IHl r IHr split rLen d | inner IH];
    intros (Hc & Hp & He) k Hk.
  - cbn [dropPrefix]. unfold leaf_dropPrefix.
    destruct (Z.leb_spec (slen l) k); [apply canonical_emptyNode |].
    destruct (Z.leb_spec k 0);
      [split; [exact Hc |]; split; [exact Hp | exact He] |].
    cbn [consistent] in Hc. pose proof (slen_nonneg l).
    repeat split; cbn [consistent length];
      try rewrite slen_str_from by lia; lia.
  - pose proof (consistent_length_concat _ _ _ _ _ Hc) as (Hlen & Hl0 & Hr0).
    pose proof Hc as (Hcl & Hcr & Hs & Hcache & Hrange & Hsum).
    destruct Hp as (Hlp & Hrp & Hpl & Hpr).
    assert (canonical l) as Hcanl
      by (split; [exact Hcl |]; split; [exact Hpl | right; exact Hlp]).
    assert (canonical r) as Hcanr
      by (split; [exact Hcr |]; split; [exact Hpr | right; exact Hrp]).
    cbn [dropPrefix].
    destruct (Z.leb_spec k 0).
    + split; [exact Hc |]. split; [cbn [positive_children]; auto | exact He].
    + destruct (Z.ltb_spec k split).
      * destruct (dropPrefix_consistent l Hcl k Hk) as [_ Hdl].
        apply conc_canonical; auto.
        -- right. rewrite sub64_id by int64_range. lia.
        -- destruct Hcache; [left; lia | right; assumption].
        -- lia.
      * apply IHr; [assumption |]. apply wrap64_range.
  - cbn [dropPrefix]. apply IH; [| assumption].
    cbn [consistent positive_children length] in *.
    split; [exact Hc |]. split; [exact Hp |].
    destruct He as [He | He]; [discriminate | right; exact He].
Qed.

Lemma dropPostfix_canonical (n : node) :
  canonical n -> forall k, in_int64 k -> canonical (dropPostfix n k).
Proof.
  induction n as [l | l IHl r IHr split rLen d | inner IH];
    intros (Hc & Hp & He) k Hk.
  - cbn [dropPostfix]. unfold leaf_dropPostfix.
    destruct (Z.leb_spec (slen l) k);
      [split; [exact Hc |]; split; [exact Hp | exact He] |].
    destruct (Z.leb_spec k 0); [apply canonical_emptyNode |].
    cbn [consistent] in Hc. pose proof (slen_nonneg l).
    repeat split; cbn [consistent length];
      try rewrite slen_str_to by lia; lia.
  - pose proof (consistent_length_concat _ _ _ _ _ Hc) as (Hlen & Hl0 & Hr0).
    pose proof Hc as (Hcl & Hcr & Hs & Hcache & Hrange & Hsum).
    destruct Hp as (Hlp & Hrp & Hpl & Hpr).
    assert (canonical l) as Hcanl
      by (split; [exact Hcl |]; split; [exact Hpl | right; exact Hlp]).
    assert (canonical r) as Hcanr
      by (split; [exact Hcr |]; split; [exact Hpr | right; exact Hrp]).
    cbn [dropPostfix].
    destruct (Z.leb_spec k 0); [apply canonical_emptyNode |].
    destruct (Z.leb_spec k split); [apply IHl; assumption |].
    rewrite (rLength_cached r rLen Hcache).
    rewrite add64_id by int64_range.
    destruct (Z.leb_spec (split + length r) k).
    + split; [exact Hc |]. split; [cbn [positive_children]; auto | exact He].
    + rewrite sub64_id by int64_range.
      destruct (dropPostfix_consistent r Hcr (k - split)
                  ltac:(int64_range)) as [_ Hdr].
      apply conc_canonical; auto.
      * apply IHr; [assumption | int64_range].
      * right. assumption.
      * right. lia.
      * lia.
  - cbn [dropPostfix]. apply IH; [| assumption].
    cbn [consistent positive_children length] in *.
    split; [exact Hc |]. split; [exact Hp |].
    destruct He as [He | He]; [discriminate | right; exact He].
Qed.

Lemma canonical_consistent (ns : list node) :
  Forall canonical ns -> Forall consistent ns.
Proof. apply Forall_impl. intros n H. apply H. Qed.

Lemma concMany_rec_canonical (fuel : nat) :
  forall first others,
    (List.length others <= fuel)%nat ->
    Forall canonical (first :: others) ->
    length first + lengths others <= max_int64 ->
    canonical (concMany_rec fuel first others).
Proof.
  induction fuel as [| fuel IH]; intros first others Hf Hall Hsum.
  - destruct others; [| cbn in Hf; lia]. inversion Hall; subst. assumption.
  - destruct others as [| o others'] eqn:Eo.
    + inversion Hall; subst. assumption.
    + rewrite <- Eo in *.
      assert (others <> []) as Hne by (subst; discriminate).
      rewrite concMany_rec_step by assumption. cbv zeta.
      pose proof (split_lt_length others Hne) as Hsplit.
      set (split := (List.length others / 2)%nat) in *.
      pose proof (length_skipn split others) as Hsk.
      pose proof (firstn_skipn split others) as Hfs.
      assert (canonical first) as Hfirst by (inversion Hall; assumption).
      assert (Forall canonical others) as Hothers
        by (inversion Hall; assumption).
      assert (Forall canonical (firstn split others)
              /\ Forall canonical (skipn split others)) as [Hlo Hhi]
        by (apply Forall_app; rewrite Hfs; exact Hothers).
      assert (lengths others = lengths (firstn split others)
                               + lengths (skipn split others)) as Hls
        by (rewrite <- lengths_app, Hfs; reflexivity).
      pose proof (lengths_nonneg _ (canonical_consistent _ Hlo)).
      pose proof (lengths_nonneg _ (canonical_consistent _ Hhi)).
      pose proof (consistent_length first (proj1 Hfirst)).
      assert (List.length (firstn split others) <= fuel)%nat as Hfl
        by (rewrite length_firstn; lia).
      destruct (concMany_rec_consistent fuel first (firstn split others) Hfl)
        as [_ HL2].
      { apply canonical_consistent. constructor; assumption. }
      { lia. }
      pose proof (IH first (firstn split others) Hfl
                    ltac:(constructor; assumption) ltac:(lia)) as HL.
      destruct (skipn split others) as [| m rest] eqn:Es.
      * cbn [List.length] in Hsk. lia.
      * cbn [List.length] in Hsk. cbn [lengths] in *.
        destruct (concMany_rec_consistent fuel m rest) as [_ HR2];
          [lia | apply canonical_consistent; exact Hhi | lia |].
        pose proof (IH m rest ltac:(lia) Hhi ltac:(lia)) as HR.
        apply conc_canonical; auto; try (left; lia). lia.
Qed.

(** X7: the package never builds a concat node with an empty child: conc,
    concMany, dropPrefix and dropPostfix return canonical nodes
    (consistent, every child of positive length, the canonical empty node
    when empty) on canonical operands. *)
Theorem no_empty_child :
  (forall l, slen l <= max_int64 -> canonical (leaf l))
  /\ (forall lhs rhs hl hr,
         canonical lhs -> canonical rhs ->
         hint_ok hl lhs -> hint_ok hr rhs ->
         length lhs + length rhs <= max_int64 ->
         canonical (conc lhs rhs hl hr))
  /\ (forall first others,
         Forall canonical (first :: others) ->
         length first + lengths others <= max_int64 ->
         canonical (concMany first others))
  /\ (forall n k, canonical n -> in_int64 k -> canonical (dropPrefix n k))
  /\ (forall n k, canonical n -> in_int64 k -> canonical (dropPostfix n k)).
Proof.
  repeat match goal with |- _ /\ _ => split end.
  - intros l H. pose proof (slen_nonneg l) as Hnn.
    split; [exact H |]. split; [exact I |].
    destruct (Z.eq_dec (slen l) 0) as [Hz | Hz].
    + left. apply slen_zero in Hz. subst. reflexivity.
    + right. cbn [length]. lia.
  - apply conc_canonical.
  - intros first others. apply concMany_rec_canonical. lia.
  - intros n k Hn Hk. apply dropPrefix_canonical; assumption.
  - intros n k Hn Hk. apply dropPostfix_canonical; assumption.
Qed.

Lemma no_empty_child_witness :
  canonical (dropPostfix (concMany (leaf "ab") [leaf ""; leaf "cd"]) 3).
Proof.
  pose proof no_empty_child as (Hleaf & _ & Hmany & _ & Hpost).
  apply Hpost.
  - apply Hmany.
    + repeat constructor; apply Hleaf; cbn; unfold max_int64; lia.
    + cbn. unfold max_int64. lia.
  - unfold in_int64, min_int64, max_int64. lia.
Defined.

(** ** Sharing *)

(** The node a handle stored as a node stands for. *)
Fixpoint unwrap (n : node) : node :=
  match n with
  | wrapped inner => unwrap inner
  | _ => n
  end.

Lemma dropPrefix_noop (n : node) (k : Z) : k <= 0 -> dropPrefix n k = unwrap n.
Proof.
  intros Hk. induction n as [l | l IHl r IHr split rLen d | inner IH].
  - cbn [dropPrefix unwrap]. unfold leaf_dropPrefix.
    pose proof (slen_nonneg l) as Hnn.
    destruct (Z.leb_spec (slen l) k) as [H | H].
    + assert (slen l = 0) as Hz by lia. apply slen_zero in Hz. subst.
      reflexivity.
    + destruct (Z.leb_spec k 0); [reflexivity | lia].
  - cbn [dropPrefix unwrap]. destruct (Z.leb_spec k 0); [reflexivity | lia].
  - exact IH.
Qed.

Lemma dropPostfix_nothing (n : node) (k : Z) :
  k <= 0 -> dropPostfix n k = emptyNode.
Proof.
  intros Hk. induction n as [l | l IHl r IHr split rLen d | inner IH].
  - cbn [dropPostfix]. unfold leaf_dropPostfix.
    pose proof (slen_nonneg l) as Hnn.
    destruct (Z.leb_spec (slen l) k) as [H | H].
    + assert (slen l = 0) as Hz by lia. apply slen_zero in Hz. subst.
      reflexivity.
    + destruct (Z.leb_spec k 0); [reflexivity | lia].
  - cbn [dropPostfix]. destruct (Z.leb_spec k 0); [reflexivity | lia].
  - exact IH.
Qed.

Lemma canonical_concat_children l r split rLen d :
  canonical (concat l r split rLen d) ->
  canonical l /\ canonical r /\ 0 < length l /\ 0 < length r.
Proof.
  intros (Hc & Hp & _).
  destruct Hc as (Hcl & Hcr & _). destruct Hp as (Hl & Hr & Hpl & Hpr).
  repeat split; auto.
Qed.

Lemma canonical_wrapped inner : canonical (wrapped inner) -> canonical inner.
Proof.
  intros (Hc & Hp & He). split; [exact Hc |]. split; [exact Hp |].
  destruct He as [He | He]; [discriminate | right; exact He].
Qed.

Lemma drops_past_the_end (n : node) :
  canonical n ->
  forall k, in_int64 k -> length n <= k ->
    dropPrefix n k = emptyNode /\ dropPostfix n k = unwrap n.
Proof.
  induction n as [l | l IHl r IHr split rLen d | inner IH];
    intros Hcan k Hk Hlen.
  - cbn [dropPrefix dropPostfix unwrap length] in *.
    unfold leaf_dropPrefix, leaf_dropPostfix.
    destruct (Z.leb_spec (slen l) k); [split; reflexivity | lia].
  - destruct (canonical_concat_children _ _ _ _ _ Hcan)
      as (Hcanl & Hcanr & Hl0 & Hr0).
    destruct Hcan as (Hc & _).
    pose proof (consistent_length_concat _ _ _ _ _ Hc) as (Hsum & _ & _).
    pose proof Hc as (Hcl & Hcr & Hs & Hcache & Hrange & Hmax).
    cbn [dropPrefix dropPostfix unwrap].
    destruct (Z.leb_spec k 0); [lia |].
    destruct (Z.ltb_spec k split); [lia |].
    destruct (Z.leb_spec k split); [lia |].
    rewrite (rLength_cached r rLen Hcache).
    rewrite add64_id by int64_range.
    destruct (Z.leb_spec (split + length r) k); [| lia].
    split; [| reflexivity].
    rewrite sub64_id by int64_range.
    apply IHr; [assumption | int64_range | lia].
  - cbn [dropPrefix dropPostfix unwrap length] in *.
    apply IH; auto using canonical_wrapped.
Qed.

(** X8: drops share instead of copying.  dropPrefix(k) with k <= 0 returns
    the node itself and dropPostfix(k) with k <= 0 the canonical empty node;
    on a canonical node, dropPrefix(k) with k >= length returns the canonical
    empty node and dropPostfix(k) the node itself; DropPrefix(k) with
    k >= Len() on a handle with a canonical root is the handle emptyRope,
    and the zero handle is returned as it is. *)
Theorem drops_share :
  (forall n k, k <= 0 -> dropPrefix n k = unwrap n)
  /\ (forall n k, k <= 0 -> dropPostfix n k = emptyNode)
  /\ (forall n k,
         canonical n -> in_int64 k -> length n <= k ->
         dropPrefix n k = emptyNode /\ dropPostfix n k = unwrap n)
  /\ (forall n k,
         canonical n -> in_int64 k -> length n <= k ->
         Rope_DropPrefix (mkRope (Some n)) k = emptyRope)
  /\ (forall k, Rope_DropPrefix (mkRope None) k = mkRope None).
Proof.
  repeat match goal with |- _ /\ _ => split end.
  - apply dropPrefix_noop.
  - apply dropPostfix_nothing.
  - intros n k Hc Hk Hlen. apply drops_past_the_end; assumption.
  - intros n k Hc Hk Hlen. unfold Rope_DropPrefix. cbn [Rope_node].
    destruct (Z.eqb_spec k 0) as [-> | Hne].
    + destruct Hc as (Hcons & _ & [-> | Hpos]); [reflexivity | lia].
    + destruct (drops_past_the_end n Hc k Hk Hlen) as [-> _]. reflexivity.
  - reflexivity.
Qed.

Lemma drops_share_witness :
  dropPrefix (conc (leaf "ab") (leaf "cd") 0 0) (-3)
  = conc (leaf "ab") (leaf "cd") 0 0
  /\ Rope_DropPrefix (mkRope (Some (conc (leaf "ab") (leaf "cd") 0 0))) 9
     = emptyRope.
Proof.
  pose proof drops_share as (Hnoop & _ & _ & Hpast & _).
  split.
  - rewrite Hnoop by lia. reflexivity.
  - apply Hpast.
    + unfold canonical. cbn. unfold max_int64, max_uint32.
      repeat split; try lia; right; lia.
    + unfold in_int64, min_int64, max_int64. lia.
    + cbn. lia.
Defined.

(** ** Depth *)

(** The cached depth of every [concat] is one more than the larger depth of
    its children, within the range of a byte. *)
Fixpoint depth_exact (n : node) : Prop :=
  match n with
  | leaf _ => True
  | concat l r _ _ d =>
      d = 1 + Z.max (depth l) (depth r) /\ d <= 255
      /\ depth_exact l /\ depth_exact r
  | wrapped inner => depth_exact inner
  end.

Lemma depth_exact_range (n : node) : depth_exact n -> 0 <= depth n <= 255.
Proof.
  induction n as [l | l IHl r IHr split rLen d | inner IH];
    cbn [depth depth_exact].
  - lia.
  - intros (Hd & Hmax & Hl & Hr). specialize (IHl Hl). specialize (IHr Hr).
    lia.
  - exact IH.
Qed.

Lemma conc_depth_exact (lhs rhs : node) (hl hr : Z) :
  depth_exact lhs -> depth_exact rhs ->
  Z.max (depth lhs) (depth rhs) < 255 ->
  depth_exact (conc lhs rhs hl hr)
  /\ depth (conc lhs rhs hl hr) <= 1 + Z.max (depth lhs) (depth rhs).
Proof.
  intros Hl Hr Hmax.
  pose proof (depth_exact_range lhs Hl). pose proof (depth_exact_range rhs Hr).
  unfold conc.
  destruct (is_emptyNode lhs); [split; [exact Hr | lia] |].
  destruct (is_emptyNode rhs); [split; [exact Hl | lia] |].
  cbn [depth depth_exact].
  assert ((if depth lhs <? depth rhs then depth rhs else depth lhs)
          = Z.max (depth lhs) (depth rhs)) as ->
    by (destruct (Z.ltb_spec (depth lhs) (depth rhs)); lia).
  assert (add8 (Z.max (depth lhs) (depth rhs)) 1
          = 1 + Z.max (depth lhs) (depth rhs)) as ->
    by (unfold add8; rewrite Z.mod_small; lia).
  repeat split; auto; lia.
Qed.

Lemma dropPrefix_depth (n : node) :
  depth_exact n ->
  forall k, depth_exact (dropPrefix n k)
            /\ depth (dropPrefix n k) <= depth n.
Proof.
  induction n as [l | l IHl r IHr split rLen d | inner IH]; intros Hd k.
  - cbn [dropPrefix]. unfold leaf_dropPrefix.
    destruct (slen l <=? k); [cbn; split; [exact I | lia] |].
    destruct (k <=? 0); cbn; split; auto; lia.
  - pose proof Hd as (Hdd & Hmax & Hl & Hr).
    pose proof (depth_exact_range l Hl). pose proof (depth_exact_range r Hr).
    cbn [dropPrefix].
    destruct (k <=? 0); [split; [exact Hd | lia] |].
    destruct (k <? split).
    + destruct (IHl Hl k) as [IH1 IH2].
      pose proof (depth_exact_range _ IH1).
      destruct (conc_depth_exact (dropPrefix l k) r
                  (sub64 split k) rLen IH1 Hr ltac:(lia)) as [C1 C2].
      split; [exact C1 |]. cbn [depth]. lia.
    + destruct (IHr Hr (sub64 k split)) as [IH1 IH2].
      split; [exact IH1 |]. cbn [depth]. lia.
  - cbn [dropPrefix depth depth_exact] in *. apply IH. exact Hd.
Qed.

Lemma dropPostfix_depth (n : node) :
  depth_exact n ->
  forall k, depth_exact (dropPostfix n k)
            /\ depth (dropPostfix n k) <= depth n.
Proof.
  induction n as [l | l IHl r IHr split rLen d | inner IH]; intros Hd k.
  - cbn [dropPostfix]. unfold leaf_dropPostfix.
    destruct (slen l <=? k); [cbn; split; [exact I | lia] |].
    destruct (k <=? 0); cbn; split; auto; lia.
  - pose proof Hd as (Hdd & Hmax & Hl & Hr).
    pose proof (depth_exact_range l Hl). pose proof (depth_exact_range r Hr).
    cbn [dropPostfix].
    destruct (k <=? 0); [cbn; split; [exact I | lia] |].
    destruct (k <=? split).
    + destruct (IHl Hl k) as [IH1 IH2].
      split; [exact IH1 |]. cbn [depth]. lia.
    + destruct (add64 split (rLength r rLen) <=? k);
        [split; [exact Hd | lia] |].
      destruct (IHr Hr (sub64 k split)) as [IH1 IH2].
      pose proof (depth_exact_range _ IH1).
      destruct (conc_depth_exact l (dropPostfix r (sub64 k split))
                  split (sub64 k split) Hl IH1 ltac:(lia)) as [C1 C2].
      split; [exact C1 |]. cbn [depth]. lia.
  - cbn [dropPostfix depth depth_exact] in *. apply IH. exact Hd.
Qed.

(** X9: drops never deepen a tree: on a node whose cached depths are exact,
    dropPrefix and dropPostfix return a node whose cached depths are exact
    and whose depth is at most the depth of the original, for every
    integer argument. *)
Theorem drops_never_deepen (n : node) (k : Z) :
  depth_exact n ->
  depth_exact (dropPrefix n k) /\ depth (dropPrefix n k) <= depth n
  /\ depth_exact (dropPostfix n k) /\ depth (dropPostfix n k) <= depth n.
Proof.
  intros Hd.
  destruct (dropPrefix_depth n Hd k) as [H1 H2].
  destruct (dropPostfix_depth n Hd k) as [H3 H4].
  auto.
Qed.

Lemma drops_never_deepen_witness :
  depth (dropPrefix
           (conc (conc (leaf "a") (leaf "bc") 0 0) (leaf "def") 0 0) 1)
  <= 2.
Proof.
  refine (proj1 (proj2 (drops_never_deepen
            (conc (conc (leaf "a") (leaf "bc") 0 0) (leaf "def") 0 0) 1 _))).
  cbn. repeat split; lia.
Defined.

(** ** Appending one rope at a time *)

Lemma Rope_Concat_one (n : node) (x : string) :
  x <> "" ->
  Rope_Concat (mkRope (Some n)) [New x]
  = mkRope (Some (concat (wrapped n) (leaf x) (length n)
                         (cached_rLen (slen x))
                         (add8 (Z.max (depth n) 0) 1))).
Proof.
  intros Hx.
  assert (New x = mkRope (Some (leaf x))) as HNew.
  { unfold New. destruct (Z.eqb_spec (slen x) 0) as [H0 | H0];
      [apply slen_zero in H0; contradiction | reflexivity]. }
  unfold Rope_Concat. cbn [Concat_receiver Rope_node]. rewrite HNew.
  cbn [Concat_list Rope_node]. f_equal. f_equal.
  change (concMany (wrapped n) [leaf x])
    with (conc (wrapped n) (leaf x) 0 0).
  rewrite conc_nonempty.
  - reflexivity.
  - discriminate.
  - intros H. inversion H. contradiction.
  - left. lia.
  - left. lia.
  - apply slen_nonneg.
Qed.

Lemma sequential_Concat_depth (xs : list string) :
  Forall (fun x => x <> "") xs ->
  forall n, 0 <= depth n < 256 ->
    exists m,
      Rope_node (fold_left (fun r x => Rope_Concat r [New x]) xs
                           (mkRope (Some n))) = Some m
      /\ depth m = (depth n + len xs) mod 256.
Proof.
  induction 1 as [| x xs Hx _ IH]; intros n Hn.
  - exists n. split; [reflexivity |]. unfold len. cbn [List.length].
    rewrite Z.add_0_r, Z.mod_small by lia. reflexivity.
  - cbn [fold_left]. rewrite (Rope_Concat_one n x Hx).
    match goal with
    | |- context [mkRope (Some ?c)] => set (c1 := c)
    end.
    assert (depth c1 = (depth n + 1) mod 256) as Hd1.
    { unfold c1. cbn [depth]. unfold add8. rewrite Z.max_l by lia.
      reflexivity. }
    destruct (IH c1) as [m [Hm Hdm]].
    { rewrite Hd1. apply Z.mod_pos_bound. lia. }
    exists m. split; [exact Hm |].
    rewrite Hdm, Hd1. unfold len. cbn [List.length].
    rewrite Z.add_mod_idemp_l by lia. f_equal. lia.
Qed.

(** X10: appending one non-empty rope at a time gives a tree as deep as
    the number of appends, and the cached depth is a byte: after N appends
    to a one-leaf rope the root reports depth N mod 256 (0 after 256
    appends), while the content is that of all the ropes in order. *)
Theorem sequential_Concat_depth_wraps (x0 : string) (xs : list string) :
  x0 <> "" -> Forall (fun x => x <> "") xs ->
  exists m,
    Rope_node (fold_left (fun r x => Rope_Concat r [New x]) xs (New x0))
    = Some m
    /\ depth m = len xs mod 256
    /\ content m = x0 ++ String.concat "" xs.
Proof.
  intros Hx0 Hxs.
  assert (New x0 = mkRope (Some (leaf x0))) as HNew.
  { unfold New. destruct (Z.eqb_spec (slen x0) 0) as [H0 | H0];
      [apply slen_zero in H0; contradiction | reflexivity]. }
  rewrite HNew.
  destruct (sequential_Concat_depth xs Hxs (leaf x0)) as [m [Hm Hd]];
    [cbn; lia |].
  exists m. split; [exact Hm |]. split; [exact Hd |].
  assert (forall ys r,
             Rope_String (fold_left (fun r x => Rope_Concat r [New x]) ys r)
             = Rope_String r ++ String.concat "" ys) as Hcontent.
  { induction ys as [| y ys IHys]; intros r; cbn [fold_left].
    - cbn. symmetry. apply append_nil_r.
    - rewrite IHys, Rope_Concat_String. cbn [Rope_Strings].
      rewrite append_nil_r, append_assoc.
      rewrite Rope_String_New.
      f_equal. destruct ys as [| y' ys']; cbn [String.concat].
      + rewrite append_nil_r. reflexivity.
      + reflexivity. }
  specialize (Hcontent xs (mkRope (Some (leaf x0)))).
  rewrite Rope_String_content, Hm in Hcontent. exact Hcontent.
Qed.

Lemma sequential_Concat_depth_wraps_witness :
  exists m,
    Rope_node (fold_left (fun r x => Rope_Concat r [New x])
                         (repeat "b" 256) (New "a")) = Some m
    /\ depth m = 0.
Proof.
  destruct (sequential_Concat_depth_wraps "a" (repeat "b" 256))
    as [m [Hm [Hd _]]].
  - discriminate.
  - apply Forall_forall. intros x Hx. apply repeat_spec in Hx. subst.
    discriminate.
  - exists m. split; [exact Hm |]. rewrite Hd. unfold len.
    rewrite repeat_length. reflexivity.
Defined.

(** ** What the reader delivers *)

(** [reads fuel k r data r']: successive calls of [Read] with a [k]-byte
    buffer, none of them reporting an error, deliver [data] and take the
    reader [r] to [r']. *)
Inductive reads (fuel : nat) (k : Z) : Reader -> string -> Reader -> Prop :=
| reads_done (r : Reader) : reads fuel k r "" r
| reads_more (r r1 r2 : Reader) (d ds : string) :
    Read fuel r k = Ok (d, false, r1) ->
    reads fuel k r1 ds r2 ->
    reads fuel k r (d ++ ds) r2.

Lemma Read_loop_data (fuel : nat) (r : Reader) :
  pos r <> slen (cur r) -> Read_loop fuel r = Ok (r, false).
Proof.
  intros H. destruct fuel; cbn [Read_loop];
    destruct (Z.eqb_spec (pos r) (slen (cur r))); congruence.
Qed.

Lemma substring_split (p a b : nat) (l : string) :
  substring p (a + b) l = substring p a l ++ substring (p + a) b l.
Proof.
  revert p a b. induction l as [| c l IH]; intros p a b.
  - destruct p, a, b; reflexivity.
  - destruct p as [| p].
    + destruct a as [| a].
      * reflexivity.
      * cbn [substring Nat.add append]. rewrite IH. reflexivity.
    + cbn [substring Nat.add]. apply IH.
Qed.

(** One [Read] inside a leaf: the next [min k avail] bytes. *)
Lemma Read_inside_leaf (fuel : nat) (st : list node) (l : string) (p k : Z) :
  0 <= p < slen l -> 1 <= k ->
  let n := Z.min k (slen l - p) in
  Read fuel (mkReader st l p) k
  = Ok (substring (Z.to_nat p) (Z.to_nat n) l, false, mkReader st l (p + n)).
Proof.
  intros Hp Hk n. unfold Read.
  rewrite Read_loop_data by (cbn; lia). cbn [bind pos cur stack].
  replace (if k <? slen l - p then k else slen l - p) with n
    by (unfold n; destruct (Z.ltb_spec k (slen l - p)); lia).
  reflexivity.
Qed.

(** Reading on from position [p] of the current leaf delivers the rest of
    the leaf, whatever the stack. *)
Lemma reads_rest_of_leaf (fuel : nat) (st : list node) (l : string) (k : Z) :
  1 <= k ->
  forall (m : nat) (p : Z),
    0 <= p <= slen l -> slen l - p <= Z.of_nat m ->
    reads fuel k (mkReader st l p) (str_from p l) (mkReader st l (slen l)).
Proof.
  intros Hk. induction m as [| m IH]; intros p Hp Hm.
  - assert (p = slen l) as -> by lia.
    rewrite str_from_all. constructor.
  - destruct (Z.eq_dec p (slen l)) as [-> | Hne].
    + rewrite str_from_all. constructor.
    + set (n := Z.min k (slen l - p)).
      assert (str_from p l
              = substring (Z.to_nat p) (Z.to_nat n) l ++ str_from (p + n) l)
        as ->.
      { unfold str_from, slen in *.
        replace (String.length l - Z.to_nat p)%nat
          with (Z.to_nat n + (String.length l - Z.to_nat (p + n)))%nat
          by (unfold n in *; lia).
        rewrite substring_split. f_equal. f_equal. unfold n in *. lia. }
      eapply reads_more.
      * apply Read_inside_leaf; lia.
      * apply IH; unfold n; lia.
Qed.

(** X11: what the reader delivers.  On a rope whose root is a leaf,
    successive Reads with a buffer of k >= 1 bytes deliver exactly the leaf,
    and the next Read panics instead of reporting EOF.  On a rope whose
    root is a concat with a leaf as left child, they deliver that leaf, and
    the next Read reports EOF: the content of the right child is never
    delivered. *)
Theorem Reader_delivers_the_leftmost_leaf (fuel : nat) (k : Z) :
  1 <= k ->
  (forall l,
      NewReader (mkRope (Some (leaf l))) = Ok (mkReader [] l 0)
      /\ reads fuel k (mkReader [] l 0) l (mkReader [] l (slen l))
      /\ Read (S fuel) (mkReader [] l (slen l)) k
         = Panic SliceBoundsOutOfRange)
  /\ (forall l r split rLen d,
         let c := concat (leaf l) r split rLen d in
         NewReader (mkRope (Some c)) = Ok (mkReader [c] l 0)
         /\ reads fuel k (mkReader [c] l 0) l (mkReader [c] l (slen l))
         /\ Read (S fuel) (mkReader [c] l (slen l)) k
            = Ok ("", true, mkReader [] l (slen l))).
Proof.
  intros Hk. split.
  - intros l. split; [reflexivity |]. split.
    + rewrite <- (str_from_0 l) at 2.
      apply (reads_rest_of_leaf fuel [] l k Hk (String.length l) 0);
        unfold slen; lia.
    + apply Read_empty_stack_panics.
  - intros l r split rLen d c. split; [reflexivity |]. split.
    + rewrite <- (str_from_0 l) at 2.
      apply (reads_rest_of_leaf fuel [c] l k Hk (String.length l) 0);
        unfold slen; lia.
    + unfold Read. cbn [Read_loop pos cur]. rewrite Z.eqb_refl.
      reflexivity.
Qed.

Lemma Reader_delivers_the_leftmost_leaf_witness :
  reads 3 2 (mkReader [] "abc" 0) "abc" (mkReader [] "abc" 3).
Proof.
  refine (proj1 (proj2 (proj1
            (Reader_delivers_the_leftmost_leaf 3 2 _) "abc"))).
  lia.
Defined.

Lemma pushSubtree_pos (n : node) :
  forall r r', pushSubtree r n = Ok r' -> pos r' = 0.
Proof.
  induction n as [l | l IHl rt _ split rLen d | inner _]; intros r r' H;
    cbn [pushSubtree] in H.
  - inversion H. reflexivity.
  - eapply IHl. exact H.
  - discriminate.
Qed.

Lemma nextNode_pos (r r1 : Reader) :
  nextNode r = Ok r1 -> negb (len (stack r1) =? 0) = true -> pos r1 = 0.
Proof.
  unfold nextNode. intros H Hne.
  destruct (len (stack r) - 1 <? 0); [discriminate |].
  set (r0 := mkReader (removelast (stack r)) (cur r) (pos r)) in *.
  destruct (negb (len (stack r0) =? 0)) eqn:E.
  - destruct (at_index (stack r0) (len (stack r0) - 1)) as [top | |];
      cbn [bind] in H; try discriminate.
    eapply pushSubtree_pos. exact H.
  - inversion H; subst r1. rewrite E in Hne. discriminate.
Qed.

Lemma Read_loop_exit (fuel : nat) :
  forall r r1,
    0 <= pos r <= slen (cur r) ->
    Read_loop fuel r = Ok (r1, false) ->
    0 <= pos r1 < slen (cur r1).
Proof.
  induction fuel as [| fuel IH]; intros r r1 Hr H; cbn [Read_loop] in H;
    destruct (Z.eqb_spec (pos r) (slen (cur r))) as [He | He];
    try discriminate;
    try (inversion H; subst; lia).
  destruct (nextNode r) as [r2 | |] eqn:En; cbn [bind] in H;
    try discriminate.
  destruct (len (stack r2) =? 0) eqn:Es; [discriminate |].
  apply (IH r2 r1); [| exact H].
  rewrite (nextNode_pos r r2 En) by (rewrite Es; reflexivity).
  pose proof (slen_nonneg (cur r2)). lia.
Qed.

(** X12: a Read with a buffer of k >= 1 bytes never returns zero bytes
    together with a nil error: when it reports no error it delivers between
    1 and k bytes, taken from the current leaf at the position the reader
    then advances by as many; with EOF it delivers nothing. *)
Theorem Read_never_returns_nothing
  (fuel : nat) (r r' : Reader) (k : Z) (d : string) (eof : bool) :
  1 <= k ->
  0 <= pos r <= slen (cur r) ->
  Read fuel r k = Ok (d, eof, r') ->
  (eof = true /\ d = "")
  \/ (eof = false
      /\ 1 <= slen d <= k
      /\ pos r' <= slen (cur r')
      /\ d = substring (Z.to_nat (pos r' - slen d)) (Z.to_nat (slen d))
                       (cur r')).
Proof.
  intros Hk Hr H. unfold Read in H.
  destruct (Read_loop fuel r) as [[r1 e] | |] eqn:El; cbn [bind] in H;
    try discriminate.
  destruct e.
  - inversion H; subst. left. split; reflexivity.
  - pose proof (Read_loop_exit fuel r r1 Hr El) as Hexit.
    inversion H; subst. clear H. right. cbn [pos cur].
    set (n := if k <? slen (cur r1) - pos r1
              then k else slen (cur r1) - pos r1) in *.
    assert (1 <= n <= k /\ pos r1 + n <= slen (cur r1)) as [Hn Hfit]
      by (unfold n; destruct (Z.ltb_spec k (slen (cur r1) - pos r1)); lia).
    assert (slen (substring (Z.to_nat (pos r1)) (Z.to_nat n) (cur r1)) = n)
      as Hlen.
    { unfold slen in *. rewrite length_substring by lia. lia. }
    rewrite Hlen. split; [reflexivity |]. split; [lia |]. split; [lia |].
    f_equal. lia.
Qed.

Lemma Read_never_returns_nothing_witness : 1 <= slen "ab" <= 2.
Proof.
  destruct (Read_never_returns_nothing 5 (mkReader [] "abc" 0)
              (mkReader [] "abc" 2) 2 "ab" false)
    as [[H _] | [_ [H _]]].
  - lia.
  - cbn. lia.
  - reflexivity.
  - discriminate.
  - exact H.
Defined.

(** ** Extending the Fibonacci cache *)

(** [ext] continues the sequence that ends with [a], [b]: each element is
    the sum of the two before it. *)
Fixpoint fib_ext (a b : Z) (ext : list Z) : Prop :=
  match ext with
  | [] => True
  | x :: rest => x = a + b /\ fib_ext b x rest
  end.

Lemma last_cons {A : Type} (x : A) (l : list A) (d : A) :
  last (x :: l) d = last l x.
Proof.
  revert x d. induction l as [| y l IH]; intros x d; [reflexivity |].
  change (last (x :: y :: l) d) with (last (y :: l) d).
  rewrite !IH. reflexivity.
Qed.

Lemma extendFibs_loop_spec (N : Z) :
  N <= 2 ^ 62 ->
  forall (fuel : nat) (a b : Z) (cache : list Z),
    0 < a <= b -> N - b <= Z.of_nat fuel ->
    exists ext,
      extendFibs_loop fuel N a b cache = Ok (cache ++ ext)%list
      /\ fib_ext a b ext
      /\ N <= last ext b
      /\ (N <= b -> ext = [])
      /\ strictly_increasing (b :: ext) = true.
Proof.
  intros HN. induction fuel as [| fuel IH]; intros a b cache Hab Hfuel;
    cbn [extendFibs_loop]; destruct (Z.ltb_spec b N) as [Hlt | Hge].
  - lia.
  - exists []. rewrite app_nil_r. cbn. repeat split; auto; lia.
  - assert (add64 a b = a + b) as Hadd by (apply add64_id; int64_range).
    rewrite Hadd.
    destruct (IH b (a + b) (cache ++ [a + b])%list) as
      (ext & Hrun & Hfib & Hlast & _ & Hinc); [lia | lia |].
    exists ((a + b) :: ext). rewrite Hrun, <- app_assoc. cbn [app].
    split; [reflexivity |]. split; [cbn [fib_ext]; auto |].
    split; [rewrite last_cons; exact Hlast |].
    split; [lia |].
    change (strictly_increasing (b :: (a + b) :: ext))
      with ((b <? a + b) && strictly_increasing ((a + b) :: ext)).
    rewrite Hinc. destruct (Z.ltb_spec b (a + b)); [reflexivity | lia].
  - exists []. rewrite app_nil_r. cbn. repeat split; auto; lia.
Qed.

Lemma strictly_increasing_join (pre : list Z) (a b : Z) (ext : list Z) :
  strictly_increasing (pre ++ [a; b]) = true ->
  strictly_increasing (b :: ext) = true ->
  strictly_increasing ((pre ++ [a; b]) ++ ext) = true.
Proof.
  intros Hpre Hext. induction pre as [| x pre IH].
  - cbn [app] in *.
    change (strictly_increasing (a :: b :: ext))
      with ((a <? b) && strictly_increasing (b :: ext)).
    change (strictly_increasing [a; b]) with ((a <? b) && true) in Hpre.
    rewrite Hext. rewrite andb_true_r in *. exact Hpre.
  - pose proof (strictly_increasing_tail _ _ Hpre) as Htail.
    specialize (IH Htail).
    destruct pre as [| y pre].
    + cbn [app] in *.
      change (strictly_increasing (x :: a :: b :: ext))
        with ((x <? a) && strictly_increasing (a :: b :: ext)).
      change (strictly_increasing [x; a; b])
        with ((x <? a) && strictly_increasing [a; b]) in Hpre.
      apply andb_prop in Hpre. destruct Hpre as [Hxa _].
      rewrite Hxa, IH. reflexivity.
    + cbn [app] in *.
      change (strictly_increasing (x :: y :: ?l))
        with ((x <? y) && strictly_increasing (y :: l)) in *.
      apply andb_prop in Hpre. destruct Hpre as [Hxy _].
      rewrite Hxy, IH. reflexivity.
Qed.

Lemma at_index_app_last_two (pre : list Z) (a b : Z) :
  at_index (pre ++ [a; b]) (len (pre ++ [a; b]) - 2) = Ok a
  /\ at_index (pre ++ [a; b]) (len (pre ++ [a; b]) - 1) = Ok b.
Proof.
  unfold len. rewrite length_app. cbn [List.length].
  split; apply at_index_Ok; (split; [lia |]).
  - replace (Z.to_nat (Z.of_nat (List.length pre + 2) - 2))
      with (List.length pre + 0)%nat by lia.
    rewrite nth_error_app2 by lia.
    replace (List.length pre + 0 - List.length pre)%nat with 0%nat by lia.
    reflexivity.
  - replace (Z.to_nat (Z.of_nat (List.length pre + 2) - 1))
      with (List.length pre + 1)%nat by lia.
    rewrite nth_error_app2 by lia.
    replace (List.length pre + 1 - List.length pre)%nat with 1%nat by lia.
    reflexivity.
Qed.

(** X13: extendFibs(N), for N up to 2^62 and a strictly increasing cache
    that ends with a and b, 0 < a, returns within N - b iterations; it only
    appends to the cache, each appended number is the sum of the two before
    it, the last number of the result is at least N, nothing is appended
    when the cache already reaches N, and the result is strictly
    increasing. *)
Theorem extendFibs_appends_fibonacci
  (fuel : nat) (N : Z) (pre : list Z) (a b : Z) :
  0 < a <= b -> N <= 2 ^ 62 -> N - b <= Z.of_nat fuel ->
  strictly_increasing (pre ++ [a; b]) = true ->
  exists ext,
    extendFibs fuel N (pre ++ [a; b]) = Ok ((pre ++ [a; b]) ++ ext)%list
    /\ fib_ext a b ext
    /\ N <= last ext b
    /\ (N <= b -> ext = [])
    /\ strictly_increasing ((pre ++ [a; b]) ++ ext) = true.
Proof.
  intros Hab HN Hfuel Hinc. unfold extendFibs.
  destruct (at_index_app_last_two pre a b) as [Ha Hb].
  rewrite Ha, Hb. cbn [bind].
  destruct (extendFibs_loop_spec N HN fuel a b (pre ++ [a; b]) Hab Hfuel)
    as (ext & Hrun & Hfib & Hlast & Hnone & Hext).
  exists ext. repeat split; auto.
  apply strictly_increasing_join; assumption.
Qed.

Lemma extendFibs_appends_fibonacci_witness :
  exists ext,
    extendFibs 10 832050 fibCache = Ok (fibCache ++ ext)%list
    /\ fib_ext 514229 832040 ext
    /\ 832050 <= last ext 832040
    /\ (832050 <= 832040 -> ext = [])
    /\ strictly_increasing (fibCache ++ ext) = true.
Proof.
  apply (extendFibs_appends_fibonacci 10 832050 (firstn 27 fibCache)
           514229 832040).
  - lia.
  - lia.
  - lia.
  - vm_compute. reflexivity.
Defined.

(** ** The binary search on any slice *)

Lemma binSearch_loop_boundary (N : Z) (arr : list Z) :
  len arr < 2 ^ 62 ->
  forall (fuel : nat) (start end_ i : Z),
    -1 <= start -> start < end_ -> end_ <= len arr ->
    (start = -1 \/ exists x, at_index arr start = Ok x /\ x < N) ->
    (end_ = len arr \/ exists y, at_index arr end_ = Ok y /\ N < y) ->
    binSearch_loop fuel N arr start end_ = Ok i ->
    at_index arr i = Ok N
    \/ ((i = 0 \/ exists x, at_index arr (i - 1) = Ok x /\ x < N)
        /\ (i = len arr \/ exists y, at_index arr i = Ok y /\ N < y)).
Proof.
  intros Hlen.
  induction fuel as [| fuel IH]; intros start end_ i Hs Hlt He Hlo Hhi Hrun;
    cbn [binSearch_loop] in Hrun;
    rewrite (sub64_small_gap start end_ (len arr)) in Hrun by assumption;
    destruct (Z.ltb_spec 1 (end_ - start)) as [Hgap | Hgap];
    try discriminate.
  - inversion Hrun; subst i. right.
    assert (end_ - 1 = start) as Hprev by lia. rewrite Hprev.
    split; [| exact Hhi].
    destruct Hlo as [Hlo | Hlo]; [left; lia | right; exact Hlo].
  - destruct (midpoint_inside start end_ (len arr) Hs He Hlen Hgap)
      as [_ Hmid].
    set (mid := Z.quot (add64 start end_) 2) in *.
    destruct (at_index_in_range arr mid ltac:(lia)) as [elt Helt].
    rewrite Helt in Hrun. cbn [bind] in Hrun.
    destruct (Z.ltb_spec elt N) as [Hc1 | Hc1].
    + apply (IH mid end_ i); auto; try lia. right. exists elt. auto.
    + destruct (Z.ltb_spec N elt) as [Hc2 | Hc2].
      * apply (IH start mid i); auto; try lia. right. exists elt. auto.
      * inversion Hrun; subst i. left.
        assert (elt = N) as <- by lia. exact Helt.
  - inversion Hrun; subst i. right.
    assert (end_ - 1 = start) as Hprev by lia. rewrite Hprev.
    split; [| exact Hhi].
    destruct Hlo as [Hlo | Hlo]; [left; lia | right; exact Hlo].
Qed.

(** X14: on any slice, sorted or not, binSearch returns within len + 1
    iterations without reading outside the slice; its result i is in
    [0, len], and either arr[i] = N, or i is a boundary: the element before
    i (if any) is below N and the element at i (if any) is above N. *)
Theorem binSearch_on_any_slice (N : Z) (arr : list Z) :
  len arr < 2 ^ 62 ->
  exists i,
    binSearch N arr = Ok i
    /\ 0 <= i <= len arr
    /\ (at_index arr i = Ok N
        \/ ((i = 0 \/ exists x, at_index arr (i - 1) = Ok x /\ x < N)
            /\ (i = len arr \/ exists y, at_index arr i = Ok y /\ N < y))).
Proof.
  intros Hlen.
  destruct (binSearch_total N arr Hlen) as [i [Hi Hb]].
  exists i. split; [exact Hi |]. split; [exact Hb |].
  unfold binSearch in Hi.
  assert (-1 < len arr) as Hpos by (unfold len; lia).
  apply (binSearch_loop_boundary N arr Hlen
           (S (List.length arr)) (-1) (len arr) i);
    try assumption; try lia; left; reflexivity.
Qed.

Lemma binSearch_on_any_slice_witness :
  exists i,
    binSearch 4 [9; 1; 7; 3] = Ok i
    /\ 0 <= i <= len [9; 1; 7; 3]
    /\ (at_index [9; 1; 7; 3] i = Ok 4
        \/ ((i = 0 \/ exists x, at_index [9; 1; 7; 3] (i - 1) = Ok x /\ x < 4)
            /\ (i = len [9; 1; 7; 3]
                \/ exists y, at_index [9; 1; 7; 3] i = Ok y /\ 4 < y))).
Proof.
  apply (binSearch_on_any_slice 4 [9; 1; 7; 3]).
  vm_compute. reflexivity.
Defined.

(** ** The earlier snapshot: value nodes with the length of the left subtree *)

(** The element sequence of a node of the earlier snapshot. *)
Fixpoint Early_content (n : Early.node) : string :=
  match n with
  | Early.leaf l => l
  | Early.concat l r _ _ => Early_content l ++ Early_content r
  end.

(** [leftLen] is the length of the left subtree, and lengths are int64. *)
Fixpoint Early_consistent (n : Early.node) : Prop :=
  match n with
  | Early.leaf l => slen l <= max_int64
  | Early.concat l r _ leftLen =>
      Early_consistent l /\ Early_consistent r
      /\ leftLen = Early.length l
      /\ Early.length l + Early.length r <= max_int64
  end.

Lemma Early_consistent_length (n : Early.node) :
  Early_consistent n ->
  0 <= Early.length n <= max_int64
  /\ slen (Early_content n) = Early.length n.
Proof.
  induction n as [l | l IHl r IHr d leftLen]; cbn [Early_consistent].
  - intros H. cbn [Early.length Early_content].
    pose proof (slen_nonneg l). lia.
  - intros (Hl & Hr & Hs & Hsum).
    destruct (IHl Hl) as [Hl0 Hlc]. destruct (IHr Hr) as [Hr0 Hrc].
    cbn [Early.length Early_content]. subst leftLen.
    rewrite add64_id by int64_range. rewrite slen_append. lia.
Qed.

Lemma Early_length_concat l r d leftLen :
  Early_consistent (Early.concat l r d leftLen) ->
  Early.length (Early.concat l r d leftLen) = Early.length l + Early.length r.
Proof.
  intros (Hl & Hr & Hs & Hsum).
  pose proof (Early_consistent_length l Hl) as [Hl0 _].
  pose proof (Early_consistent_length r Hr) as [Hr0 _].
  cbn [Early.length]. subst. apply add64_id. int64_range.
Qed.

Lemma Early_conc_spec (lhs rhs : Early.node) :
  Early_consistent lhs -> Early_consistent rhs ->
  Early.length lhs + Early.length rhs <= max_int64 ->
  Early_consistent (Early.conc lhs rhs)
  /\ Early.length (Early.conc lhs rhs) = Early.length lhs + Early.length rhs
  /\ Early_content (Early.conc lhs rhs)
     = Early_content lhs ++ Early_content rhs.
Proof.
  intros Hl Hr Hsum.
  pose proof (Early_consistent_length lhs Hl) as [Hl0 _].
  pose proof (Early_consistent_length rhs Hr) as [Hr0 _].
  unfold Early.conc.
  destruct (Early.is_emptyNode lhs) eqn:El.
  { apply Early_is_emptyNode_true in El. subst. cbn. auto. }
  destruct (Early.is_emptyNode rhs) eqn:Er.
  { apply Early_is_emptyNode_true in Er. subst. cbn.
    rewrite append_nil_r. repeat split; auto; lia. }
  assert (Early_consistent
            (Early.concat lhs rhs
               (add64 (if Early.depth lhs <? Early.depth rhs
                       then Early.depth rhs else Early.depth lhs) 1)
               (Early.length lhs))) as Hc
    by (cbn [Early_consistent]; auto).
  split; [exact Hc |]. split; [| reflexivity].
  apply Early_length_concat. exact Hc.
Qed.

Lemma Early_WriteTo_spec (n : Early.node) (w : string) :
  Early_consistent n ->
  Early.WriteTo n w = (Early.length n, w ++ Early_content n).
Proof.
  revert w. induction n as [l | l IHl r IHr d leftLen]; intros w Hc.
  - reflexivity.
  - rewrite (Early_length_concat _ _ _ _ Hc).
    destruct Hc as (Hl & Hr & Hs & Hsum).
    pose proof (Early_consistent_length l Hl) as [Hl0 _].
    pose proof (Early_consistent_length r Hr) as [Hr0 _].
    cbn [Early.WriteTo Early_content].
    rewrite (IHl w Hl), (IHr _ Hr).
    rewrite add64_id by int64_range. rewrite append_assoc. reflexivity.
Qed.

(** X15: in the earlier snapshot, conc of two consistent nodes is
    consistent, its length is the sum of the lengths and its content the
    two contents in order; WriteTo returns the length of the node as the
    number of bytes written and appends its content to the buffer. *)
Theorem Early_conc_and_WriteTo :
  (forall lhs rhs,
      Early_consistent lhs -> Early_consistent rhs ->
      Early.length lhs + Early.length rhs <= max_int64 ->
      Early_consistent (Early.conc lhs rhs)
      /\ Early.length (Early.conc lhs rhs)
         = Early.length lhs + Early.length rhs
      /\ Early_content (Early.conc lhs rhs)
         = Early_content lhs ++ Early_content rhs)
  /\ (forall n w,
         Early_consistent n ->
         Early.WriteTo n w = (Early.length n, w ++ Early_content n)).
Proof.
  split; [exact Early_conc_spec | exact Early_WriteTo_spec].
Qed.

Lemma Early_conc_and_WriteTo_witness :
  Early.WriteTo (Early.conc (Early.leaf "abc") (Early.leaf "def")) ""
  = (6, "abcdef").
Proof.
  rewrite (proj2 Early_conc_and_WriteTo).
  - reflexivity.
  - apply (proj1 Early_conc_and_WriteTo);
      cbn; unfold max_int64; lia.
Defined.

Lemma Early_dropPrefix_spec (n : Early.node) :
  Early_consistent n ->
  forall k, in_int64 k ->
    Early_consistent (Early.dropPrefix n k)
    /\ Early.length (Early.dropPrefix n k)
       = Early.length n - clamp k (Early.length n)
    /\ Early_content (Early.dropPrefix n k)
       = str_from (clamp k (Early.length n)) (Early_content n).
Proof.
  unfold clamp.
  induction n as [l | l IHl r IHr d leftLen]; intros Hc k Hk.
  - cbn [Early.dropPrefix Early.length Early_content].
    cbn [Early_consistent] in Hc. pose proof (slen_nonneg l).
    destruct (Z.leb_spec (slen l) k).
    + rewrite Z.min_r by lia. rewrite str_from_all. cbn.
      unfold max_int64. repeat split; lia.
    + destruct (Z.leb_spec k 0).
      * rewrite Z.max_r, Z.min_l by lia. rewrite str_from_0.
        cbn. repeat split; auto; lia.
      * rewrite Z.max_l, Z.min_l by lia.
        cbn [Early_consistent Early.length Early_content].
        rewrite slen_str_from by lia. repeat split; lia.
  - pose proof (Early_length_concat _ _ _ _ Hc) as Hlen.
    pose proof Hc as (Hl & Hr & Hs & Hsum).
    pose proof (Early_consistent_length l Hl) as [Hl0 Hlc].
    pose proof (Early_consistent_length r Hr) as [Hr0 Hrc].
    cbn [Early.dropPrefix Early_content]. rewrite Hlen.
    destruct (Z.leb_spec k 0).
    + rewrite Z.max_r, Z.min_l by lia. rewrite str_from_0.
      repeat split; auto; lia.
    + destruct (Z.ltb_spec k leftLen).
      * destruct (IHl Hl k Hk) as (IH1 & IH2 & IH3).
        rewrite Z.max_l, Z.min_l in IH2, IH3 by lia.
        destruct (Early_conc_spec (Early.dropPrefix l k) r IH1 Hr
                    ltac:(lia)) as (C1 & C2 & C3).
        rewrite Z.max_l, Z.min_l by lia.
        split; [exact C1 |]. split; [lia |].
        rewrite C3, IH3. rewrite str_from_app_l by lia. reflexivity.
      * rewrite sub64_id by int64_range.
        destruct (IHr Hr (k - leftLen) ltac:(int64_range))
          as (IH1 & IH2 & IH3).
        split; [exact IH1 |]. split; [lia |].
        rewrite IH3. rewrite str_from_app_r by lia. f_equal. lia.
Qed.

Lemma Early_dropPostfix_spec (n : Early.node) :
  Early_consistent n ->
  forall k, in_int64 k ->
    Early_consistent (Early.dropPostfix n k)
    /\ Early.length (Early.dropPostfix n k) = clamp k (Early.length n)
    /\ Early_content (Early.dropPostfix n k)
       = str_to (clamp k (Early.length n)) (Early_content n).
Proof.
  unfold clamp.
  induction n as [l | l IHl r IHr d leftLen]; intros Hc k Hk.
  - cbn [Early.dropPostfix Early.length Early_content].
    cbn [Early_consistent] in Hc. pose proof (slen_nonneg l).
    destruct (Z.leb_spec (slen l) k).
    + rewrite Z.min_r by lia. rewrite str_to_all.
      cbn. repeat split; auto; lia.
    + destruct (Z.leb_spec k 0).
      * rewrite Z.max_r, Z.min_l by lia. rewrite str_to_0.
        cbn. unfold max_int64. repeat split; lia.
      * rewrite Z.max_l, Z.min_l by lia.
        cbn [Early_consistent Early.length Early_content].
        rewrite slen_str_to by lia. repeat split; lia.
  - pose proof (Early_length_concat _ _ _ _ Hc) as Hlen.
    pose proof Hc as (Hl & Hr & Hs & Hsum).
    pose proof (Early_consistent_length l Hl) as [Hl0 Hlc].
    pose proof (Early_consistent_length r Hr) as [Hr0 Hrc].
    cbn [Early.dropPostfix Early_content]. rewrite Hlen.
    destruct (Z.leb_spec k 0).
    + rewrite Z.max_r, Z.min_l by lia. rewrite str_to_0.
      cbn. unfold max_int64. repeat split; lia.
    + destruct (Z.leb_spec k leftLen).
      * destruct (IHl Hl k Hk) as (IH1 & IH2 & IH3).
        rewrite Z.max_l, Z.min_l in IH2, IH3 by lia.
        rewrite Z.max_l, Z.min_l by lia.
        split; [exact IH1 |]. split; [lia |].
        rewrite IH3. rewrite str_to_app_l by lia. reflexivity.
      * rewrite sub64_id by int64_range.
        destruct (IHr Hr (k - leftLen) ltac:(int64_range))
          as (IH1 & IH2 & IH3).
        destruct (Early_conc_spec l (Early.dropPostfix r (k - leftLen))
                    Hl IH1 ltac:(lia)) as (C1 & C2 & C3).
        split; [exact C1 |]. split; [lia |].
        rewrite C3, IH3. rewrite str_to_app_r by lia.
        f_equal. f_equal. lia.
Qed.

(** X16: in the earlier snapshot, dropPrefix(k) keeps s[k:] and
    dropPostfix(k) keeps s[:k] of the content s, with k clamped to
    [0, length]; both keep leftLen consistent, so that the length of the
    result is length - k and k. *)
Theorem Early_drops_keep_suffix_and_prefix (n : Early.node) (k : Z) :
  Early_consistent n -> in_int64 k ->
  (Early_consistent (Early.dropPrefix n k)
   /\ Early.length (Early.dropPrefix n k)
      = Early.length n - clamp k (Early.length n)
   /\ Early_content (Early.dropPrefix n k)
      = str_from (clamp k (Early.length n)) (Early_content n))
  /\ (Early_consistent (Early.dropPostfix n k)
      /\ Early.length (Early.dropPostfix n k) = clamp k (Early.length n)
      /\ Early_content (Early.dropPostfix n k)
         = str_to (clamp k (Early.length n)) (Early_content n)).
Proof.
  intros Hc Hk. split.
  - apply Early_dropPrefix_spec; assumption.
  - apply Early_dropPostfix_spec; assumption.
Qed.

Lemma Early_drops_keep_suffix_and_prefix_witness :
  Early_content
    (Early.dropPostfix
       (Early.conc (Early.leaf "abc") (Early.leaf "def")) 4) = "abcd".
Proof.
  refine (eq_trans (proj2 (proj2 (proj2
            (Early_drops_keep_suffix_and_prefix
               (Early.conc (Early.leaf "abc") (Early.leaf "def")) 4 _ _))))
            _).
  - cbn. unfold max_int64. repeat split; lia.
  - unfold in_int64, min_int64, max_int64. lia.
  - reflexivity.
Defined.

(** ** The first snapshot: lengths *)

Lemma Struct_Len_panics (r : Struct.Rope) :
  Struct.Len r = Panic NilDereference.
Proof.
  induction r as [| direct l _ rt IHrt leftLen d]; [reflexivity |].
  cbn [Struct.Len]. rewrite IHrt. reflexivity.
Qed.

(** X17: in the first snapshot Len returns for no rope: it reads the
    fields of its receiver before testing it for nil and calls itself on
    the right subtree, down to nil, where it panics.  So does Bytes, which
    calls Len, and String returns only for a node without subtrees. *)
Theorem Struct_Len_never_returns :
  (forall r, Struct.Len r = Panic NilDereference)
  /\ (forall r, Struct.Bytes r = Panic NilDereference)
  /\ (forall r,
         Struct.String r =
         match r with
         | Struct.ptr direct Struct.nil Struct.nil _ _ => Ok direct
         | _ => Panic NilDereference
         end).
Proof.
  split; [exact Struct_Len_panics |]. split.
  - intros r. unfold Struct.Bytes. rewrite Struct_Len_panics. reflexivity.
  - intros r. destruct r as [| direct l rt ll d]; [reflexivity |].
    destruct l, rt; cbn [Struct.String];
      unfold Struct.Bytes; try rewrite Struct_Len_panics; reflexivity.
Qed.

(** ** The first snapshot: the reader *)

(** The element sequence of a rope of the first snapshot: what [WriteTo]
    emits (lemma [Struct_WriteTo_content]). *)
Fixpoint Struct_content (r : Struct.Rope) : string :=
  match r with
  | Struct.nil => ""
  | Struct.ptr direct l rt _ _ =>
      Struct_content l ++ direct ++ Struct_content rt
  end.

Lemma Struct_WriteTo_content (r : Struct.Rope) :
  r <> Struct.nil ->
  forall w, exists n,
    Struct.WriteTo r w = Ok (n, w ++ Struct_content r).
Proof.
  induction r as [| direct l IHl rt IHrt leftLen d]; [congruence |].
  intros _ w. cbn [Struct.WriteTo Struct_content].
  assert (exists n1,
             match l with
             | Struct.nil => Ok (0, w)
             | Struct.ptr _ _ _ _ _ =>
                 '(m, w0) <- Struct.WriteTo l w ;; Ok (add64 0 m, w0)
             end = Ok (n1, w ++ Struct_content l)) as [n1 H1].
  { destruct l as [| dl ll rl lll dl'].
    - exists 0. cbn. rewrite append_nil_r. reflexivity.
    - destruct (IHl ltac:(discriminate) w) as [m Hm].
      rewrite Hm. cbn [bind]. eexists. reflexivity. }
  rewrite H1. cbn [bind].
  destruct rt as [| dr lr rr llr dr'].
  - eexists. cbn [Struct_content].
    rewrite append_nil_r, append_assoc. reflexivity.
  - destruct (IHrt ltac:(discriminate)
                ((w ++ Struct_content l) ++ direct)) as [m Hm].
    rewrite Hm. cbn [bind]. eexists.
    rewrite !append_assoc. reflexivity.
Qed.

(** The number of nodes of a rope. *)
Fixpoint Struct_size (r : Struct.Rope) : nat :=
  match r with
  | Struct.nil => 0
  | Struct.ptr _ l rt _ _ => S (Struct_size l + Struct_size rt)
  end.

(** A node and its left spine, the deepest node first: what [pushSubtree]
    leaves on top of the stack. *)
Fixpoint Struct_spine (r : Struct.Rope) : list Struct.Rope :=
  match r with
  | Struct.nil => []
  | Struct.ptr _ l _ _ _ => Struct_spine l ++ [r]
  end.

(** What the nodes of a stack, the top first, still have to deliver: for
    each its text and its right subtree. *)
Fixpoint Struct_rest (ts : list Struct.Rope) : string :=
  match ts with
  | [] => ""
  | Struct.nil :: ts' => Struct_rest ts'
  | Struct.ptr direct _ rt _ _ :: ts' =>
      direct ++ Struct_content rt ++ Struct_rest ts'
  end.

(** The same when the top node has been read up to position [p]. *)
Definition Struct_pending (ts : list Struct.Rope) (p : Z) : string :=
  match ts with
  | [] => ""
  | Struct.nil :: ts' => Struct_rest ts'
  | Struct.ptr direct _ rt _ _ :: ts' =>
      str_from p direct ++ Struct_content rt ++ Struct_rest ts'
  end.

(** The nodes a stack, the top first, will still drop. *)
Fixpoint Struct_work (ts : list Struct.Rope) : nat :=
  match ts with
  | [] => 0
  | Struct.nil :: ts' => S (Struct_work ts')
  | Struct.ptr _ _ rt _ _ :: ts' => S (Struct_size rt + Struct_work ts')
  end.

Definition Struct_nonnil (r : Struct.Rope) : Prop := r <> Struct.nil.

Lemma Struct_pushSubtree_spec (t : Struct.Rope) :
  forall r,
    Struct.stack (Struct.pushSubtree r t)
    = (Struct.stack r ++ rev (Struct_spine t))%list
    /\ Struct.pos (Struct.pushSubtree r t) = Struct.pos r.
Proof.
  induction t as [| direct l IHl rt _ leftLen d]; intros r.
  - cbn. rewrite app_nil_r. auto.
  - cbn [Struct.pushSubtree Struct_spine].
    destruct (IHl (Struct.mkreader
                     (Struct.stack r ++ [Struct.ptr direct l rt leftLen d])
                     (Struct.pos r))) as [H1 H2].
    rewrite H1, H2. cbn [Struct.stack Struct.pos].
    rewrite rev_app_distr, <- app_assoc. cbn [rev app]. auto.
Qed.

Lemma Struct_spine_nonnil (t : Struct.Rope) :
  Forall Struct_nonnil (Struct_spine t).
Proof.
  induction t as [| direct l IHl rt _ leftLen d]; cbn [Struct_spine].
  - constructor.
  - apply Forall_app. split; [exact IHl |].
    constructor; [discriminate | constructor].
Qed.

Lemma Struct_rest_spine (t : Struct.Rope) (ts : list Struct.Rope) :
  Struct_rest (Struct_spine t ++ ts) = Struct_content t ++ Struct_rest ts.
Proof.
  revert ts. induction t as [| direct l IHl rt _ leftLen d]; intros ts.
  - reflexivity.
  - cbn [Struct_spine Struct_content]. rewrite <- app_assoc. cbn [app].
    rewrite IHl. cbn [Struct_rest]. rewrite !append_assoc. reflexivity.
Qed.

Lemma Struct_work_spine (t : Struct.Rope) (ts : list Struct.Rope) :
  Struct_work (Struct_spine t ++ ts) = (Struct_size t + Struct_work ts)%nat.
Proof.
  revert ts. induction t as [| direct l IHl rt _ leftLen d]; intros ts.
  - reflexivity.
  - cbn [Struct_spine Struct_size]. rewrite <- app_assoc. cbn [app].
    rewrite IHl. cbn [Struct_work]. lia.
Qed.

Lemma Struct_pending_0 (ts : list Struct.Rope) :
  Struct_pending ts 0 = Struct_rest ts.
Proof.
  destruct ts as [| [| direct l rt leftLen d] ts']; try reflexivity.
  cbn [Struct_pending Struct_rest]. rewrite str_from_0. reflexivity.
Qed.

(** The state of a reader: its stack is [ts], the top first; no node of it
    is nil; the position is inside the text of the top node. *)
Definition Struct_valid (r : Struct.reader) (ts : list Struct.Rope) : Prop :=
  Struct.stack r = rev ts
  /\ Forall Struct_nonnil ts
  /\ match ts with
     | Struct.ptr direct _ _ _ _ :: _ => 0 <= Struct.pos r <= slen direct
     | _ => True
     end.

Lemma Struct_top (ts : list Struct.Rope) (t : Struct.Rope) :
  (len (rev (t :: ts)) =? 0) = false
  /\ at_index (rev (t :: ts)) (len (rev (t :: ts)) - 1) = Ok t
  /\ removelast (rev (t :: ts)) = rev ts.
Proof.
  cbn [rev]. unfold len. rewrite length_app. cbn [List.length].
  split; [apply Z.eqb_neq; lia |]. split.
  - apply at_index_Ok. split; [lia |].
    replace (Z.to_nat (Z.of_nat (List.length (rev ts) + 1) - 1))
      with (List.length (rev ts)) by lia.
    rewrite nth_error_app2 by lia. rewrite Nat.sub_diag. reflexivity.
  - apply removelast_last.
Qed.

Lemma str_from_split (p n : Z) (l : string) :
  0 <= p -> 0 <= n -> p + n <= slen l ->
  str_from p l
  = substring (Z.to_nat p) (Z.to_nat n) l ++ str_from (p + n) l.
Proof.
  intros Hp Hn Hfit. unfold str_from, slen in *.
  replace (String.length l - Z.to_nat p)%nat
    with (Z.to_nat n + (String.length l - Z.to_nat (p + n)))%nat by lia.
  rewrite substring_split. f_equal. f_equal. lia.
Qed.

(** One [Read] of a valid reader, with enough fuel for the nodes it may
    drop: EOF when nothing is pending, and otherwise between 1 and [k] of
    the pending bytes. *)
Lemma Struct_Read_spec (k : Z) :
  1 <= k ->
  forall (fuel : nat) (r : Struct.reader) (ts : list Struct.Rope),
    Struct_valid r ts ->
    (Struct_work ts <= fuel)%nat ->
    (Struct_pending ts (Struct.pos r) = ""
     /\ exists r', Struct.Read fuel r k = Ok ("", true, r'))
    \/ (exists d r' ts',
           Struct.Read fuel r k = Ok (d, false, r')
           /\ 1 <= slen d <= k
           /\ Struct_pending ts (Struct.pos r)
              = d ++ Struct_pending ts' (Struct.pos r')
           /\ Struct_valid r' ts'
           /\ (Struct_work ts' <= Struct_work ts)%nat).
Proof.
  intros Hk.
  induction fuel as [| fuel IH]; intros r ts (Hst & Hnn & Hpos) Hfuel.
  - destruct ts as [| t ts'].
    + left. split; [reflexivity |]. exists r.
      cbn [Struct.Read]. rewrite Hst. reflexivity.
    + destruct t as [| direct l rt leftLen d];
        cbn [Struct_work] in Hfuel; lia.
  - destruct ts as [| t ts'].
    + left. split; [reflexivity |]. exists r.
      cbn [Struct.Read]. rewrite Hst. reflexivity.
    + destruct t as [| direct l rt leftLen d].
      { inversion Hnn as [| ? ? Ht _]. exfalso. apply Ht. reflexivity. }
      destruct (Struct_top ts' (Struct.ptr direct l rt leftLen d))
        as (Hlen & Htop & Hpop).
      cbn [Struct.Read]. unfold Struct.cur. rewrite Hst, Hlen, Htop.
      cbn [bind].
      destruct (Z.eqb_spec (Struct.pos r) (slen direct)) as [Hend | Hmid].
      * rewrite Hpop.
        set (r1 := Struct.mkreader (rev ts') (Struct.pos r)).
        destruct (Struct_pushSubtree_spec rt r1) as [Hpush _].
        set (r2 := Struct.mkreader
                     (Struct.stack (Struct.pushSubtree r1 rt)) 0).
        assert (Struct_valid r2 (Struct_spine rt ++ ts')) as Hvalid.
        { unfold Struct_valid, r2. cbn [Struct.stack Struct.pos].
          rewrite Hpush. unfold r1. cbn [Struct.stack].
          rewrite rev_app_distr. split; [reflexivity |]. split.
          - apply Forall_app. split; [apply Struct_spine_nonnil |].
            inversion Hnn; assumption.
          - destruct (Struct_spine rt ++ ts')%list as [| [|] ?]; auto.
            pose proof (slen_nonneg direct0). lia. }
        assert (Struct_pending (Struct.ptr direct l rt leftLen d :: ts')
                               (Struct.pos r)
                = Struct_pending (Struct_spine rt ++ ts') (Struct.pos r2))
          as Hpend.
        { cbn [Struct_pending]. rewrite Hend, str_from_all.
          unfold r2. cbn [Struct.pos].
          rewrite Struct_pending_0, Struct_rest_spine. reflexivity. }
        assert (Struct_work (Struct_spine rt ++ ts') <= fuel)%nat as Hfuel2.
        { rewrite Struct_work_spine. cbn [Struct_work] in Hfuel. lia. }
        assert (Struct_work (Struct_spine rt ++ ts')
                <= Struct_work (Struct.ptr direct l rt leftLen d :: ts'))%nat
          as Hwork
          by (rewrite Struct_work_spine; cbn [Struct_work]; lia).
        rewrite Hpend.
        destruct (IH r2 (Struct_spine rt ++ ts')%list Hvalid Hfuel2)
          as [[Hp [r' Hr']] | (dd & r' & ts2 & Hr' & Hd & Hp & Hv & Hw)].
        -- left. split; [exact Hp |]. exists r'. exact Hr'.
        -- right. exists dd, r', ts2.
           split; [exact Hr' |]. split; [exact Hd |]. split; [exact Hp |].
           split; [exact Hv | lia].
      * right.
        set (n := if k <? slen direct - Struct.pos r
                  then k else slen direct - Struct.pos r).
        assert (1 <= n <= k /\ Struct.pos r + n <= slen direct)
          as [Hn Hfit]
          by (unfold n;
              destruct (Z.ltb_spec k (slen direct - Struct.pos r)); lia).
        eexists. eexists.
        exists (Struct.ptr direct l rt leftLen d :: ts').
        split; [reflexivity |]. cbn [Struct.pos Struct.stack].
        split.
        { unfold slen in *. rewrite length_substring by lia. lia. }
        split.
        { cbn [Struct_pending].
          rewrite (str_from_split (Struct.pos r) n direct) by lia.
          rewrite append_assoc. reflexivity. }
        split; [| lia].
        unfold Struct_valid. cbn [Struct.stack Struct.pos].
        split; [reflexivity |]. split; [exact Hnn | lia].
Qed.

Lemma Struct_readAll_spec (k : Z) :
  1 <= k ->
  forall (calls fuel : nat) (r : Struct.reader) (ts : list Struct.Rope)
         (acc : string),
    Struct_valid r ts ->
    (Struct_work ts <= fuel)%nat ->
    (String.length (Struct_pending ts (Struct.pos r)) < calls)%nat ->
    Struct.readAll calls fuel r k acc
    = Ok (acc ++ Struct_pending ts (Struct.pos r)).
Proof.
  intros Hk. induction calls as [| calls IH];
    intros fuel r ts acc Hvalid Hfuel Hcalls; [lia |].
  cbn [Struct.readAll].
  destruct (Struct_Read_spec k Hk fuel r ts Hvalid Hfuel)
    as [[Hp [r' Hr']] | (d & r' & ts' & Hr' & Hd & Hp & Hv & Hw)].
  - rewrite Hr', Hp. reflexivity.
  - rewrite Hr'. cbn [bind]. rewrite Hp in *.
    rewrite (IH fuel r' ts' (acc ++ d) Hv);
      [rewrite append_assoc; reflexivity | lia |].
    rewrite length_append in Hcalls. unfold slen in Hd. lia.
Qed.

(** The depth field of the root; no function of the snapshot sets it, so
    that it is 0 in every rope the package builds. *)
Definition Struct_depth (r : Struct.Rope) : Z :=
  match r with
  | Struct.nil => 0
  | Struct.ptr _ _ _ _ depth => depth
  end.

(** X18: the reader of the first snapshot is complete: for every non-nil
    rope (with a depth field that is not negative) and every buffer of
    k >= 1 bytes, NewReader returns a reader, and reading it to exhaustion
    delivers exactly the bytes WriteTo writes, in order, and then EOF,
    without a panic; one more call than there are bytes is always
    enough. *)
Theorem Struct_reader_complete (t : Struct.Rope) (k : Z) :
  t <> Struct.nil -> 0 <= Struct_depth t < max_int64 -> 1 <= k ->
  exists r0 n,
    Struct.NewReader t = Ok r0
    /\ Struct.WriteTo t "" = Ok (n, Struct_content t)
    /\ Struct.readAll (S (String.length (Struct_content t)))
                      (Struct_size t) r0 k ""
       = Ok (Struct_content t).
Proof.
  intros Ht Hdepth Hk.
  destruct (Struct_WriteTo_content t Ht "") as [n Hn].
  destruct t as [| direct l rt leftLen d]; [congruence |].
  cbn [Struct_depth] in Hdepth.
  set (t := Struct.ptr direct l rt leftLen d) in *.
  exists (Struct.pushSubtree (Struct.mkreader [] 0) t), n.
  split.
  { unfold t. cbn [Struct.NewReader].
    rewrite add64_id by int64_range.
    destruct (Z.ltb_spec (d + 1) 0); [lia | reflexivity]. }
  split; [exact Hn |].
  destruct (Struct_pushSubtree_spec t (Struct.mkreader [] 0)) as [Hst Hpos].
  cbn [Struct.stack Struct.pos app] in Hst, Hpos.
  assert (Struct_valid (Struct.pushSubtree (Struct.mkreader [] 0) t)
                       (Struct_spine t)) as Hvalid.
  { split; [exact Hst |]. split; [apply Struct_spine_nonnil |].
    rewrite Hpos. destruct (Struct_spine t) as [| [|] ?]; auto.
    pose proof (slen_nonneg direct0). lia. }
  assert (Struct_pending (Struct_spine t) 0 = Struct_content t) as Hpend.
  { rewrite Struct_pending_0.
    rewrite <- (app_nil_r (Struct_spine t)), Struct_rest_spine.
    cbn [Struct_rest]. apply append_nil_r. }
  rewrite (Struct_readAll_spec k Hk _ _ _ (Struct_spine t) "" Hvalid).
  - rewrite Hpos, Hpend. reflexivity.
  - rewrite <- (app_nil_r (Struct_spine t)), Struct_work_spine.
    cbn [Struct_work]. lia.
  - rewrite Hpos, Hpend. lia.
Qed.

Lemma Struct_reader_complete_witness :
  exists r0 n,
    Struct.NewReader
      (Struct.ptr "b" (Struct.New "a") (Struct.New "cd") 1 1) = Ok r0
    /\ Struct.WriteTo
         (Struct.ptr "b" (Struct.New "a") (Struct.New "cd") 1 1) ""
       = Ok (n, "abcd")
    /\ Struct.readAll 5 3 r0 2 "" = Ok "abcd".
Proof.
  apply (Struct_reader_complete
           (Struct.ptr "b" (Struct.New "a") (Struct.New "cd") 1 1) 2).
  - discriminate.
  - cbn. unfold max_int64. lia.
  - lia.
Defined.

(** ** The search of the regexp helper *)

Lemma findFirst_midpoint (l h bound : Z) :
  -1 <= l -> h <= bound -> bound < 2 ^ 62 -> l + 1 < h ->
  add64 l 1 = l + 1 /\ l < Z.quot (add64 l h) 2 < h.
Proof.
  intros Hl Hh Hb Hgap.
  rewrite !add64_id by int64_range. split; [reflexivity |].
  rewrite Z.quot_div_nonneg by lia.
  split.
  - apply Z.lt_le_trans with (m := (2 * (l + 1)) / 2).
    + rewrite Z.mul_comm, Z.div_mul by lia. lia.
    + apply Z.div_le_mono; lia.
  - apply Z.div_lt_upper_bound; lia.
Qed.

Lemma findFirst_loop_spec (vs : list string) (predicate : string -> bool) :
  len vs < 2 ^ 62 ->
  forall (fuel : nat) (l h : Z),
    -1 <= l -> l < h -> h <= len vs ->
    h - l <= Z.of_nat fuel ->
    (l = -1 \/ exists x, at_index vs l = Ok x /\ predicate x = false) ->
    (h = len vs \/ exists y, at_index vs h = Ok y /\ predicate y = true) ->
    exists i,
      Util.findFirst_loop fuel vs predicate l h = Ok i
      /\ l < i <= h
      /\ (i = 0 \/ exists x, at_index vs (i - 1) = Ok x
                             /\ predicate x = false)
      /\ (i = len vs \/ exists y, at_index vs i = Ok y
                                  /\ predicate y = true).
Proof.
  intros Hlen.
  induction fuel as [| fuel IH]; intros l h Hl Hlt Hh Hfuel Hlo Hhi.
  - lia.
  - cbn [Util.findFirst_loop].
    assert (add64 l 1 = l + 1) as -> by (apply add64_id; int64_range).
    destruct (Z.ltb_spec (l + 1) h) as [Hgap | Hgap].
    + destruct (findFirst_midpoint l h (len vs) Hl Hh Hlen Hgap)
        as [_ Hmid].
      set (m := Z.quot (add64 l h) 2) in *.
      destruct (at_index_in_range vs m ltac:(lia)) as [v Hv].
      rewrite Hv. cbn [bind].
      destruct (predicate v) eqn:Hp.
      * destruct (IH l m) as (i & Hi & Hb & H1 & H2); try lia; auto.
        { right. exists v. auto. }
        exists i. repeat split; auto; lia.
      * destruct (IH m h) as (i & Hi & Hb & H1 & H2); try lia; auto.
        { right. exists v. auto. }
        exists i. repeat split; auto; lia.
    + exists h. split; [reflexivity |]. split; [lia |].
      split; [| exact Hhi].
      assert (h - 1 = l) as -> by lia.
      destruct Hlo as [Hlo | Hlo]; [left; lia | right; exact Hlo].
Qed.

(** X19: findFirst returns, on any slice and any predicate, within
    len + 1 iterations and without reading outside the slice; its result i
    is in [0, len], the predicate is false just before i and true at i
    (where these exist); when the predicate, once true, stays true along
    the slice, i is the least index at which it holds, and len when it
    holds nowhere.  prefixStart and prefixEnd return 0 and len for the
    empty prefix. *)
Theorem findFirst_finds_the_first (vs : list string) :
  len vs < 2 ^ 62 ->
  (forall predicate,
      exists i,
        Util.findFirst vs predicate = Ok i
        /\ 0 <= i <= len vs
        /\ (i = 0 \/ exists x, at_index vs (i - 1) = Ok x
                               /\ predicate x = false)
        /\ (i = len vs \/ exists y, at_index vs i = Ok y
                                    /\ predicate y = true)
        /\ ((forall j1 j2 x1 x2,
                at_index vs j1 = Ok x1 -> at_index vs j2 = Ok x2 ->
                j1 <= j2 -> predicate x1 = true -> predicate x2 = true) ->
            forall j x, at_index vs j = Ok x ->
                        (predicate x = true <-> i <= j)))
  /\ Util.prefixStart vs "" = Ok 0
  /\ Util.prefixEnd vs "" = Ok (len vs).
Proof.
  intros Hlen. split; [| split; reflexivity].
  intros predicate. unfold Util.findFirst.
  assert (-1 < len vs) as Hpos by (unfold len; lia).
  destruct (findFirst_loop_spec vs predicate Hlen
              (S (List.length vs)) (-1) (len vs)
              ltac:(lia) Hpos ltac:(lia) ltac:(unfold len; lia)
              (or_introl eq_refl) (or_introl eq_refl))
    as (i & Hi & Hb & Hbefore & Hat).
  exists i. split; [exact Hi |]. split; [lia |].
  split; [exact Hbefore |]. split; [exact Hat |].
  intros Hmono j x Hj. pose proof (at_index_bound _ _ _ Hj) as Hjb.
  split.
  - intros Hp.
    destruct (Z.le_gt_cases i j) as [Hle | Hgt]; [exact Hle |].
    destruct Hbefore as [H0 | (x0 & Hx0 & Hp0)]; [lia |].
    rewrite (Hmono j (i - 1) x x0 Hj Hx0 ltac:(lia) Hp) in Hp0.
    discriminate.
  - intros Hle.
    destruct Hat as [Hend | (y & Hy & Hpy)]; [lia |].
    apply (Hmono i j y x Hy Hj Hle Hpy).
Qed.

Lemma findFirst_finds_the_first_witness :
  exists i,
    Util.findFirst ["ab"; "abc"; "b"; "ca"]
                   (fun s => negb (Util.HasPrefix s "a")) = Ok i
    /\ 0 <= i <= 4.
Proof.
  destruct (proj1 (findFirst_finds_the_first ["ab"; "abc"; "b"; "ca"]
                     ltac:(vm_compute; reflexivity))
              (fun s => negb (Util.HasPrefix s "a")))
    as (i & Hi & Hb & _).
  exists i. split; [exact Hi | exact Hb].
Defined.

(** ** The nil-aware concMany *)

Lemma canonical_zero_length (n : node) :
  canonical n -> length n = 0 -> n = emptyNode.
Proof. intros (_ & _ & [H | H]) H0; [exact H | lia]. Qed.

Lemma lengths_all_empty (ns : list node) :
  Forall (eq emptyNode) ns -> lengths ns = 0.
Proof.
  induction 1 as [| n ns Hn _ IH]; cbn [lengths]; [reflexivity |].
  subst. rewrite length_emptyNode. lia.
Qed.

(** X20: the concMany that accepts nil reads nil as the empty string: the
    content of its result is the contents of the non-nil operands in
    order, and when every operand is nil the result is the canonical empty
    node. *)
Theorem NodeGo_concMany_reads_nil_as_empty :
  (forall first others,
      content (NodeGo.concMany first others)
      = contents (map denil (first :: others)))
  /\ (forall others,
         Forall (eq None) others ->
         NodeGo.concMany None others = emptyNode).
Proof.
  split.
  - intros first others. rewrite NodeGo_concMany_denil, concMany_content.
    reflexivity.
  - intros others Hall. rewrite NodeGo_concMany_denil.
    assert (Forall (eq emptyNode) (map denil others)) as Hempty.
    { apply Forall_forall. intros n Hn. apply in_map_iff in Hn.
      destruct Hn as (o & Ho & Hin).
      rewrite <- (proj1 (Forall_forall _ _) Hall o Hin) in Ho.
      exact Ho. }
    assert (Forall canonical (denil None :: map denil others)) as Hcan.
    { constructor; [apply canonical_emptyNode |].
      eapply Forall_impl; [| exact Hempty].
      intros n <-. apply canonical_emptyNode. }
    pose proof (lengths_all_empty _ Hempty) as Hlen.
    assert (length (denil None) + lengths (map denil others) <= max_int64)
      as Hsum by (rewrite Hlen; cbn; unfold max_int64; lia).
    apply canonical_zero_length.
    + apply concMany_rec_canonical; [lia | exact Hcan | exact Hsum].
    + destruct (concMany_consistent (denil None) (map denil others))
        as [_ Hl]; [apply canonical_consistent; exact Hcan | exact Hsum |].
      rewrite Hl, Hlen. reflexivity.
Qed.

Lemma NodeGo_concMany_reads_nil_as_empty_witness :
  NodeGo.concMany None [None; None; None] = emptyNode.
Proof.
  apply (proj2 NodeGo_concMany_reads_nil_as_empty).
  repeat constructor.
Defined.

(** ** Concatenating and dropping at the seam *)

(** X21: dropping at the seam of a concatenation recovers the operands:
    DropPrefix(a.Len()) of a.Concat(b) materializes to the content of b,
    and at the node level dropPostfix(length(a)) of conc(a, b) has the
    content of a. *)
Theorem drop_at_the_seam :
  (forall a b,
      Rope_consistent a -> Rope_consistent b ->
      Rope_Len a + Rope_Len b <= max_int64 ->
      Rope_String (Rope_DropPrefix (Rope_Concat a [b]) (Rope_Len a))
      = Rope_String b)
  /\ (forall a b hl hr,
         consistent a -> consistent b ->
         hint_ok hl a -> hint_ok hr b ->
         length a + length b <= max_int64 ->
         content (dropPostfix (conc a b hl hr) (length a)) = content a).
Proof.
  split.
  - intros a b Ha Hb Hsum.
    pose proof (Rope_consistent_Len a Ha) as Hla.
    pose proof (Rope_consistent_Len b Hb) as Hlb.
    destruct (Rope_Concat_adds_lengths_aux a [b]) as [Hc Hlen].
    { repeat constructor; assumption. }
    { cbn [Rope_Lens]. lia. }
    cbn [Rope_Lens] in Hlen.
    rewrite Rope_DropPrefix_String by (assumption || int64_range).
    rewrite Hlen, Rope_Concat_String. cbn [Rope_Strings].
    rewrite append_nil_r. unfold clamp.
    rewrite Z.max_l, Z.min_l by lia.
    assert (Rope_Len a = slen (Rope_String a)) as Hsa.
    { unfold Rope_consistent, Rope_Len in *. rewrite Rope_String_content.
      destruct (Rope_node a) as [n |]; [| reflexivity].
      symmetry. apply consistent_slen_content. exact Ha. }
    rewrite str_from_app_r by lia.
    rewrite Hsa, Z.sub_diag. apply str_from_0.
  - intros a b hl hr Ha Hb Hhl Hhr Hsum.
    pose proof (consistent_length a Ha) as Hla.
    pose proof (consistent_length b Hb) as Hlb.
    rewrite dropPostfix_content
      by (try apply conc_consistent; try assumption; int64_range).
    rewrite conc_length, conc_content by (assumption || lia).
    unfold clamp. rewrite Z.max_l, Z.min_l by lia.
    rewrite str_to_app_l
      by (rewrite consistent_slen_content by assumption; lia).
    rewrite <- (consistent_slen_content a Ha). apply str_to_all.
Qed.

Lemma drop_at_the_seam_witness :
  Rope_String
    (Rope_DropPrefix (Rope_Concat (New "abc") [New "de"])
                     (Rope_Len (New "abc"))) = "de".
Proof.
  refine (eq_trans (proj1 drop_at_the_seam (New "abc") (New "de") _ _ _) _).
  - cbn. unfold max_int64. lia.
  - cbn. unfold max_int64. lia.
  - cbn. unfold max_int64. lia.
  - reflexivity.
Defined.

(** ** Where a new reader stands *)

(** The leftmost leaf of a node, when the way down to it goes through
    [concat] nodes only. *)
Fixpoint leftmost (n : node) : option string :=
  match n with
  | leaf l => Some l
  | concat l _ _ _ _ => leftmost l
  | wrapped _ => None
  end.

(** The [concat] nodes on the way to the leftmost leaf, the root first. *)
Fixpoint left_spine (n : node) : list node :=
  match n with
  | leaf _ => []
  | concat l _ _ _ _ => n :: left_spine l
  | wrapped _ => []
  end.

Lemma pushSubtree_spec (n : node) :
  forall r,
    pushSubtree r n =
    match leftmost n with
    | Some l => Ok (mkReader (stack r ++ left_spine n) l 0)
    | None => Panic TypeAssertion
    end.
Proof.
  induction n as [l | l IHl rt _ split rLen d | inner _]; intros r.
  - cbn. rewrite app_nil_r. reflexivity.
  - cbn [pushSubtree leftmost left_spine]. rewrite IHl.
    cbn [stack]. destruct (leftmost l); [| reflexivity].
    rewrite <- app_assoc. reflexivity.
  - reflexivity.
Qed.

(** X22: NewReader leaves the reader at the start of the leftmost leaf of
    the rope, with the concat nodes on the way down to it on the stack,
    the root first; it panics only when that way goes through a node that
    is neither a leaf nor a concat, and on the zero handle it returns a
    reader with an empty stack and an empty current leaf. *)
Theorem NewReader_stands_at_the_leftmost_leaf :
  (forall n,
      NewReader (mkRope (Some n)) =
      match leftmost n with
      | Some l => Ok (mkReader (left_spine n) l 0)
      | None => Panic TypeAssertion
      end)
  /\ NewReader (mkRope None) = Ok (mkReader [] "" 0).
Proof.
  split; [| reflexivity].
  intros n. unfold NewReader. cbn [Rope_node].
  rewrite pushSubtree_spec. reflexivity.
Qed.
